(** * Dexter x402 facilitator: amount codec, asset resolver, settlement
      window, signer registry, request handlers and configuration

    A shallow embedding of the request-resolution and settlement-accounting
    code of the facilitator's server, of its three routes and of the lists of
    its configuration, and the properties its specification states about
    it, with further properties of the code.

    Conventions of the embedding.
    - A JavaScript [bigint] is a [Z].
    - A JavaScript [number] is an IEEE-754 binary64 value, a [spec_float] of
      the Standard Library: [S754_finite s m e] is [(-1)^s * m * 2^e].  No
      operation below depends on the mantissa being normalised, so the model
      covers every binary64 value.
    - Timestamps are values of [Date.now()]: integer milliseconds, on which
      the subtraction and comparison of numbers are exact; they are [Z].
    - A JavaScript string is a [string] whose characters are the code units
      below 256.
    - A value of type [unknown] is a [JsValue]: what a JSON body yields
      (null, booleans, numbers, strings, arrays, objects), and [undefined] and
      [bigint].
    - Code that may throw returns a [completion]; [try]/[catch] is
      [try_catch].
    - An engine bounds the size of a bigint; the powers it holds are a
      variable of the section [Server], and [**] throws on the others.
    - The module's mutable state (the signer cache, the settlement window) is
      passed in and out of the functions that touch it.
    - The external collaborators (schemas, signer creation, verify, settle)
      and the part of [Number::toString] that is not written out are
      variables of the section [Server].
    - A handler is run from its first statement to its answer; where
      requests are put in a sequence, they are served one after another.
    - The rendering of log lines (colours, asset labels, links) is
      presentation; the model keeps what is rendered and takes the rendering
      not to throw. *)

From Stdlib Require Import ZArith List String Ascii Decimal DecimalString DecimalPos DecimalZ Lia.
From Stdlib Require Import Floats.SpecFloat.
From stdpp Require Import gmap strings.

Open Scope Z_scope.

(** ** Completions: normal results and thrown errors *)

Inductive JsError : Set :=
  | SyntaxError
  | RangeError
  | TypeError
  | HostError (message : string).

Inductive completion (A : Type) : Type :=
  | Normal (a : A)
  | Throw (e : JsError).

Arguments Normal {A} a.
Arguments Throw {A} e.

Definition bind {A B : Type} (c : completion A) (k : A -> completion B) : completion B :=
  match c with
  | Normal a => k a
  | Throw e => Throw e
  end.

Notation "'let*' x ':=' c 'in' k" := (bind c (fun x => k))
  (at level 10, x pattern, c at level 100, k at level 200).

(** [try { body } catch (_error) { handler }] *)
Definition try_catch {A : Type} (body : completion A) (handler : JsError -> completion A)
  : completion A :=
  match body with
  | Normal a => Normal a
  | Throw e => handler e
  end.

Definition returns {A : Type} (c : completion A) : Prop :=
  exists a, c = Normal a.

(** ** Strings *)

(** [WhiteSpace] and [LineTerminator] code units below 256: TAB, LF, VT, FF,
    CR, SP and NBSP. *)
Definition is_whitespace (c : ascii) : bool :=
  match N_of_ascii c with
  | 9 | 10 | 11 | 12 | 13 | 32 | 160 => true
  | _ => false
  end%N.

Fixpoint trimStart (s : string) : string :=
  match s with
  | EmptyString => EmptyString
  | String c rest => if is_whitespace c then trimStart rest else s
  end.

Fixpoint trimEnd (s : string) : string :=
  match s with
  | EmptyString => EmptyString
  | String c rest =>
      match trimEnd rest with
      | EmptyString => if is_whitespace c then EmptyString else String c EmptyString
      | rest' => String c rest'
      end
  end.

(** [String.prototype.trim] *)
Definition trim (s : string) : string := trimEnd (trimStart s).

Fixpoint repeat_char (c : ascii) (n : nat) : string :=
  match n with
  | O => EmptyString
  | S k => String c (repeat_char c k)
  end.

(** [s.padStart(targetLength, "0")] *)
Definition padStart (s : string) (targetLength : Z) : string :=
  repeat_char "0" (Z.to_nat targetLength - String.length s) +:+ s.

(** [s.replace(/0+$/, "")]: the match is the whole run of zeros that ends the
    string, if there is one. *)
Fixpoint strip_trailing_zeros (s : string) : string :=
  match s with
  | EmptyString => EmptyString
  | String c rest =>
      match strip_trailing_zeros rest with
      | EmptyString => if Ascii.eqb c "0" then EmptyString else String c EmptyString
      | rest' => String c rest'
      end
  end.

(** The truthiness of a string: [!text] holds of the empty string only. *)
Definition string_truthy (s : string) : bool :=
  match s with
  | EmptyString => false
  | String _ _ => true
  end.

(** ** BigInt *)

(** [BigInt.prototype.toString()] *)
Definition BigInt_toString (z : Z) : string :=
  NilZero.string_of_int (Z.to_int z).

(** The digits of [StringToBigInt]'s decimal literal: one or more decimal
    digits, leading zeros allowed. *)
Definition parse_decimal_digits (s : string) : option Z :=
  match s with
  | EmptyString => None
  | String _ _ => option_map Z.of_uint (NilEmpty.uint_of_string s)
  end.

Definition digit_value (radix : Z) (c : ascii) : option Z :=
  let n := Z.of_N (N_of_ascii c) in
  let v :=
    if (48 <=? n) && (n <=? 57) then Some (n - 48)
    else if (97 <=? n) && (n <=? 102) then Some (n - 87)
    else if (65 <=? n) && (n <=? 70) then Some (n - 55)
    else None in
  match v with
  | Some d => if d <? radix then Some d else None
  | None => None
  end.

Fixpoint parse_radix_digits (radix : Z) (acc : Z) (s : string) : option Z :=
  match s with
  | EmptyString => Some acc
  | String c rest =>
      match digit_value radix c with
      | Some d => parse_radix_digits radix (radix * acc + d) rest
      | None => None
      end
  end.

(** One or more digits of the radix, after the [0x], [0o] or [0b] prefix. *)
Definition parse_radix_literal (radix : Z) (s : string) : option Z :=
  match s with
  | EmptyString => None
  | String _ _ => parse_radix_digits radix 0 s
  end.

(** [StrIntegerLiteral]: a non-decimal literal takes no sign, a decimal one
    takes an optional [+] or [-]; no separator, fraction, exponent or [n]
    suffix. *)
Definition StrIntegerLiteral (s : string) : option Z :=
  match s with
  | String "0" (String ("x" | "X") digits) => parse_radix_literal 16 digits
  | String "0" (String ("o" | "O") digits) => parse_radix_literal 8 digits
  | String "0" (String ("b" | "B") digits) => parse_radix_literal 2 digits
  | String "-" digits => option_map Z.opp (parse_decimal_digits digits)
  | String "+" digits => parse_decimal_digits digits
  | _ => parse_decimal_digits s
  end%char.

(** [StringToBigInt]: white space around the literal is dropped, and the
    empty literal is [0n]. *)
Definition StringToBigInt (s : string) : option Z :=
  match trim s with
  | EmptyString => Some 0
  | text => StrIntegerLiteral text
  end.

(** [BigInt(text)] on a string: a [SyntaxError] when the text is no integer
    literal. *)
Definition BigInt_of_string (s : string) : completion Z :=
  match StringToBigInt s with
  | Some z => Normal z
  | None => Throw SyntaxError
  end.

(** ** Numbers *)

(** A JavaScript number. *)
Definition number : Set := spec_float.

(** [Number.isFinite] *)
Definition Number_isFinite (x : number) : bool :=
  match x with
  | S754_zero _ | S754_finite _ _ _ => true
  | S754_infinity _ | S754_nan => false
  end.

Definition signed (s : bool) (z : Z) : Z := if s then - z else z.

(** The integer a number is, if it is one. *)
Definition number_to_Z (x : number) : option Z :=
  match x with
  | S754_zero _ => Some 0
  | S754_finite s m e =>
      if 0 <=? e then Some (signed s (Z.pos m * 2 ^ e))
      else if Z.pos m mod 2 ^ (- e) =? 0 then Some (signed s (Z.pos m / 2 ^ (- e)))
      else None
  | S754_infinity _ | S754_nan => None
  end.

(** The number an integer is (exactly, with an unnormalised mantissa). *)
Definition number_of_Z (z : Z) : number :=
  match z with
  | Z0 => S754_zero false
  | Zpos p => S754_finite false p 0
  | Zneg p => S754_finite true p 0
  end.

(** [Math.trunc]: the integer part, the fraction dropped. *)
Definition Math_trunc (x : number) : number :=
  match x with
  | S754_finite s m e =>
      if 0 <=? e then x
      else match Z.pos m / 2 ^ (- e) with
           | Zpos q => S754_finite s q 0
           | _ => S754_zero s
           end
  | _ => x
  end.

(** [BigInt(x)] on a number: a [RangeError] unless the number is an integer. *)
Definition BigInt_of_number (x : number) : completion Z :=
  match number_to_Z x with
  | Some z => Normal z
  | None => Throw RangeError
  end.

(** [x <= 0] *)
Definition Number_le_zero (x : number) : bool :=
  match x with
  | S754_zero _ => true
  | S754_finite s _ _ => s
  | S754_infinity s => s
  | S754_nan => false
  end.

(** The integers [Number::toString] prints as their own decimal digits: the
    ones up to 2^53 in magnitude, where every integer is a number of its own.
    (Beyond, it prints the shortest digits that read back as the number, and
    from 10^21 on an exponent.) *)
Definition plain_integer (x : number) : option Z :=
  match number_to_Z x with
  | Some z => if Z.abs z <=? 2 ^ 53 then Some z else None
  | None => None
  end.

(** ** Values of type [unknown] *)

#[warnings="-register-all"]
Inductive JsValue : Set :=
  | JUndefined
  | JNull
  | JBoolean (b : bool)
  | JNumber (x : number)
  | JBigInt (z : Z)
  | JString (s : string)
  | JArray (items : list JsValue)
  | JObject (props : gmap string JsValue).

(** [v === null || v === undefined] *)
Definition nullish (v : JsValue) : bool :=
  match v with
  | JUndefined | JNull => true
  | _ => false
  end.

(** [v ?? w] *)
Definition nullish_coalesce (v w : JsValue) : JsValue :=
  if nullish v then w else v.

(** [v && typeof v === "object"]: an object or an array ([null] is falsy). *)
Definition truthy_object (v : JsValue) : bool :=
  match v with
  | JArray _ | JObject _ => true
  | _ => false
  end.

(** [key in v] for a key that is no array index and not [length]. *)
Definition has_property (key : string) (v : JsValue) : bool :=
  match v with
  | JObject props => bool_decide (is_Some (props !! key))
  | _ => false
  end.

(** [v.key] and [v?.key] for such a key: a missing property, and any property
    of a primitive or of an array, reads [undefined]. *)
Definition get_property (v : JsValue) (key : string) : JsValue :=
  match v with
  | JObject props => default JUndefined (props !! key)
  | _ => JUndefined
  end.

(** [typeof v === "number" ? v : undefined] *)
Definition as_number (v : JsValue) : option number :=
  match v with
  | JNumber x => Some x
  | _ => None
  end.

(** ** The payment requirements of a request *)

Record PaymentRequirements : Set := {
  pr_network : string;
  pr_asset : JsValue;
  pr_maxAmountRequired : JsValue;
  pr_resource : option string;
  pr_description : option string;
  pr_extra : JsValue;
}.

(** The result of [resolveAssetInfo]: [{ asset, decimals }]. *)
Record AssetInfo : Set := {
  asset : string;
  decimals : number;
}.

(** ** The settlement window *)

Record SettlementEntry : Set := {
  timestamp : Z;
  entry_asset : string;
  entry_decimals : number;
  amountAtomic : Z;
}.

(** A value of [RollingTotals]: [{ asset, decimals, amountAtomic }]. *)
Record TotalsEntry : Set := {
  total_asset : string;
  total_decimals : number;
  total_amountAtomic : Z;
}.

(** [RollingTotals], a [Map] from key to totals: the keys in insertion order,
    each once. *)
Definition RollingTotals : Set := list (string * TotalsEntry).

Fixpoint totals_get (totals : RollingTotals) (key : string) : option TotalsEntry :=
  match totals with
  | [] => None
  | (k, v) :: rest => if String.eqb k key then Some v else totals_get rest key
  end.

(** [totals.set(key, value)] for a key the map does not hold yet. *)
Definition totals_set (totals : RollingTotals) (key : string) (value : TotalsEntry)
  : RollingTotals :=
  totals ++ [(key, value)].

(** [existing.amountAtomic += amount], where [existing] is the object the map
    holds under [key]. *)
Fixpoint totals_add (totals : RollingTotals) (key : string) (amount : Z) : RollingTotals :=
  match totals with
  | [] => []
  | (k, v) :: rest =>
      if String.eqb k key
      then (k, {| total_asset := total_asset v;
                  total_decimals := total_decimals v;
                  total_amountAtomic := total_amountAtomic v + amount |}) :: rest
      else (k, v) :: totals_add rest key amount
  end.

(** A bound on the powers an engine holds: the bases and exponents whose
    power it does. *)
Definition PowerBound : Type := Z -> Z -> bool.

Definition DEFAULT_DECIMALS : number := number_of_Z 6.
Definition MS_IN_DAY : Z := 24 * 60 * 60 * 1000.

Fixpoint prune (cutoff : Z) (window : list SettlementEntry) : list SettlementEntry :=
  match window with
  | [] => []
  | entry :: rest => if timestamp entry <? cutoff then prune cutoff rest else window
  end.

(** [pruneSettlementWindow]: entries leave at the front, while the first one
    is older than the cutoff. *)
Definition pruneSettlementWindow (now : Z) (window : list SettlementEntry)
  : list SettlementEntry :=
  let cutoff := now - MS_IN_DAY in
  prune cutoff window.

(** ** Configuration *)

(** [s.split(",")]: the pieces between the commas, at least one. *)
Fixpoint split_comma (s : string) : list string :=
  match s with
  | EmptyString => [EmptyString]
  | String c rest =>
      if Ascii.eqb c "," then EmptyString :: split_comma rest
      else
        match split_comma rest with
        | piece :: pieces => String c piece :: pieces
        | [] => [String c EmptyString]
        end
  end.

(** [value.split(",").map(v => v.trim()).filter(Boolean)], the transform of
    [FACILITATOR_NETWORKS] and the reading of [ALLOWED_ORIGINS]. *)
Definition parse_list (value : string) : list string :=
  List.filter string_truthy (map trim (split_comma value)).

(** The [FACILITATOR_NETWORKS] of the environment schema: the variable
    trimmed, [solana] when it is not set, then the list. *)
Definition FACILITATOR_NETWORKS (variable : option string) : list string :=
  parse_list (trim (default "solana" variable)).

(** The origins the server hands to [cors], if it installs it: the variable
    is set, not empty once trimmed, and the list has an entry. *)
Definition cors_origins (ALLOWED_ORIGINS : option string) : option (list string) :=
  match ALLOWED_ORIGINS with
  | None => None
  | Some variable =>
      let value := trim variable in
      if string_truthy value then
        match parse_list value with
        | [] => None
        | origins => Some origins
        end
      else None
  end.

(** [array.map(network => { if (!SupportedSVMNetworks.includes(network))
    throw ...; return network })]: the first network that is not supported
    stops the start of the process. *)
Fixpoint check_networks (SupportedSVMNetworks configured : list string)
  : completion (list string) :=
  match configured with
  | [] => Normal []
  | network :: rest =>
      if existsb (String.eqb network) SupportedSVMNetworks
      then let* checked := check_networks SupportedSVMNetworks rest in
           Normal (network :: checked)
      else Throw (HostError ("Unsupported network configured: " +:+ network))
  end.

(** [new Set(array)], as the list of its values in insertion order: a value
    that is there already is not added again. *)
Definition Set_of_array (array : list string) : list string :=
  fold_left
    (fun values value =>
       if existsb (String.eqb value) values then values else values ++ [value])
    array [].

(** The enabled networks, in the order the set iterates them. *)
Definition enabled_networks (SupportedSVMNetworks configured : list string)
  : completion (list string) :=
  let* checked := check_networks SupportedSVMNetworks configured in
  Normal (Set_of_array checked).

(** ** Sample inputs *)

(** An instance of the platform's printing of the other numbers; nothing
    below prints one. *)
Definition no_rest (x : number) : string := "".

Definition six : number := number_of_Z 6.

(** Entries of one asset with decimals 6 and 9: two groups, each with the
    sum of its own entries. *)
Definition mixed_window : list SettlementEntry :=
  [{| timestamp := 1000; entry_asset := "A"; entry_decimals := six; amountAtomic := 100 |};
   {| timestamp := 2000; entry_asset := "A"; entry_decimals := number_of_Z 9;
      amountAtomic := 7 |}].

Definition new_entry : SettlementEntry :=
  {| timestamp := 3000; entry_asset := "A"; entry_decimals := six; amountAtomic := 200 |}.

Definition ordered_window : list SettlementEntry :=
  [{| timestamp := 0; entry_asset := "A"; entry_decimals := six; amountAtomic := 1 |};
   {| timestamp := 86400005; entry_asset := "A"; entry_decimals := six; amountAtomic := 2 |}].

Definition requirements_of (asset : JsValue) : PaymentRequirements :=
  {| pr_network := "solana";
     pr_asset := asset;
     pr_maxAmountRequired := JString "12.5";
     pr_resource := None;
     pr_description := None;
     pr_extra := JUndefined |}.

(** A settlement that succeeds with an amount that does not parse. *)
Definition receipt : JsValue :=
  JObject (<["success" := JBoolean true]> {["transaction" := JString "5Tx"]}).

(** An instance of the engine's bound on powers, for the examples: the
    exponents up to 10^8.  (V8 holds bigints of up to 2^30 bits, which is
    more; the examples use the exponents 6 and 10^10.) *)
Definition small_powers : PowerBound := fun base exponent => exponent <=? 100000000.

(** The number 1.5, which is above zero and no integer. *)
Definition one_and_a_half : number := S754_finite false 3 (-1).

(** Requirements for 1000 atomic units of an asset, with the decimals
    given in [extra.assetDecimals]. *)
Definition requirements_with (decimals : number) : PaymentRequirements :=
  {| pr_network := "solana";
     pr_asset := JString "So11";
     pr_maxAmountRequired := JString "1000";
     pr_resource := None;
     pr_description := None;
     pr_extra := JObject {["assetDecimals" := JNumber decimals]} |}.

(** An entry recorded with 1.5 decimals. *)
Definition spoiled_entry : SettlementEntry :=
  {| timestamp := 1699999999000; entry_asset := "So11"; entry_decimals := one_and_a_half;
     amountAtomic := 5 |}.

(** Three calls of [recordSettlement], the last a day and ten milliseconds
    after the first. *)
Definition three_calls : list (Z * string * number * Z) :=
  [(0, "A", six, 1); (86400005, "A", six, 2); (86400010, "A", six, 3)].

(** ** The server *)

Section Server.

(** [Number::toString] on the finite numbers that are no [plain_integer]
    (fractions, and integers above 2^53): the platform's, and no property
    below depends on what it prints. *)
Variable Number_toString_rest : number -> string.

(** [Number::toString] *)
Definition Number_toString (x : number) : string :=
  match x with
  | S754_nan => "NaN"
  | S754_infinity s => if s then "-Infinity" else "Infinity"
  | _ =>
      match plain_integer x with
      | Some z => BigInt_toString z
      | None => Number_toString_rest x
      end
  end.

(** [String(v)]: an array prints its elements joined by commas, [null] and
    [undefined] elements as nothing, and an object prints as
    [[object Object]]. *)
Fixpoint js_String (v : JsValue) : string :=
  match v with
  | JUndefined => "undefined"
  | JNull => "null"
  | JBoolean b => if b then "true" else "false"
  | JNumber x => Number_toString x
  | JBigInt z => BigInt_toString z
  | JString s => s
  | JArray items =>
      let element (x : JsValue) : string := if nullish x then "" else js_String x in
      (fix join (l : list JsValue) : string :=
         match l with
         | [] => ""
         | [x] => element x
         | x :: rest => element x +:+ "," +:+ join rest
         end) items
  | JObject _ => "[object Object]"
  end.

(** *** Asset resolver *)

Definition resolveAssetInfo (paymentRequirements : PaymentRequirements) : AssetInfo :=
  let assetField := pr_asset paymentRequirements in
  let extra := pr_extra paymentRequirements in
  let extraDecimals := as_number (get_property extra "assetDecimals") in
  if truthy_object assetField && has_property "address" assetField then
    let address :=
      js_String (nullish_coalesce (get_property assetField "address") (JString "unknown")) in
    let decimalsCandidate :=
      match extraDecimals with
      | Some d => d
      | None =>
          match as_number (get_property assetField "decimals") with
          | Some d => d
          | None => DEFAULT_DECIMALS
          end
      end in
    {| asset := address; decimals := decimalsCandidate |}
  else
    match assetField with
    | JString s =>
        if (String.length (trim s) =? 0)%nat
        then {| asset := "unknown"; decimals := default DEFAULT_DECIMALS extraDecimals |}
        else {| asset := s; decimals := default DEFAULT_DECIMALS extraDecimals |}
    | _ => {| asset := "unknown"; decimals := default DEFAULT_DECIMALS extraDecimals |}
    end.

(** *** Amount codec *)

(** The powers the engine holds.  An engine bounds the size of a bigint,
    and [**] throws a [RangeError] where the power is beyond the bound (in
    V8, Maximum BigInt size exceeded, for [10n ** 10000000000n] for one);
    which powers are within it is the engine's, and a variable here. *)
Variable BigInt_pow_fits : PowerBound.

(** [base ** exponent] on bigints: a [RangeError] on a negative exponent and
    on a power the engine does not hold. *)
Definition BigInt_pow (base exponent : Z) : completion Z :=
  if exponent <? 0 then Throw RangeError
  else if BigInt_pow_fits base exponent then Normal (base ^ exponent)
  else Throw RangeError.

(** [typeof raw === "bigint"] *)
Definition as_bigint (raw : JsValue) : option Z :=
  match raw with
  | JBigInt z => Some z
  | _ => None
  end.

(** [typeof raw === "number" && Number.isFinite(raw)] *)
Definition as_finite_number (raw : JsValue) : option number :=
  match raw with
  | JNumber x => if Number_isFinite x then Some x else None
  | _ => None
  end.

Definition safeParseAtomic (raw : JsValue) : completion (option Z) :=
  if nullish raw then Normal None
  else
    try_catch
      (match as_bigint raw with
       | Some z => Normal (Some z)
       | None =>
           match as_finite_number raw with
           | Some x => let* z := BigInt_of_number (Math_trunc x) in Normal (Some z)
           | None =>
               let text := trim (js_String raw) in
               if negb (string_truthy text) then Normal None
               else let* z := BigInt_of_string text in Normal (Some z)
           end
       end)
      (fun _error => Normal None).

Definition formatAtomicAmount (amount : Z) (decimals : number) : completion string :=
  if Number_le_zero decimals then Normal (BigInt_toString amount)
  else
    let* exponent := BigInt_of_number decimals in
    let* divisor := BigInt_pow 10 exponent in
    let negative := amount <? 0 in
    let abs := if negative then - amount else amount in
    let whole := Z.quot abs divisor in
    let fraction := Z.rem abs divisor in
    let padded := strip_trailing_zeros (padStart (BigInt_toString fraction) exponent) in
    let base :=
      if string_truthy padded
      then BigInt_toString whole +:+ "." +:+ padded
      else BigInt_toString whole in
    Normal (if negative then "-" +:+ base else base).

(** *** Settlement window aggregator *)

(** The key of an entry's group: [`${entry.asset}|${entry.decimals}`]. *)
Definition totals_key (entry : SettlementEntry) : string :=
  entry_asset entry +:+ "|" +:+ Number_toString (entry_decimals entry).

(** One turn of the loop over the window. *)
Definition add_to_totals (totals : RollingTotals) (entry : SettlementEntry) : RollingTotals :=
  let key := totals_key entry in
  match totals_get totals key with
  | Some _existing => totals_add totals key (amountAtomic entry)
  | None =>
      totals_set totals key
        {| total_asset := entry_asset entry;
           total_decimals := entry_decimals entry;
           total_amountAtomic := amountAtomic entry |}
  end.

Definition compute_totals (window : list SettlementEntry) : RollingTotals :=
  fold_left add_to_totals window [].

(** [recordSettlement], on the window it finds: the window it leaves, and the
    totals and the count it returns. *)
Definition recordSettlement (now : Z) (asset : string) (decimals : number) (amount : Z)
    (window : list SettlementEntry)
  : list SettlementEntry * (RollingTotals * Z) :=
  let pushed :=
    window ++
      [{| timestamp := now; entry_asset := asset; entry_decimals := decimals;
          amountAtomic := amount |}] in
  let window' := pruneSettlementWindow now pushed in
  let totals := compute_totals window' in
  (window', (totals, Z.of_nat (length window'))).

(** [formatVolumeSummary]: one part per group, in the order of the map, each
    the formatted total and the asset it is of.  Colours and asset labels are
    presentation and stay out; no part stands for [volume 0]. *)
Fixpoint formatVolumeSummary (totals : RollingTotals) : completion (list (string * string)) :=
  match totals with
  | [] => Normal []
  | (_, entry) :: rest =>
      let* amount := formatAtomicAmount (total_amountAtomic entry) (total_decimals entry) in
      let* parts := formatVolumeSummary rest in
      Normal ((amount, total_asset entry) :: parts)
  end.

(** *** Signer registry *)

(** The state of the process: the signer cache, the calls of the external
    [createSigner] so far (the network of each), and the settlement window.
    A cached promise is named by the index of the call that made it. *)
Record ServerState : Type := {
  signerCache : gmap string nat;
  createSigner_calls : list string;
  settlementWindow : list SettlementEntry;
}.

Definition initial_state : ServerState :=
  {| signerCache := ∅; createSigner_calls := []; settlementWindow := [] |}.

(** [getSigner]: the body has no [await], so a call runs from the test of
    the cache to the return without another call in between. *)
Definition getSigner (network : string) (st : ServerState) : nat * ServerState :=
  match signerCache st !! network with
  | Some promise => (promise, st)
  | None =>
      let promise := length (createSigner_calls st) in
      (promise,
       {| signerCache := <[network := promise]> (signerCache st);
          createSigner_calls := createSigner_calls st ++ [network];
          settlementWindow := settlementWindow st |})
  end.

(** The calls of [getSigner] in the order they run, with the promise each
    returns. *)
Fixpoint getSigner_calls (networks : list string) (st : ServerState)
  : list nat * ServerState :=
  match networks with
  | [] => ([], st)
  | network :: rest =>
      let '(promise, st1) := getSigner network st in
      let '(promises, st2) := getSigner_calls rest st1 in
      (promise :: promises, st2)
  end.

(** *** Request orchestrator *)

(** What the settlement event logs, before it is rendered: the amount, the
    parts of the volume summary and the count.  Without a recorded amount the
    event shows no part (the text [volume 0]) and the count 0. *)
Record SettlementLog : Set := {
  log_amount : string;
  log_volume : list (string * string);
  log_count : Z;
}.

(** [logSettlementEvent], on the window it finds and the time [Date.now()]
    gives: the window it leaves, and the event it logs unless it throws. *)
Definition logSettlementEvent (paymentRequirements : PaymentRequirements)
    (transaction : JsValue) (now : Z) (window : list SettlementEntry)
  : list SettlementEntry * completion SettlementLog :=
  let info := resolveAssetInfo paymentRequirements in
  match safeParseAtomic (pr_maxAmountRequired paymentRequirements) with
  | Throw e => (window, Throw e)
  | Normal (Some amount) =>
      let '(window', (totals, count)) :=
        recordSettlement now (asset info) (decimals info) amount window in
      (window',
       let* totalsSummary := formatVolumeSummary totals in
       let* amountUi := formatAtomicAmount amount (decimals info) in
       Normal {| log_amount := amountUi; log_volume := totalsSummary; log_count := count |})
  | Normal None =>
      (window,
       Normal {| log_amount := js_String (pr_maxAmountRequired paymentRequirements);
                 log_volume := [];
                 log_count := 0 |})
  end.

Inductive ResponseBody : Set :=
  | JsonResult (result : JsValue)
  | JsonError (error : JsError).

Record Response : Set := {
  status : Z;
  body : ResponseBody;
}.

(** The external collaborators: the enabled networks, the two schemas, what
    awaiting a signer promise gives, the wallet test and the settle
    capability. *)
Variable allowedNetworks : gset string.
Variable PaymentRequirementsSchema_parse : JsValue -> completion PaymentRequirements.
Variable PaymentPayloadSchema_parse : JsValue -> completion JsValue.
Variable Signer : Type.
Variable await_signer : nat -> completion Signer.
Variable isSvmSignerWallet : Signer -> bool.
Variable settle : Signer -> JsValue -> PaymentRequirements -> completion JsValue.

Definition resolveNetwork (network : string) : completion string :=
  if bool_decide (network ∈ allowedNetworks) then Normal network
  else Throw (HostError ("Network " +:+ network +:+ " is not enabled for this facilitator")).

(** The handler of [POST /settle] after [settle] has resolved: the event is
    logged and the receipt is the response. *)
Definition settle_respond (paymentRequirements : PaymentRequirements) (result : JsValue)
    (now : Z) (st : ServerState) : ServerState * completion Response :=
  let transaction := nullish_coalesce (get_property result "transaction") JNull in
  let '(window', logged) :=
    logSettlementEvent paymentRequirements transaction now (settlementWindow st) in
  ({| signerCache := signerCache st;
      createSigner_calls := createSigner_calls st;
      settlementWindow := window' |},
   let* _ := logged in
   Normal {| status := 200; body := JsonResult result |}).

(** The body of the handler's [try]. *)
Definition settle_try (requirements payload : JsValue) (now : Z) (st : ServerState)
  : ServerState * completion Response :=
  match PaymentRequirementsSchema_parse requirements with
  | Throw e => (st, Throw e)
  | Normal paymentRequirements =>
  match PaymentPayloadSchema_parse payload with
  | Throw e => (st, Throw e)
  | Normal paymentPayload =>
  match resolveNetwork (pr_network paymentRequirements) with
  | Throw e => (st, Throw e)
  | Normal network =>
  let '(promise, st1) := getSigner network st in
  match await_signer promise with
  | Throw e => (st1, Throw e)
  | Normal signer =>
  if negb (isSvmSignerWallet signer)
  then (st1, Throw (HostError "Configured Solana signer does not expose a wallet address"))
  else
  match settle signer paymentPayload paymentRequirements with
  | Throw e => (st1, Throw e)
  | Normal result => settle_respond paymentRequirements result now st1
  end end end end end.

(** [app.post("/settle", ...)]: a throw anywhere in the [try] is answered
    with status 400 and the error. *)
Definition post_settle (requirements payload : JsValue) (now : Z) (st : ServerState)
  : ServerState * Response :=
  let '(st', outcome) := settle_try requirements payload now st in
  match outcome with
  | Normal response => (st', response)
  | Throw e => (st', {| status := 400; body := JsonError e |})
  end.

(** *** Verification and the list of supported kinds *)

(** The verify capability, and the address a wallet signer exposes. *)
Variable verify : Signer -> JsValue -> PaymentRequirements -> completion JsValue.
Variable signer_address : Signer -> string.

(** What the verification event logs, before it is rendered: the amount as
    shown, the parsed amount if there is one, the asset, and the description
    when it is not empty. *)
Record VerificationLog : Set := {
  vlog_amount : string;
  vlog_atomic : option Z;
  vlog_asset : string;
  vlog_detail : option string;
}.

Definition logVerificationEvent (paymentRequirements : PaymentRequirements)
  : completion VerificationLog :=
  let info := resolveAssetInfo paymentRequirements in
  let* amountAtomic := safeParseAtomic (pr_maxAmountRequired paymentRequirements) in
  let* amountUi :=
    match amountAtomic with
    | Some amount => formatAtomicAmount amount (decimals info)
    | None => Normal (js_String (pr_maxAmountRequired paymentRequirements))
    end in
  Normal {| vlog_amount := amountUi;
            vlog_atomic := amountAtomic;
            vlog_asset := asset info;
            vlog_detail :=
              match pr_description paymentRequirements with
              | Some description => if string_truthy description then Some description else None
              | None => None
              end |}.

(** The body of the [try] of [app.post("/verify", ...)]. *)
Definition verify_try (requirements payload : JsValue) (st : ServerState)
  : ServerState * completion Response :=
  match PaymentRequirementsSchema_parse requirements with
  | Throw e => (st, Throw e)
  | Normal paymentRequirements =>
  match PaymentPayloadSchema_parse payload with
  | Throw e => (st, Throw e)
  | Normal paymentPayload =>
  match resolveNetwork (pr_network paymentRequirements) with
  | Throw e => (st, Throw e)
  | Normal network =>
  let '(promise, st1) := getSigner network st in
  match await_signer promise with
  | Throw e => (st1, Throw e)
  | Normal signer =>
  match verify signer paymentPayload paymentRequirements with
  | Throw e => (st1, Throw e)
  | Normal result =>
      (st1,
       let* _ := logVerificationEvent paymentRequirements in
       Normal {| status := 200; body := JsonResult result |})
  end end end end end.

(** [app.post("/verify", ...)] *)
Definition post_verify (requirements payload : JsValue) (st : ServerState)
  : ServerState * Response :=
  let '(st', outcome) := verify_try requirements payload st in
  match outcome with
  | Normal response => (st', response)
  | Throw e => (st', {| status := 400; body := JsonError e |})
  end.

(** A supported payment kind: [{ x402Version, scheme, network, extra }],
    the [extra] being [{ feePayer }] or [undefined]. *)
Record SupportedPaymentKind : Set := {
  x402Version : Z;
  scheme : string;
  kind_network : string;
  extra_feePayer : option string;
}.

Definition kind_of (network : string) (signer : Signer) : SupportedPaymentKind :=
  let feePayer := if isSvmSignerWallet signer then Some (signer_address signer) else None in
  {| x402Version := 1;
     scheme := "exact";
     kind_network := network;
     extra_feePayer :=
       match feePayer with
       | Some address => if string_truthy address then Some address else None
       | None => None
       end |}.

(** The loop of [app.get("/supported", ...)] over the enabled networks, in
    the order the set iterates them. *)
Fixpoint supported_kinds (networks : list string) (st : ServerState)
  : ServerState * completion (list SupportedPaymentKind) :=
  match networks with
  | [] => (st, Normal [])
  | network :: rest =>
      let '(promise, st1) := getSigner network st in
      match await_signer promise with
      | Throw e => (st1, Throw e)
      | Normal signer =>
          let '(st2, kinds) := supported_kinds rest st1 in
          (st2, let* kinds := kinds in Normal (kind_of network signer :: kinds))
      end
  end.

Inductive SupportedBody : Set :=
  | Kinds (kinds : list SupportedPaymentKind)
  | SupportedError (error : JsError).

(** [app.get("/supported", ...)]: the kinds, or status 500 and the error. *)
Definition get_supported (networks : list string) (st : ServerState)
  : ServerState * (Z * SupportedBody) :=
  let '(st', outcome) := supported_kinds networks st in
  match outcome with
  | Normal kinds => (st', (200, Kinds kinds))
  | Throw e => (st', (500, SupportedError e))
  end.

(** The numbers [formatAtomicAmount] takes without throwing: those at most
    zero, and the integers whose power of ten the engine holds. *)
Definition formattable (x : number) : bool :=
  Number_le_zero x ||
  match number_to_Z x with
  | Some exponent => BigInt_pow_fits 10 exponent
  | None => false
  end.

(** *** The handlers of [src/server.ts], which log no events *)

(** [app.post("/verify", ...)] of [src/server.ts]: the result of [verify] is
    the answer. *)
Definition post_verify_unlogged (requirements payload : JsValue) (st : ServerState)
  : ServerState * Response :=
  let '(st', outcome) :=
    match PaymentRequirementsSchema_parse requirements with
    | Throw e => (st, Throw e)
    | Normal paymentRequirements =>
    match PaymentPayloadSchema_parse payload with
    | Throw e => (st, Throw e)
    | Normal paymentPayload =>
    match resolveNetwork (pr_network paymentRequirements) with
    | Throw e => (st, Throw e)
    | Normal network =>
    let '(promise, st1) := getSigner network st in
    match await_signer promise with
    | Throw e => (st1, Throw e)
    | Normal signer =>
    match verify signer paymentPayload paymentRequirements with
    | Throw e => (st1, Throw e)
    | Normal result => (st1, Normal {| status := 200; body := JsonResult result |})
    end end end end end in
  match outcome with
  | Normal response => (st', response)
  | Throw e => (st', {| status := 400; body := JsonError e |})
  end.

(** [app.post("/settle", ...)] of [src/server.ts]. *)
Definition post_settle_unlogged (requirements payload : JsValue) (st : ServerState)
  : ServerState * Response :=
  let '(st', outcome) :=
    match PaymentRequirementsSchema_parse requirements with
    | Throw e => (st, Throw e)
    | Normal paymentRequirements =>
    match PaymentPayloadSchema_parse payload with
    | Throw e => (st, Throw e)
    | Normal paymentPayload =>
    match resolveNetwork (pr_network paymentRequirements) with
    | Throw e => (st, Throw e)
    | Normal network =>
    let '(promise, st1) := getSigner network st in
    match await_signer promise with
    | Throw e => (st1, Throw e)
    | Normal signer =>
    if negb (isSvmSignerWallet signer)
    then (st1, Throw (HostError "Configured Solana signer does not expose a wallet address"))
    else
    match settle signer paymentPayload paymentRequirements with
    | Throw e => (st1, Throw e)
    | Normal result => (st1, Normal {| status := 200; body := JsonResult result |})
    end end end end end in
  match outcome with
  | Normal response => (st', response)
  | Throw e => (st', {| status := 400; body := JsonError e |})
  end.

(** ** What the specification says, in its own words *)

(** The digit of a number below ten. *)
Definition digit_char (n : Z) : ascii := ascii_of_N (Z.to_N (48 + n)).

(** A number written with [width] digits, zeros in front where it has
    fewer: the last digit is its remainder by ten, the ones before are the
    digits of its tenth. *)
Fixpoint zero_padded (width : nat) (n : Z) : string :=
  match width with
  | O => EmptyString
  | S shorter => zero_padded shorter (n / 10) +:+ String (digit_char (n mod 10)) EmptyString
  end.

(** The same with the zeros at the end left out: nothing is left of zero. *)
Fixpoint fraction_digits (width : nat) (n : Z) : string :=
  match width with
  | O => EmptyString
  | S shorter =>
      if n mod 10 =? 0 then fraction_digits shorter (n / 10) else zero_padded width n
  end.

(** The specification's [formatAtomic]: the integer as it is when
    [decimals <= 0]; otherwise the quotient of the magnitude by
    [10^decimals], followed by a point and the remainder padded with zeros
    to [decimals] digits, its trailing zeros stripped, the point and the
    fraction left out when nothing is left of the fraction; a minus sign
    before the whole when the amount is negative. *)
Definition formatAtomic_spec (amount decimals : Z) : string :=
  if decimals <=? 0 then BigInt_toString amount
  else
    let quotient := Z.abs amount / 10 ^ decimals in
    let remainder := Z.abs amount mod 10 ^ decimals in
    let fraction := fraction_digits (Z.to_nat decimals) remainder in
    let magnitude :=
      match fraction with
      | EmptyString => BigInt_toString quotient
      | _ => BigInt_toString quotient +:+ "." +:+ fraction
      end in
    if amount <? 0 then "-" +:+ magnitude else magnitude.

(** The claim on [formatAtomic] as it is stated, for every decimals. *)
Definition formatAtomic_as_stated : Prop :=
  forall amount decimals,
    formatAtomicAmount amount (number_of_Z decimals) =
      Normal (formatAtomic_spec amount decimals).

(** The string [formatAtomicAmount] builds on integer decimals, with the
    padding and the stripping of the code. *)
Definition formatAtomicAmount_result (amount decimals : Z) : string :=
  if decimals <=? 0 then BigInt_toString amount
  else
    let quotient := Z.abs amount / 10 ^ decimals in
    let remainder := Z.abs amount mod 10 ^ decimals in
    let magnitude :=
      if remainder =? 0 then BigInt_toString quotient
      else BigInt_toString quotient +:+ "." +:+
           strip_trailing_zeros (padStart (BigInt_toString remainder) decimals) in
    if amount <? 0 then "-" +:+ magnitude else magnitude.

(** The round trip as the specification states it: the formatted string
    parses, and the parsed integer scaled by [10^decimals] is the amount. *)
Definition roundtrip_as_stated (amount decimals : Z) : Prop :=
  exists text parsed,
    formatAtomicAmount amount (number_of_Z decimals) = Normal text /\
    safeParseAtomic (JString text) = Normal (Some parsed) /\
    parsed * 10 ^ decimals = amount.

(** The specification's precedence of [resolveAsset], read as it is
    written: any address field is stringified, and any non-empty string is
    an address. *)
Definition resolveAsset_as_stated (paymentRequirements : PaymentRequirements) : AssetInfo :=
  let override := as_number (get_property (pr_extra paymentRequirements) "assetDecimals") in
  match pr_asset paymentRequirements with
  | JObject props =>
      match props !! "address" with
      | Some address =>
          {| asset := js_String address;
             decimals :=
               match override with
               | Some d => d
               | None => default DEFAULT_DECIMALS (as_number (default JUndefined (props !! "decimals")))
               end |}
      | None => {| asset := "unknown"; decimals := default DEFAULT_DECIMALS override |}
      end
  | JString (String c rest) =>
      {| asset := String c rest; decimals := default DEFAULT_DECIMALS override |}
  | _ => {| asset := "unknown"; decimals := default DEFAULT_DECIMALS override |}
  end.

(** The sum of the amounts of the entries a test selects. *)
Definition sum_amounts (select : SettlementEntry -> bool) (window : list SettlementEntry) : Z :=
  fold_right (fun entry acc => if select entry then amountAtomic entry + acc else acc) 0 window.

(** The entries of the group of the pair (asset, decimals), for decimals an
    integer. *)
Definition in_group (asset : string) (decimals : Z) (entry : SettlementEntry) : bool :=
  String.eqb (entry_asset entry) asset &&
  bool_decide (plain_integer (entry_decimals entry) = Some decimals).

(** The entries with a given key. *)
Definition has_key (key : string) (entry : SettlementEntry) : bool :=
  String.eqb (totals_key entry) key.

Fixpoint first_with_key (key : string) (window : list SettlementEntry)
  : option SettlementEntry :=
  match window with
  | [] => None
  | entry :: rest => if has_key key entry then Some entry else first_with_key key rest
  end.

(** The group of a key in a window: nothing when no entry has the key;
    otherwise the asset and the decimals of the first entry that has it, and
    the sum of the amounts of all that have it. *)
Definition group_of_key (window : list SettlementEntry) (key : string) : option TotalsEntry :=
  match first_with_key key window with
  | Some first =>
      Some {| total_asset := entry_asset first;
              total_decimals := entry_decimals first;
              total_amountAtomic := sum_amounts (has_key key) window |}
  | None => None
  end.

(** Times that never go back. *)
Fixpoint nondecreasing (times : list Z) : Prop :=
  match times with
  | [] => True
  | t :: rest => Forall (fun later => t <= later) rest /\ nondecreasing rest
  end.

(** The window is in timestamp order. *)
Definition in_timestamp_order (window : list SettlementEntry) : Prop :=
  nondecreasing (map timestamp window).

(** A call of [recordSettlement]: its [now], asset, decimals and amount. *)
Definition call : Set := Z * string * number * Z.

Definition call_now (c : call) : Z := fst (fst (fst c)).

Definition record_call (window : list SettlementEntry) (c : call) : list SettlementEntry :=
  let '(now, asset, decimals, amount) := c in
  fst (recordSettlement now asset decimals amount window).

(** The calls of [recordSettlement] in the order they run: the window they
    leave. *)
Definition record_all (calls : list call) (window : list SettlementEntry)
  : list SettlementEntry :=
  fold_left record_call calls window.

(** Decimal digits, and strings of a kind of character. *)
Definition is_digit (c : ascii) : bool :=
  let n := N_of_ascii c in ((48 <=? n) && (n <=? 57))%N.

Fixpoint string_forall (test : ascii -> bool) (s : string) : bool :=
  match s with
  | EmptyString => true
  | String c rest => test c && string_forall test rest
  end.

(** Truncation toward zero of [(-1)^s * m * 2^e]: the integer of the same
    sign whose magnitude is the largest not above [m * 2^e]. *)
Definition truncation_of (s : bool) (m : positive) (e : Z) (t : Z) : Prop :=
  (if s then t <= 0 else 0 <= t) /\
  (0 <= e -> Z.abs t = Z.pos m * 2 ^ e) /\
  (e < 0 -> Z.abs t * 2 ^ (- e) <= Z.pos m < (Z.abs t + 1) * 2 ^ (- e)).

(** Kinds of characters. *)
Definition not_whitespace (c : ascii) : bool := negb (is_whitespace c).

Definition is_zero_digit (c : ascii) : bool := Ascii.eqb c "0".

Definition is_digit_or_point (c : ascii) : bool := is_digit c || Ascii.eqb c ".".

Definition no_bar (c : ascii) : bool := negb (Ascii.eqb c "|").

(** The cache and the calls of [createSigner] agree: a network is cached
    under the promise of the one call made for it. *)
Definition registry_consistent (st : ServerState) : Prop :=
  NoDup (createSigner_calls st) /\
  forall network promise,
    signerCache st !! network = Some promise <->
    createSigner_calls st !! promise = Some network.

(** The text before the first point of a string, and the text after it
    (nothing when there is no point). *)
Fixpoint before_point (s : string) : string :=
  match s with
  | EmptyString => EmptyString
  | String c rest => if Ascii.eqb c "." then EmptyString else String c (before_point rest)
  end.

Fixpoint after_point (s : string) : string :=
  match s with
  | EmptyString => EmptyString
  | String c rest => if Ascii.eqb c "." then rest else after_point rest
  end.

(** Reading a formatted magnitude back: the digits before the point times
    [10^decimals], and the digits after it scaled to [decimals] places. *)
Definition read_magnitude (decimals : Z) (text : string) : option Z :=
  match parse_decimal_digits (before_point text) with
  | None => None
  | Some whole =>
      match after_point text with
      | EmptyString => Some (whole * 10 ^ decimals)
      | fraction =>
          match parse_decimal_digits fraction with
          | None => None
          | Some f =>
              Some (whole * 10 ^ decimals
                    + f * 10 ^ (decimals - Z.of_nat (String.length fraction)))
          end
      end
  end.

(** Reading a formatted amount back, the sign first. *)
Definition read_formatted (decimals : Z) (text : string) : option Z :=
  if decimals <=? 0 then StringToBigInt text
  else
    match text with
    | String "-" magnitude => option_map Z.opp (read_magnitude decimals magnitude)
    | _ => read_magnitude decimals text
    end.

Definition no_point (c : ascii) : bool := negb (Ascii.eqb c ".").

(** The value of a string of digits, from an accumulator. *)
Fixpoint digits_value (acc : Z) (s : string) : Z :=
  match s with
  | EmptyString => acc
  | String c rest => digits_value (10 * acc + (Z.of_N (N_of_ascii c) - 48)) rest
  end.

(** The sum of the totals of a map. *)
Definition totals_sum (totals : RollingTotals) : Z :=
  fold_right (fun group acc => total_amountAtomic (snd group) + acc) 0 totals.

(** The entries a full scan of the window would keep. *)
Definition fresh (now : Z) (entry : SettlementEntry) : bool :=
  now - MS_IN_DAY <=? timestamp entry.

(** A request that gets as far as the answer of [settle]: the schemas take
    its two parts, its network is enabled, the signer of the network
    resolves to a wallet, and [settle] returns a result. *)
Definition settles (requirements payload : JsValue) (st : ServerState)
    (paymentRequirements : PaymentRequirements) (result : JsValue) : Prop :=
  exists paymentPayload signer,
    PaymentRequirementsSchema_parse requirements = Normal paymentRequirements /\
    PaymentPayloadSchema_parse payload = Normal paymentPayload /\
    pr_network paymentRequirements ∈ allowedNetworks /\
    await_signer (fst (getSigner (pr_network paymentRequirements) st)) = Normal signer /\
    isSvmSignerWallet signer = true /\
    settle signer paymentPayload paymentRequirements = Normal result.

(** The same for [verify], which asks for no wallet. *)
Definition verifies (requirements payload : JsValue) (st : ServerState)
    (paymentRequirements : PaymentRequirements) (result : JsValue) : Prop :=
  exists paymentPayload signer,
    PaymentRequirementsSchema_parse requirements = Normal paymentRequirements /\
    PaymentPayloadSchema_parse payload = Normal paymentPayload /\
    pr_network paymentRequirements ∈ allowedNetworks /\
    await_signer (fst (getSigner (pr_network paymentRequirements) st)) = Normal signer /\
    verify signer paymentPayload paymentRequirements = Normal result.

(** The requests that touch the state of the process, and what serving them
    one after another leaves of it. *)
Inductive Request : Set :=
  | PostVerify (requirements payload : JsValue)
  | PostSettle (requirements payload : JsValue) (now : Z)
  | GetSupported.

Definition handle (networks : list string) (st : ServerState) (request : Request)
  : ServerState :=
  match request with
  | PostVerify requirements payload => fst (post_verify requirements payload st)
  | PostSettle requirements payload now => fst (post_settle requirements payload now st)
  | GetSupported => fst (get_supported networks st)
  end.

Definition serve (networks : list string) (requests : list Request) (st : ServerState)
  : ServerState :=
  fold_left (handle networks) requests st.

(** The entry a call of [recordSettlement] appends. *)
Definition entry_of (c : call) : SettlementEntry :=
  let '(now, asset, decimals, amount) := c in
  {| timestamp := now; entry_asset := asset; entry_decimals := decimals;
     amountAtomic := amount |}.

(** The time of the last call. *)
Definition last_now (calls : list call) : Z :=
  match last calls with
  | Some c => call_now c
  | None => 0
  end.

(** Cache and calls agree, and every call was for an enabled network. *)
Definition registry_enabled (st : ServerState) : Prop :=
  registry_consistent st /\
  forall network, In network (createSigner_calls st) -> network ∈ allowedNetworks.

(** How a kind answers for the signer of its network. *)
Definition kind_for (st : ServerState) (network : string) (kind : SupportedPaymentKind)
  : Prop :=
  exists promise signer,
    signerCache st !! network = Some promise /\
    await_signer promise = Normal signer /\
    kind = kind_of network signer.

(** Characters of the lists of the configuration: all but the comma, and
    the ones that separate entries or pad them. *)
Definition no_comma (c : ascii) : bool := negb (Ascii.eqb c ",").

Definition separator (c : ascii) : bool := is_whitespace c || Ascii.eqb c ",".

(** An entry as the lists of the configuration hold them. *)
Definition clean (entry : string) : Prop :=
  entry <> EmptyString /\ trim entry = entry /\ string_forall no_comma entry = true.

(** The characters of the integer literals, and what a digit is worth:
    0 to 9 for the digits, 10 to 15 for the letters a to f, small or
    capital. *)
Definition is_hex_digit (c : ascii) : bool :=
  let n := N_of_ascii c in
  (((48 <=? n) && (n <=? 57)) || ((65 <=? n) && (n <=? 70)) || ((97 <=? n) && (n <=? 102)))%N.

Definition is_octal_digit (c : ascii) : bool :=
  let n := N_of_ascii c in ((48 <=? n) && (n <=? 55))%N.

Definition is_binary_digit (c : ascii) : bool :=
  let n := N_of_ascii c in ((48 <=? n) && (n <=? 49))%N.

Definition digit_worth (c : ascii) : Z :=
  let n := Z.of_N (N_of_ascii c) in
  if n <=? 57 then n - 48 else if n <=? 70 then n - 55 else n - 87.

(** The number a string of digits writes in a radix: a digit counts for
    its worth times the radix to the power of the number of digits after
    it. *)
Fixpoint written_number (radix : Z) (digits : string) : Z :=
  match digits with
  | EmptyString => 0
  | String c rest =>
      digit_worth c * radix ^ Z.of_nat (String.length rest) + written_number radix rest
  end.

(** One character or more, all of a kind. *)
Definition some_of (kind : ascii -> bool) (s : string) : bool :=
  string_truthy s && string_forall kind s.

(** A well-formed integer string: decimal digits with a sign before them
    or none, or the digits of the radix after [0x], [0o] or [0b], without a
    sign; nothing else (no point, no exponent, no separator, no suffix). *)
Definition is_integer_literal (text : string) : bool :=
  match text with
  | String "0" (String ("x" | "X") digits) => some_of is_hex_digit digits
  | String "0" (String ("o" | "O") digits) => some_of is_octal_digit digits
  | String "0" (String ("b" | "B") digits) => some_of is_binary_digit digits
  | String ("+" | "-") digits => some_of is_digit digits
  | _ => some_of is_digit text
  end%char.

(** The integer it writes. *)
Definition integer_literal_value (text : string) : Z :=
  match text with
  | String "0" (String ("x" | "X") digits) => written_number 16 digits
  | String "0" (String ("o" | "O") digits) => written_number 8 digits
  | String "0" (String ("b" | "B") digits) => written_number 2 digits
  | String "-" digits => - written_number 10 digits
  | String "+" digits => written_number 10 digits
  | _ => written_number 10 text
  end%char.

(** The characters that occur in integer literals. *)
Definition literal_char (c : ascii) : bool :=
  is_hex_digit c ||
  match c with
  | "+" | "-" | "x" | "X" | "o" | "O" => true
  | _ => false
  end%char.

(** ** Strings of digits and the printing of integers *)

Lemma append_empty (s : string) : "" +:+ s = s.
Proof. reflexivity. Qed.

Lemma append_String (c : ascii) (a b : string) : String c a +:+ b = String c (a +:+ b).
Proof. reflexivity. Qed.

Lemma string_forall_app (test : ascii -> bool) (a b : string) :
  string_forall test (a +:+ b) = string_forall test a && string_forall test b.
Proof.
  induction a as [|c a IH]; simpl; [reflexivity|].
  rewrite IH. now rewrite andb_assoc.
Qed.

Lemma string_of_uint_digits (d : uint) :
  string_forall is_digit (NilEmpty.string_of_uint d) = true.
Proof. induction d; simpl; auto. Qed.

Lemma uint_of_string_digits (s : string) (d : uint) :
  NilEmpty.uint_of_string s = Some d -> string_forall is_digit s = true.
Proof.
  intros H. apply NilEmpty.sus in H. subst s. apply string_of_uint_digits.
Qed.

Lemma string_of_uint_nonempty (d : uint) :
  d <> Nil -> NilEmpty.string_of_uint d <> EmptyString.
Proof. destruct d; simpl; congruence. Qed.

(** A non-negative integer prints as the digits of a decimal numeral of its
    value. *)
Lemma BigInt_toString_nonneg (z : Z) :
  0 <= z ->
  exists u, u <> Nil /\ BigInt_toString z = NilEmpty.string_of_uint u /\ Z.of_uint u = z.
Proof.
  intros Hz. destruct z as [|p|p]; [| |lia].
  - exists (D0 Nil). repeat split; congruence.
  - exists (Pos.to_uint p). pose proof (DecimalPos.Unsigned.to_uint_nonnil p) as Hnil.
    repeat split; [assumption| |].
    + unfold BigInt_toString. simpl. destruct (Pos.to_uint p); try reflexivity; congruence.
    + unfold Z.of_uint. now rewrite DecimalPos.Unsigned.of_to.
Qed.

Lemma BigInt_toString_neg (z : Z) :
  z < 0 -> BigInt_toString z = String "-" (BigInt_toString (- z)).
Proof. intros Hz. destruct z as [|p|p]; [lia|lia|reflexivity]. Qed.

Lemma BigInt_toString_digits (z : Z) :
  0 <= z -> string_forall is_digit (BigInt_toString z) = true.
Proof.
  intros Hz. destruct (BigInt_toString_nonneg z Hz) as (u & _ & -> & _).
  apply string_of_uint_digits.
Qed.

Lemma BigInt_toString_nonempty (z : Z) : BigInt_toString z <> EmptyString.
Proof.
  destruct (Z_lt_le_dec z 0) as [Hz|Hz].
  - rewrite (BigInt_toString_neg z Hz). discriminate.
  - destruct (BigInt_toString_nonneg z Hz) as (u & Hu & -> & _).
    now apply string_of_uint_nonempty.
Qed.

(** ** Trimming *)

Lemma trimStart_no_whitespace (s : string) :
  string_forall not_whitespace s = true -> trimStart s = s.
Proof.
  destruct s as [|c s]; simpl; [reflexivity|].
  unfold not_whitespace. intros [Hc _]%andb_true_iff.
  now destruct (is_whitespace c).
Qed.

Lemma trimEnd_no_whitespace (s : string) :
  string_forall not_whitespace s = true -> trimEnd s = s.
Proof.
  induction s as [|c s IH]; simpl; [reflexivity|].
  unfold not_whitespace at 1. intros [Hc Hs]%andb_true_iff.
  rewrite (IH Hs). destruct s; [|reflexivity].
  now destruct (is_whitespace c).
Qed.

Lemma trim_no_whitespace (s : string) :
  string_forall not_whitespace s = true -> trim s = s.
Proof.
  intros H. unfold trim. rewrite (trimStart_no_whitespace s H).
  now apply trimEnd_no_whitespace.
Qed.

Lemma string_forall_impl (p q : ascii -> bool) (s : string) :
  (forall c, p c = true -> q c = true) ->
  string_forall p s = true -> string_forall q s = true.
Proof.
  intros Hpq. induction s as [|c s IH]; simpl; [reflexivity|].
  intros [Hc Hs]%andb_true_iff. rewrite (Hpq c Hc). now apply IH.
Qed.

Lemma is_digit_not_whitespace (c : ascii) : is_digit c = true -> not_whitespace c = true.
Proof.
  destruct c as [[] [] [] [] [] [] [] []]; vm_compute; congruence.
Qed.

Lemma trimStart_whitespace (ws s : string) :
  string_forall is_whitespace ws = true -> trimStart (ws +:+ s) = trimStart s.
Proof.
  induction ws as [|c ws IH]; simpl; [reflexivity|].
  intros [Hc Hws]%andb_true_iff. rewrite Hc. now apply IH.
Qed.

Lemma trimEnd_whitespace_only (ws : string) :
  string_forall is_whitespace ws = true -> trimEnd ws = EmptyString.
Proof.
  induction ws as [|c ws IH]; simpl; [reflexivity|].
  intros [Hc Hws]%andb_true_iff. now rewrite (IH Hws), Hc.
Qed.

Lemma trimEnd_whitespace (s ws : string) :
  string_forall is_whitespace ws = true -> trimEnd (s +:+ ws) = trimEnd s.
Proof.
  intros Hws. induction s as [|c s IH]; simpl.
  - now apply trimEnd_whitespace_only.
  - now rewrite IH.
Qed.

Lemma trimStart_whitespace_only (ws : string) :
  string_forall is_whitespace ws = true -> trimStart ws = EmptyString.
Proof.
  induction ws as [|c ws IH]; simpl; [reflexivity|].
  intros [Hc Hws]%andb_true_iff. rewrite Hc. now apply IH.
Qed.

(** White space on both sides of a text without any is what [trim] drops. *)
Lemma trim_surrounded (before text after : string) :
  string_forall is_whitespace before = true ->
  string_forall is_whitespace after = true ->
  string_forall not_whitespace text = true ->
  trim (before +:+ text +:+ after) = text.
Proof.
  intros Hb Ha Ht. unfold trim.
  rewrite (trimStart_whitespace before _ Hb).
  destruct text as [|c text].
  - rewrite append_empty. now rewrite (trimStart_whitespace_only after Ha).
  - assert (Hstart : trimStart (String c text +:+ after) = String c text +:+ after).
    { rewrite append_String. simpl in Ht |- *. apply andb_true_iff in Ht as [Hc _].
      unfold not_whitespace in Hc. now destruct (is_whitespace c). }
    rewrite Hstart, (trimEnd_whitespace _ after Ha).
    now apply trimEnd_no_whitespace.
Qed.

Lemma trimStart_decompose (s : string) :
  exists ws, string_forall is_whitespace ws = true /\ s = ws +:+ trimStart s.
Proof.
  induction s as [|c s (ws & Hws & Hs)]; simpl; [now exists EmptyString|].
  destruct (is_whitespace c) eqn:Hc.
  - exists (String c ws). simpl. rewrite Hc, Hws. split; [reflexivity|].
    rewrite append_String. now f_equal.
  - now exists EmptyString.
Qed.

Lemma trimEnd_decompose (s : string) :
  exists ws, string_forall is_whitespace ws = true /\ s = trimEnd s +:+ ws.
Proof.
  induction s as [|c s (ws & Hws & Hs)]; simpl; [now exists EmptyString|].
  destruct (trimEnd s) as [|c' rest] eqn:Hend.
  - rewrite append_empty in Hs. subst ws.
    destruct (is_whitespace c) eqn:Hc.
    + exists (String c s). simpl. now rewrite Hc, Hws.
    + exists s. split; [exact Hws|reflexivity].
  - exists ws. split; [exact Hws|]. rewrite append_String. now f_equal.
Qed.

(** ** Integer literals *)

Lemma parse_decimal_digits_of_uint (u : uint) :
  u <> Nil -> parse_decimal_digits (NilEmpty.string_of_uint u) = Some (Z.of_uint u).
Proof.
  intros Hu. unfold parse_decimal_digits.
  pose proof (string_of_uint_nonempty u Hu) as Hne.
  destruct (NilEmpty.string_of_uint u) eqn:E; [congruence|].
  rewrite <- E, NilEmpty.usu. reflexivity.
Qed.

(** A literal that starts with a digit and has only digits is a decimal
    one: no sign and no radix prefix. *)
Lemma StrIntegerLiteral_digits (s : string) :
  string_forall is_digit s = true -> StrIntegerLiteral s = parse_decimal_digits s.
Proof.
  destruct s as [|c s]; [reflexivity|].
  simpl. intros [Hc Hs]%andb_true_iff.
  destruct c as [[] [] [] [] [] [] [] []]; try discriminate Hc; try reflexivity.
  destruct s as [|c2 s]; [reflexivity|].
  simpl in Hs. apply andb_true_iff in Hs as [Hc2 _].
  destruct c2 as [[] [] [] [] [] [] [] []]; try discriminate Hc2; reflexivity.
Qed.

Lemma StringToBigInt_digits (s : string) :
  string_forall is_digit s = true -> s <> EmptyString ->
  StringToBigInt s = parse_decimal_digits s.
Proof.
  intros Hs Hne. unfold StringToBigInt.
  rewrite trim_no_whitespace
    by (eapply string_forall_impl; [apply is_digit_not_whitespace|exact Hs]).
  destruct s; [congruence|]. now apply StrIntegerLiteral_digits.
Qed.

(** Parsing what [toString] prints gives the integer back. *)
Lemma StringToBigInt_toString (z : Z) : StringToBigInt (BigInt_toString z) = Some z.
Proof.
  destruct (Z_lt_le_dec z 0) as [Hz|Hz].
  - rewrite (BigInt_toString_neg z Hz).
    destruct (BigInt_toString_nonneg (- z)) as (u & Hu & E & Hv); [lia|].
    rewrite E. unfold StringToBigInt.
    assert (Hd : string_forall is_digit (NilEmpty.string_of_uint u) = true)
      by apply string_of_uint_digits.
    rewrite trim_no_whitespace.
    + simpl. rewrite (parse_decimal_digits_of_uint u Hu). simpl. f_equal. lia.
    + simpl. eapply string_forall_impl; [apply is_digit_not_whitespace|exact Hd].
  - destruct (BigInt_toString_nonneg z Hz) as (u & Hu & E & Hv).
    rewrite E, StringToBigInt_digits.
    + rewrite (parse_decimal_digits_of_uint u Hu). now f_equal.
    + apply string_of_uint_digits.
    + now apply string_of_uint_nonempty.
Qed.

(** ** [safeParseAtomic] *)

Lemma try_catch_null_returns (body : completion (option Z)) :
  returns (try_catch body (fun _error => Normal None)).
Proof. destruct body as [a|e]; simpl; eexists; reflexivity. Qed.

(** No input makes [safeParseAtomic] throw. *)
Lemma safeParseAtomic_returns (raw : JsValue) : returns (safeParseAtomic raw).
Proof.
  unfold safeParseAtomic. destruct (nullish raw).
  - now exists None.
  - apply try_catch_null_returns.
Qed.

(** On a string: the trimmed text decides, empty or not, literal or not. *)
Lemma safeParseAtomic_string (s : string) :
  safeParseAtomic (JString s) =
    Normal (if string_truthy (trim s) then StringToBigInt (trim s) else None).
Proof.
  unfold safeParseAtomic. simpl.
  destruct (trim s) eqn:E; simpl; [reflexivity|].
  unfold BigInt_of_string. now destruct (StringToBigInt (String a s0)).
Qed.

Lemma Math_trunc_truncates (s : bool) (m : positive) (e : Z) :
  exists t, BigInt_of_number (Math_trunc (S754_finite s m e)) = Normal t /\
            truncation_of s m e t.
Proof.
  unfold BigInt_of_number, Math_trunc, truncation_of.
  destruct (0 <=? e) eqn:He.
  - apply Z.leb_le in He. exists (signed s (Z.pos m * 2 ^ e)).
    simpl. rewrite (proj2 (Z.leb_le 0 e) He).
    assert (0 < Z.pos m * 2 ^ e) by (apply Z.mul_pos_pos; [lia|now apply Z.pow_pos_nonneg]).
    split; [reflexivity|]. unfold signed. destruct s; repeat split; intros; lia.
  - apply Z.leb_gt in He.
    assert (Hk : 0 < 2 ^ (- e)) by (apply Z.pow_pos_nonneg; lia).
    pose proof (Z.mul_div_le (Z.pos m) (2 ^ (- e)) Hk) as Hlo.
    pose proof (Z.mul_succ_div_gt (Z.pos m) (2 ^ (- e)) Hk) as Hhi.
    assert (Hq : 0 <= Z.pos m / 2 ^ (- e)) by (apply Z.div_pos; lia).
    exists (signed s (Z.pos m / 2 ^ (- e))).
    split.
    + destruct (Z.pos m / 2 ^ (- e)) as [|q|q] eqn:Eq; [| |lia].
      * simpl. now destruct s.
      * simpl. f_equal. f_equal. lia.
    + unfold signed. destruct s; repeat split; intros; try lia.
      all: replace (Z.abs _) with (Z.pos m / 2 ^ (- e)) by lia; lia.
Qed.

Lemma trimEnd_idempotent (s : string) : trimEnd (trimEnd s) = trimEnd s.
Proof.
  induction s as [|c s IH]; simpl; [reflexivity|].
  destruct (trimEnd s) as [|c' s'] eqn:E.
  - destruct (is_whitespace c) eqn:Hc; simpl; [reflexivity|]. now rewrite Hc.
  - cbn [trimEnd]. fold trimEnd. cbn [trimEnd] in IH. fold trimEnd in IH. now rewrite IH.
Qed.

Lemma trimStart_trimEnd (s : string) :
  trimStart s = s -> trimStart (trimEnd s) = trimEnd s.
Proof.
  destruct s as [|c s]; simpl; [reflexivity|].
  destruct (is_whitespace c) eqn:Hc.
  - intros H. exfalso.
    assert (Hlen : (String.length (trimStart s) <= String.length s)%nat).
    { clear. induction s as [|a s IH]; simpl; [lia|].
      destruct (is_whitespace a); simpl; lia. }
    rewrite H in Hlen. simpl in Hlen. lia.
  - intros _. destruct (trimEnd s); simpl; now rewrite Hc.
Qed.

Lemma trimStart_idempotent (s : string) : trimStart (trimStart s) = trimStart s.
Proof.
  induction s as [|c s IH]; simpl; [reflexivity|].
  destruct (is_whitespace c) eqn:Hc; [exact IH|]. simpl. now rewrite Hc.
Qed.

(** Trimming a trimmed text changes nothing. *)
Lemma trim_idempotent (s : string) : trim (trim s) = trim s.
Proof.
  unfold trim.
  rewrite (trimStart_trimEnd (trimStart s) (trimStart_idempotent s)).
  apply trimEnd_idempotent.
Qed.

Lemma BigInt_toString_no_whitespace (z : Z) :
  string_forall not_whitespace (BigInt_toString z) = true.
Proof.
  destruct (Z_lt_le_dec z 0) as [Hz|Hz].
  - rewrite (BigInt_toString_neg z Hz). simpl.
    eapply string_forall_impl; [apply is_digit_not_whitespace|].
    apply BigInt_toString_digits. lia.
  - eapply string_forall_impl; [apply is_digit_not_whitespace|].
    now apply BigInt_toString_digits.
Qed.

(** What [toString] prints parses to the integer it was printed from. *)
Lemma safeParseAtomic_toString (z : Z) :
  safeParseAtomic (JString (BigInt_toString z)) = Normal (Some z).
Proof.
  rewrite safeParseAtomic_string.
  rewrite (trim_no_whitespace _ (BigInt_toString_no_whitespace z)).
  rewrite StringToBigInt_toString.
  pose proof (BigInt_toString_nonempty z). now destruct (BigInt_toString z).
Qed.

(** C9.  [safeParseAtomic] answers null on [null], on [undefined] and on a
    string of white space only; a string is trimmed before it is tested for
    emptiness and before it is converted, so white space around an integer
    does not matter; and no input makes it throw. *)
Theorem safeParseAtomic_never_throws :
  safeParseAtomic JNull = Normal None /\
  safeParseAtomic JUndefined = Normal None /\
  (forall ws, string_forall is_whitespace ws = true ->
     safeParseAtomic (JString ws) = Normal None) /\
  safeParseAtomic (JString " 123 ") = Normal (Some 123) /\
  (forall before after z,
     string_forall is_whitespace before = true ->
     string_forall is_whitespace after = true ->
     safeParseAtomic (JString (before +:+ BigInt_toString z +:+ after)) = Normal (Some z)) /\
  (forall s, safeParseAtomic (JString s) = safeParseAtomic (JString (trim s))) /\
  (forall raw, returns (safeParseAtomic raw)).
Proof.
  split; [reflexivity|]. split; [reflexivity|].
  split.
  { intros ws Hws. rewrite safeParseAtomic_string. unfold trim.
    now rewrite (trimStart_whitespace_only ws Hws). }
  split; [reflexivity|].
  split.
  { intros before after z Hb Ha. rewrite safeParseAtomic_string.
    pose proof (BigInt_toString_no_whitespace z) as Hw.
    rewrite (trim_surrounded before _ after Hb Ha Hw), StringToBigInt_toString.
    pose proof (BigInt_toString_nonempty z). now destruct (BigInt_toString z). }
  split.
  { intros s. now rewrite !safeParseAtomic_string, trim_idempotent. }
  apply safeParseAtomic_returns.
Qed.

(** ** [formatAtomicAmount] *)

Lemma number_to_Z_of_Z (z : Z) : number_to_Z (number_of_Z z) = Some z.
Proof.
  destruct z as [|p|p]; simpl; [reflexivity| |]; f_equal; unfold signed; lia.
Qed.

(** A number that is an integer is at most zero when the integer is. *)
Lemma Number_le_zero_integer (x : number) (z : Z) :
  number_to_Z x = Some z -> Number_le_zero x = (z <=? 0).
Proof.
  destruct x as [s|s| |s m e]; simpl; try discriminate.
  - now intros [= <-].
  - destruct (0 <=? e) eqn:He.
    + apply Z.leb_le in He. intros [= <-].
      assert (0 < Z.pos m * 2 ^ e) by (apply Z.mul_pos_pos; [lia|now apply Z.pow_pos_nonneg]).
      unfold signed. destruct s; symmetry; [apply Z.leb_le|apply Z.leb_gt]; lia.
    + apply Z.leb_gt in He.
      destruct (Z.pos m mod 2 ^ (- e) =? 0) eqn:Hm; [|discriminate].
      apply Z.eqb_eq in Hm. intros [= <-].
      assert (Hk : 0 < 2 ^ (- e)) by (apply Z.pow_pos_nonneg; lia).
      assert (0 < Z.pos m / 2 ^ (- e)).
      { pose proof (Z.div_mod (Z.pos m) (2 ^ (- e))) as Hdm.
        assert (0 <= Z.pos m / 2 ^ (- e)) by (apply Z.div_pos; lia). nia. }
      unfold signed. destruct s; symmetry; [apply Z.leb_le|apply Z.leb_gt]; lia.
Qed.

Lemma strip_trailing_zeros_empty (s : string) :
  strip_trailing_zeros s = EmptyString <-> string_forall is_zero_digit s = true.
Proof.
  induction s as [|c s IH]; simpl; [tauto|].
  unfold is_zero_digit at 1.
  destruct (strip_trailing_zeros s) eqn:E.
  - destruct (Ascii.eqb c "0"); simpl; [|split; discriminate].
    split; intros _; [now apply IH|reflexivity].
  - split; [discriminate|]. intros [_ Hs]%andb_true_iff.
    apply IH in Hs. discriminate.
Qed.

Lemma repeat_char_forall (test : ascii -> bool) (c : ascii) (n : nat) :
  test c = true -> string_forall test (repeat_char c n) = true.
Proof. intros Hc. induction n as [|n IH]; simpl; [reflexivity|]. now rewrite Hc. Qed.

Lemma zero_digits_value (u : uint) :
  string_forall is_zero_digit (NilEmpty.string_of_uint u) = true -> Z.of_uint u = 0.
Proof.
  unfold Z.of_uint. induction u; simpl; try discriminate; auto.
Qed.

(** The padded remainder strips to nothing exactly when the remainder is
    zero. *)
Lemma padded_fraction_empty (remainder decimals : Z) :
  0 <= remainder ->
  strip_trailing_zeros (padStart (BigInt_toString remainder) decimals) = EmptyString
  <-> remainder = 0.
Proof.
  intros Hr. rewrite strip_trailing_zeros_empty. unfold padStart.
  rewrite string_forall_app, repeat_char_forall by reflexivity. simpl.
  split.
  - destruct (BigInt_toString_nonneg remainder Hr) as (u & _ & -> & Hv).
    intros H. apply zero_digits_value in H. lia.
  - now intros ->.
Qed.

(** On decimals that are an integer, whatever its mantissa and exponent,
    [formatAtomicAmount] returns the string of its own padding and stripping,
    where the engine holds the power of ten. *)
Lemma formatAtomicAmount_integer (amount : Z) (x : number) (d : Z) :
  number_to_Z x = Some d ->
  (0 < d -> BigInt_pow_fits 10 d = true) ->
  formatAtomicAmount amount x = Normal (formatAtomicAmount_result amount d).
Proof.
  intros Hx Hfits. unfold formatAtomicAmount, formatAtomicAmount_result.
  rewrite (Number_le_zero_integer x d Hx).
  destruct (d <=? 0) eqn:Hd; [reflexivity|].
  apply Z.leb_gt in Hd.
  unfold BigInt_of_number, BigInt_pow. rewrite Hx. cbn [bind].
  rewrite (proj2 (Z.ltb_ge d 0)), (Hfits Hd) by lia. cbn [bind].
  assert (Hp : 0 < 10 ^ d) by (apply Z.pow_pos_nonneg; lia).
  assert (Habs : (if amount <? 0 then - amount else amount) = Z.abs amount).
  { destruct (amount <? 0) eqn:Ha; [apply Z.ltb_lt in Ha|apply Z.ltb_ge in Ha]; lia. }
  rewrite Habs.
  rewrite Z.quot_div_nonneg, Z.rem_mod_nonneg by lia.
  assert (Hr : 0 <= Z.abs amount mod 10 ^ d) by (apply Z.mod_pos_bound; lia).
  pose proof (padded_fraction_empty (Z.abs amount mod 10 ^ d) d Hr) as Hempty.
  destruct (Z.abs amount mod 10 ^ d =? 0) eqn:Hz.
  - apply Z.eqb_eq in Hz. rewrite (proj2 Hempty Hz). reflexivity.
  - apply Z.eqb_neq in Hz.
    destruct (strip_trailing_zeros _) eqn:E; [|reflexivity].
    exfalso. apply Hz. now apply Hempty.
Qed.

(** Decimals above zero that are no integer make it throw. *)
Lemma formatAtomicAmount_not_integer (amount : Z) (x : number) :
  Number_le_zero x = false -> number_to_Z x = None ->
  formatAtomicAmount amount x = Throw RangeError.
Proof.
  intros Hle Hx. unfold formatAtomicAmount, BigInt_of_number. now rewrite Hle, Hx.
Qed.

(** An integer above zero whose power of ten the engine does not hold makes
    it throw too. *)
Lemma formatAtomicAmount_beyond (amount : Z) (x : number) (d : Z) :
  number_to_Z x = Some d -> 0 < d -> BigInt_pow_fits 10 d = false ->
  formatAtomicAmount amount x = Throw RangeError.
Proof.
  intros Hx Hd Hfits. unfold formatAtomicAmount.
  rewrite (Number_le_zero_integer x d Hx), (proj2 (Z.leb_gt d 0) Hd).
  unfold BigInt_of_number, BigInt_pow. rewrite Hx. cbn [bind].
  now rewrite (proj2 (Z.ltb_ge d 0)), Hfits by lia.
Qed.

(** ** Formatting, then parsing *)

Lemma strip_trailing_zeros_forall (test : ascii -> bool) (s : string) :
  string_forall test s = true -> string_forall test (strip_trailing_zeros s) = true.
Proof.
  induction s as [|c s IH]; simpl; [reflexivity|].
  intros [Hc Hs]%andb_true_iff. specialize (IH Hs).
  destruct (strip_trailing_zeros s).
  - destruct (Ascii.eqb c "0"); simpl; [reflexivity|]. now rewrite Hc.
  - cbn [string_forall] in IH |- *. now rewrite Hc, IH.
Qed.

Lemma padStart_digits (z d : Z) :
  0 <= z -> string_forall is_digit (padStart (BigInt_toString z) d) = true.
Proof.
  intros Hz. unfold padStart.
  rewrite string_forall_app, repeat_char_forall by reflexivity.
  now apply BigInt_toString_digits.
Qed.

(** A literal whose first character is a digit, and whose second is no
    radix mark, is read as a decimal one. *)
Lemma StrIntegerLiteral_decimal (c c2 : ascii) (s : string) :
  is_digit c = true -> is_digit_or_point c2 = true ->
  StrIntegerLiteral (String c (String c2 s)) = parse_decimal_digits (String c (String c2 s)).
Proof.
  intros Hc Hc2.
  destruct c as [[] [] [] [] [] [] [] []]; try discriminate Hc; try reflexivity.
  destruct c2 as [[] [] [] [] [] [] [] []]; try discriminate Hc2; reflexivity.
Qed.

Lemma parse_decimal_digits_point (whole fraction : string) :
  parse_decimal_digits (whole +:+ "." +:+ fraction) = None.
Proof.
  unfold parse_decimal_digits.
  destruct (whole +:+ "." +:+ fraction) eqn:E; [reflexivity|]. rewrite <- E.
  destruct (NilEmpty.uint_of_string (whole +:+ "." +:+ fraction)) eqn:Hu; [|reflexivity].
  apply uint_of_string_digits in Hu.
  rewrite string_forall_app, append_String in Hu. simpl in Hu.
  rewrite andb_false_r in Hu. discriminate.
Qed.

(** A formatted amount with a fraction is no integer literal. *)
Lemma safeParseAtomic_fraction (whole : Z) (fraction : string) :
  0 <= whole -> string_forall is_digit fraction = true ->
  safeParseAtomic (JString (BigInt_toString whole +:+ "." +:+ fraction)) = Normal None.
Proof.
  intros Hw Hf. rewrite safeParseAtomic_string.
  pose proof (BigInt_toString_digits whole Hw) as Hd.
  pose proof (BigInt_toString_nonempty whole) as Hne.
  set (text := BigInt_toString whole +:+ "." +:+ fraction).
  assert (Hpoint : string_forall is_digit_or_point text = true).
  { unfold text. rewrite string_forall_app, append_String. simpl.
    rewrite (string_forall_impl is_digit is_digit_or_point _ ltac:(intros c Hc; unfold is_digit_or_point; now rewrite Hc) Hd).
    rewrite append_empty.
    now rewrite (string_forall_impl is_digit is_digit_or_point _ ltac:(intros c Hc; unfold is_digit_or_point; now rewrite Hc) Hf). }
  assert (Htrim : trim text = text).
  { apply trim_no_whitespace. eapply string_forall_impl; [|exact Hpoint].
    intros c. destruct c as [[] [] [] [] [] [] [] []]; vm_compute; congruence. }
  rewrite Htrim.
  assert (Hlit : StringToBigInt text = None).
  { unfold StringToBigInt. rewrite Htrim.
    assert (Hparse : parse_decimal_digits text = None) by apply parse_decimal_digits_point.
    unfold text in *. destruct (BigInt_toString whole) as [|c w]; [congruence|].
    simpl in Hd. apply andb_true_iff in Hd as [Hc Hd].
    rewrite append_String in *.
    destruct w as [|c2 w].
    - rewrite append_empty, append_String in *.
      rewrite StrIntegerLiteral_decimal; [exact Hparse|exact Hc|reflexivity].
    - rewrite append_String in *. simpl in Hd. apply andb_true_iff in Hd as [Hc2 _].
      rewrite StrIntegerLiteral_decimal; [exact Hparse|exact Hc|].
      unfold is_digit_or_point. now rewrite Hc2. }
  rewrite Hlit. now destruct (string_truthy text).
Qed.

(** C2, as the code has it.  For a non-negative amount and non-negative
    integer decimals whose power of ten the engine holds, [safeParseAtomic]
    reads the formatted string back as the quotient of the amount by
    [10^decimals] when the amount is a multiple of [10^decimals], and scaling
    that quotient by [10^decimals] gives the amount; when the amount is no
    such multiple the formatted string is the quotient, a point and a
    fraction of one digit or more, and [safeParseAtomic] answers null. *)
Theorem format_then_parse (amount d : Z) :
  0 <= amount -> 0 <= d -> (0 < d -> BigInt_pow_fits 10 d = true) ->
  exists text,
    formatAtomicAmount amount (number_of_Z d) = Normal text /\
    safeParseAtomic (JString text) =
      Normal (if amount mod 10 ^ d =? 0 then Some (amount / 10 ^ d) else None) /\
    (amount mod 10 ^ d = 0 -> amount / 10 ^ d * 10 ^ d = amount) /\
    (amount mod 10 ^ d <> 0 ->
     exists fraction,
       text = BigInt_toString (amount / 10 ^ d) +:+ "." +:+ fraction /\
       fraction <> EmptyString /\
       string_forall is_digit fraction = true).
Proof.
  intros Ha Hd Hfits. exists (formatAtomicAmount_result amount d).
  split; [apply formatAtomicAmount_integer; [apply number_to_Z_of_Z|exact Hfits]|].
  assert (Hp : 0 < 10 ^ d) by (apply Z.pow_pos_nonneg; lia).
  assert (Hr : 0 <= amount mod 10 ^ d) by (apply Z.mod_pos_bound; lia).
  split; [|split].
  - unfold formatAtomicAmount_result.
    destruct (d <=? 0) eqn:Hd0.
    + apply Z.leb_le in Hd0. assert (d = 0) as -> by lia.
      change (10 ^ 0) with 1. rewrite Z.mod_1_r, Z.div_1_r. simpl.
      apply safeParseAtomic_toString.
    + rewrite (proj2 (Z.ltb_ge amount 0) Ha), (Z.abs_eq amount Ha).
      destruct (amount mod 10 ^ d =? 0).
      * apply safeParseAtomic_toString.
      * apply safeParseAtomic_fraction.
        -- apply Z.div_pos; lia.
        -- apply strip_trailing_zeros_forall, padStart_digits, Z.mod_pos_bound. lia.
  - intros Hm. pose proof (Z.div_mod amount (10 ^ d)). lia.
  - intros Hm.
    assert (Hpos : 0 < d).
    { destruct (Z.eq_dec d 0) as [->|]; [|lia].
      exfalso. apply Hm. change (10 ^ 0) with 1. apply Z.mod_1_r. }
    exists (strip_trailing_zeros (padStart (BigInt_toString (amount mod 10 ^ d)) d)).
    split; [|split].
    + unfold formatAtomicAmount_result.
      rewrite (proj2 (Z.leb_gt d 0) Hpos), (proj2 (Z.ltb_ge amount 0) Ha), (Z.abs_eq amount Ha).
      now rewrite (proj2 (Z.eqb_neq _ _) Hm).
    + intros Hempty. apply Hm. now apply (padded_fraction_empty _ d Hr).
    + now apply strip_trailing_zeros_forall, padStart_digits.
Qed.

(** ** [resolveAssetInfo] *)

Lemma length_zero_empty (s : string) : (String.length s =? 0)%nat = true <-> s = EmptyString.
Proof. destruct s; simpl; split; congruence. Qed.

(** The override, when it is a number, is the decimals in every branch. *)
Lemma resolveAssetInfo_override (paymentRequirements : PaymentRequirements) (d : number) :
  as_number (get_property (pr_extra paymentRequirements) "assetDecimals") = Some d ->
  decimals (resolveAssetInfo paymentRequirements) = d.
Proof.
  intros Hd. unfold resolveAssetInfo. rewrite Hd.
  destruct (truthy_object _ && has_property _ _); [reflexivity|].
  destruct (pr_asset paymentRequirements); try reflexivity.
  now destruct (String.length (trim s) =? 0)%nat.
Qed.

(** C5, as the code has it.  [resolveAssetInfo] follows this precedence.  If
    the asset is an object with an address field, the address is that field
    stringified, or the word unknown when the field is null or undefined, and
    the decimals are the [extra.assetDecimals] override when it is a number,
    else the object's own decimals field when it is a number, else 6.  Else
    if the asset is a string with something other than white space in it, the
    address is that string and the decimals are the override, else 6.  Else
    the address is the word unknown and the decimals are the override, else 6.
    The override wins in every branch: with an asset of address A and
    decimals 2 and an override of 9 the decimals are 9. *)
Theorem resolveAssetInfo_precedence (paymentRequirements : PaymentRequirements) :
  let override := as_number (get_property (pr_extra paymentRequirements) "assetDecimals") in
  (forall props address,
     pr_asset paymentRequirements = JObject props -> props !! "address" = Some address ->
     resolveAssetInfo paymentRequirements =
       {| asset := if nullish address then "unknown" else js_String address;
          decimals :=
            match override with
            | Some d => d
            | None =>
                match as_number (default JUndefined (props !! "decimals")) with
                | Some d => d
                | None => DEFAULT_DECIMALS
                end
            end |}) /\
  (forall s,
     pr_asset paymentRequirements = JString s -> trim s <> EmptyString ->
     resolveAssetInfo paymentRequirements =
       {| asset := s; decimals := default DEFAULT_DECIMALS override |}) /\
  ((forall props, pr_asset paymentRequirements = JObject props -> props !! "address" = None) ->
   (forall s, pr_asset paymentRequirements = JString s -> trim s = EmptyString) ->
   resolveAssetInfo paymentRequirements =
     {| asset := "unknown"; decimals := default DEFAULT_DECIMALS override |}) /\
  (forall d, override = Some d -> decimals (resolveAssetInfo paymentRequirements) = d) /\
  number_to_Z DEFAULT_DECIMALS = Some 6 /\
  resolveAssetInfo
    {| pr_network := "solana";
       pr_asset := JObject (<["address" := JString "A"]> {["decimals" := JNumber (number_of_Z 2)]});
       pr_maxAmountRequired := JString "1";
       pr_resource := None;
       pr_description := None;
       pr_extra := JObject {["assetDecimals" := JNumber (number_of_Z 9)]} |}
  = {| asset := "A"; decimals := number_of_Z 9 |}.
Proof.
  intros override. unfold resolveAssetInfo. fold override.
  split.
  { intros props address Hasset Haddress. rewrite Hasset. simpl.
    rewrite Haddress. simpl.
    unfold nullish_coalesce. now destruct (nullish address). }
  split.
  { intros s Hasset Htrim. rewrite Hasset. simpl.
    destruct (String.length (trim s) =? 0)%nat eqn:E; [|reflexivity].
    now apply length_zero_empty in E. }
  split.
  { intros Hobject Hstring.
    destruct (pr_asset paymentRequirements) as [| | | | |s|items|props] eqn:Hasset;
      try reflexivity.
    - simpl. now rewrite (proj2 (length_zero_empty (trim s)) (Hstring s eq_refl)).
    - simpl. rewrite (Hobject props eq_refl).
      rewrite bool_decide_eq_false_2; [reflexivity|].
      intros [x Hx]. discriminate. }
  split.
  { intros d Hd. now apply resolveAssetInfo_override. }
  split; [reflexivity|].
  vm_compute. reflexivity.
Qed.

(** ** The settlement window *)

(** Pruning removes a prefix, every entry of it older than the cutoff, and
    stops at an entry that is not. *)
Lemma prune_prefix (cutoff : Z) (window : list SettlementEntry) :
  exists removed,
    window = removed ++ prune cutoff window /\
    Forall (fun entry => timestamp entry < cutoff) removed /\
    match prune cutoff window with
    | [] => True
    | first :: _ => cutoff <= timestamp first
    end.
Proof.
  induction window as [|entry rest (removed & Heq & Hold & Hfirst)]; simpl.
  - exists []. repeat split. constructor.
  - destruct (timestamp entry <? cutoff) eqn:E.
    + apply Z.ltb_lt in E. exists (entry :: removed). repeat split.
      * simpl. now f_equal.
      * now constructor.
      * exact Hfirst.
    + apply Z.ltb_ge in E. exists []. repeat split; [constructor|exact E].
Qed.

(** An entry that is not older than the cutoff, at the end, stays. *)
Lemma prune_keeps_last (cutoff : Z) (window : list SettlementEntry) (entry : SettlementEntry) :
  cutoff <= timestamp entry ->
  prune cutoff (window ++ [entry]) = prune cutoff window ++ [entry].
Proof.
  intros Hfresh. induction window as [|first rest IH]; simpl.
  - now rewrite (proj2 (Z.ltb_ge (timestamp entry) cutoff) Hfresh).
  - now destruct (timestamp first <? cutoff).
Qed.

Lemma MS_IN_DAY_positive : 0 < MS_IN_DAY.
Proof. reflexivity. Qed.

(** The window [recordSettlement] leaves: the old one pruned, then the new
    entry. *)
Lemma recordSettlement_window_eq (now : Z) (asset : string) (decimals : number) (amount : Z)
    (window : list SettlementEntry) :
  fst (recordSettlement now asset decimals amount window) =
    prune (now - MS_IN_DAY) window ++
      [{| timestamp := now; entry_asset := asset; entry_decimals := decimals;
          amountAtomic := amount |}].
Proof.
  unfold recordSettlement, pruneSettlementWindow. cbn [fst].
  apply prune_keeps_last. pose proof MS_IN_DAY_positive. simpl. lia.
Qed.

Lemma nondecreasing_snoc (times : list Z) (t : Z) :
  nondecreasing (times ++ [t]) <-> nondecreasing times /\ Forall (fun u => u <= t) times.
Proof.
  induction times as [|u times IH]; simpl.
  - split; [intros _; split; [exact I|constructor]|intros _; split; [constructor|exact I]].
  - rewrite Forall_app, Forall_singleton, IH, Forall_cons. tauto.
Qed.

Lemma prune_ordered (cutoff : Z) (window : list SettlementEntry) :
  in_timestamp_order window ->
  in_timestamp_order (prune cutoff window) /\
  Forall (fun entry => cutoff <= timestamp entry) (prune cutoff window).
Proof.
  unfold in_timestamp_order.
  induction window as [|entry rest IH]; simpl; [split; [exact I|constructor]|].
  intros [Hlater Hrest].
  destruct (timestamp entry <? cutoff) eqn:E; [now apply IH|].
  apply Z.ltb_ge in E. split; [now split|].
  constructor; [exact E|].
  rewrite Forall_map in Hlater. eapply Forall_impl; [exact Hlater|].
  simpl. intros later Hl. lia.
Qed.

Lemma prune_sublist (cutoff : Z) (window : list SettlementEntry) (test : SettlementEntry -> Prop) :
  Forall test window -> Forall test (prune cutoff window).
Proof.
  induction window as [|entry rest IH]; simpl; [trivial|].
  intros H. destruct (timestamp entry <? cutoff); [|exact H].
  apply IH. now apply Forall_cons in H as [_ H].
Qed.

(** One call keeps a window in timestamp order with nothing newer than
    [now] that way, and leaves nothing older than a day. *)
Lemma recordSettlement_ordered (now : Z) (asset : string) (decimals : number) (amount : Z)
    (window : list SettlementEntry) :
  in_timestamp_order window ->
  Forall (fun entry => timestamp entry <= now) window ->
  let window' := fst (recordSettlement now asset decimals amount window) in
  Forall (fun entry => now - MS_IN_DAY <= timestamp entry) window' /\
  in_timestamp_order window' /\
  Forall (fun entry => timestamp entry <= now) window'.
Proof.
  intros Hord Hbound window'. subst window'. rewrite recordSettlement_window_eq.
  destruct (prune_ordered (now - MS_IN_DAY) window Hord) as [Hord' Hfresh].
  pose proof (prune_sublist (now - MS_IN_DAY) window _ Hbound) as Hbound'.
  pose proof MS_IN_DAY_positive.
  split; [|split].
  - apply Forall_app. split; [exact Hfresh|]. apply Forall_singleton. simpl. lia.
  - unfold in_timestamp_order in *. rewrite map_app. simpl.
    apply nondecreasing_snoc. split; [exact Hord'|].
    rewrite Forall_map. exact Hbound'.
  - apply Forall_app. split; [exact Hbound'|]. apply Forall_singleton. simpl. lia.
Qed.

Lemma record_all_snoc (calls : list call) (c : call) (window : list SettlementEntry) :
  record_all (calls ++ [c]) window = record_call (record_all calls window) c.
Proof. unfold record_all. now rewrite fold_left_app. Qed.

(** Calls whose times never go back keep the window in timestamp order, and
    nothing in it is newer than the last call. *)
Lemma record_all_ordered (calls : list call) :
  nondecreasing (map call_now calls) ->
  in_timestamp_order (record_all calls []) /\
  forall t, Forall (fun u => u <= t) (map call_now calls) ->
            Forall (fun entry => timestamp entry <= t) (record_all calls []).
Proof.
  induction calls as [|c calls IH] using rev_ind.
  - intros _. split; [exact I|]. intros t _. constructor.
  - rewrite map_app. simpl. intros [Hnd Hle]%nondecreasing_snoc.
    destruct (IH Hnd) as [Hord Hbound]. specialize (Hbound _ Hle).
    rewrite record_all_snoc. destruct c as [[[now asset] decimals] amount].
    change (call_now (now, asset, decimals, amount)) with now in *.
    destruct (recordSettlement_ordered now asset decimals amount _ Hord Hbound)
      as (_ & Hord' & Hbound').
    unfold record_call. split; [exact Hord'|].
    intros t Ht. rewrite Forall_app, Forall_singleton in Ht. destruct Ht as [_ Ht].
    eapply Forall_impl; [exact Hbound'|]. simpl. intros entry He. lia.
Qed.

(** C10.  [recordSettlement] never prunes the entry it has just appended:
    the entry's timestamp is [now], pruning removes only entries older than
    [now] less a day, so the new entry is the last of the window the call
    leaves and the count it returns is at least 1. *)
Theorem recordSettlement_keeps_new_entry
    (now : Z) (asset : string) (decimals : number) (amount : Z)
    (window : list SettlementEntry) :
  let entry :=
    {| timestamp := now; entry_asset := asset; entry_decimals := decimals;
       amountAtomic := amount |} in
  let result := recordSettlement now asset decimals amount window in
  last (fst result) = Some entry /\
  snd (snd result) = Z.of_nat (length (fst result)) /\
  1 <= snd (snd result).
Proof.
  intros entry result.
  pose proof (recordSettlement_window_eq now asset decimals amount window) as Hw.
  fold result entry in Hw.
  assert (Hcount : snd (snd result) = Z.of_nat (length (fst result))) by reflexivity.
  split; [|split].
  - rewrite Hw. apply last_snoc.
  - exact Hcount.
  - rewrite Hcount, Hw, length_app. simpl. lia.
Qed.

(** C4, as the code has it.  [recordSettlement] appends the new entry and
    then removes entries from the front of the sequence only, each of them
    older than [now] less a day, until the first entry is not; the totals are
    computed from what is left.  When the window is in timestamp order and
    holds nothing newer than [now], as it is when the calls come with times
    that never go back, every entry left after the call satisfies
    [timestamp >= now - 24h], and the window stays in timestamp order. *)
Theorem recordSettlement_prefix_trimmed
    (now : Z) (asset : string) (decimals : number) (amount : Z)
    (window : list SettlementEntry) :
  let entry :=
    {| timestamp := now; entry_asset := asset; entry_decimals := decimals;
       amountAtomic := amount |} in
  let result := recordSettlement now asset decimals amount window in
  let window' := fst result in
  (exists removed,
     window ++ [entry] = removed ++ window' /\
     Forall (fun old => timestamp old < now - MS_IN_DAY) removed) /\
  (exists first rest, window' = first :: rest /\ now - MS_IN_DAY <= timestamp first) /\
  fst (snd result) = compute_totals window' /\
  (in_timestamp_order window ->
   Forall (fun old => timestamp old <= now) window ->
   Forall (fun kept => now - MS_IN_DAY <= timestamp kept) window' /\
   in_timestamp_order window' /\
   Forall (fun kept => timestamp kept <= now) window') /\
  (forall calls,
     nondecreasing (map call_now calls ++ [now]) ->
     Forall (fun kept => now - MS_IN_DAY <= timestamp kept)
       (fst (recordSettlement now asset decimals amount (record_all calls [])))).
Proof.
  intros entry result window'.
  destruct (prune_prefix (now - MS_IN_DAY) (window ++ [entry])) as (removed & Heq & Hold & Hfirst).
  change (prune (now - MS_IN_DAY) (window ++ [entry])) with window' in Heq, Hfirst.
  split; [now exists removed|].
  split.
  { pose proof (recordSettlement_window_eq now asset decimals amount window) as Hw.
    fold result window' entry in Hw.
    destruct window' as [|first rest]; [now destruct (prune _ window)|].
    now exists first, rest. }
  split; [reflexivity|].
  split; [apply recordSettlement_ordered|].
  intros calls [Hnd Hle]%nondecreasing_snoc.
  destruct (record_all_ordered calls Hnd) as [Hord Hbound].
  now apply recordSettlement_ordered; [|apply Hbound].
Qed.

(** ** Rolling totals *)

Lemma totals_get_set (totals : RollingTotals) (key : string) (value : TotalsEntry) (k : string) :
  totals_get (totals_set totals key value) k =
    match totals_get totals k with
    | Some found => Some found
    | None => if String.eqb key k then Some value else None
    end.
Proof.
  unfold totals_set. induction totals as [|[k' v'] totals IH]; simpl; [reflexivity|].
  now destruct (String.eqb k' k).
Qed.

Lemma totals_get_add (totals : RollingTotals) (key : string) (amount : Z) (k : string) :
  totals_get (totals_add totals key amount) k =
    if String.eqb key k
    then option_map
           (fun found =>
              {| total_asset := total_asset found;
                 total_decimals := total_decimals found;
                 total_amountAtomic := total_amountAtomic found + amount |})
           (totals_get totals k)
    else totals_get totals k.
Proof.
  induction totals as [|[k' v'] totals IH]; simpl.
  - now destruct (String.eqb key k).
  - destruct (String.eqb k' key) eqn:Ek'; simpl.
    + apply String.eqb_eq in Ek'. subst k'.
      destruct (String.eqb key k) eqn:Ek; reflexivity.
    + destruct (String.eqb k' k) eqn:Ekk.
      * apply String.eqb_eq in Ekk. subst k'. now rewrite String.eqb_sym, Ek'.
      * exact IH.
Qed.

Lemma first_with_key_snoc (key : string) (window : list SettlementEntry) (entry : SettlementEntry) :
  first_with_key key (window ++ [entry]) =
    match first_with_key key window with
    | Some first => Some first
    | None => if has_key key entry then Some entry else None
    end.
Proof.
  induction window as [|e window IH]; simpl; [reflexivity|].
  now destruct (has_key key e).
Qed.

Lemma sum_amounts_snoc (select : SettlementEntry -> bool) (window : list SettlementEntry)
    (entry : SettlementEntry) :
  sum_amounts select (window ++ [entry]) =
    sum_amounts select window + (if select entry then amountAtomic entry else 0).
Proof.
  induction window as [|e window IH]; simpl.
  - destruct (select entry); lia.
  - rewrite IH. destruct (select e); lia.
Qed.

Lemma sum_amounts_none (key : string) (window : list SettlementEntry) :
  first_with_key key window = None -> sum_amounts (has_key key) window = 0.
Proof.
  induction window as [|e window IH]; simpl; [reflexivity|].
  destruct (has_key key e); [discriminate|exact IH].
Qed.

(** One turn of the loop takes the groups of the entries seen so far to the
    groups of those and the entry of the turn. *)
Lemma add_to_totals_groups (totals : RollingTotals) (seen : list SettlementEntry)
    (entry : SettlementEntry) :
  (forall k, totals_get totals k = group_of_key seen k) ->
  forall k, totals_get (add_to_totals totals entry) k = group_of_key (seen ++ [entry]) k.
Proof.
  intros Hseen k. unfold add_to_totals, group_of_key.
  rewrite first_with_key_snoc, sum_amounts_snoc.
  unfold has_key at 1 3.
  pose proof (Hseen (totals_key entry)) as Hentry.
  pose proof (Hseen k) as Hk. unfold group_of_key in Hentry, Hk.
  destruct (totals_get totals (totals_key entry)) as [existing|] eqn:Hget.
  - rewrite totals_get_add, Hk.
    destruct (String.eqb (totals_key entry) k) eqn:E.
    + apply String.eqb_eq in E. subst k.
      destruct (first_with_key (totals_key entry) seen); [reflexivity|discriminate].
    + destruct (first_with_key k seen); [|reflexivity].
      do 2 f_equal. lia.
  - rewrite totals_get_set, Hk.
    destruct (first_with_key (totals_key entry) seen) eqn:Hfirst; [discriminate|].
    destruct (String.eqb (totals_key entry) k) eqn:E.
    + apply String.eqb_eq in E. subst k. rewrite Hfirst.
      rewrite (sum_amounts_none _ _ Hfirst). reflexivity.
    + destruct (first_with_key k seen); [|reflexivity].
      do 2 f_equal. lia.
Qed.

(** The totals the loop computes are the groups of the window, key by key. *)
Lemma compute_totals_groups (window : list SettlementEntry) (k : string) :
  totals_get (compute_totals window) k = group_of_key window k.
Proof.
  unfold compute_totals.
  assert (Hgen : forall rest totals seen,
             (forall k, totals_get totals k = group_of_key seen k) ->
             forall k, totals_get (fold_left add_to_totals rest totals) k
                       = group_of_key (seen ++ rest) k).
  { induction rest as [|entry rest IH]; intros totals seen Hseen k'; simpl.
    - now rewrite app_nil_r.
    - rewrite (IH _ (seen ++ [entry])).
      + now rewrite <- app_assoc.
      + now apply add_to_totals_groups. }
  apply (Hgen window [] []). reflexivity.
Qed.

(** ** Keys and groups *)

Lemma Number_toString_plain (x : number) (d : Z) :
  plain_integer x = Some d -> Number_toString x = BigInt_toString d.
Proof.
  intros Hx. destruct x as [s|s| |s m e]; try discriminate Hx;
    unfold Number_toString; now rewrite Hx.
Qed.

Lemma BigInt_toString_no_bar (z : Z) : string_forall no_bar (BigInt_toString z) = true.
Proof.
  assert (Hdigit : forall c, is_digit c = true -> no_bar c = true).
  { intros c. destruct c as [[] [] [] [] [] [] [] []]; vm_compute; congruence. }
  destruct (Z_lt_le_dec z 0) as [Hz|Hz].
  - rewrite (BigInt_toString_neg z Hz). simpl.
    eapply string_forall_impl; [exact Hdigit|]. apply BigInt_toString_digits. lia.
  - eapply string_forall_impl; [exact Hdigit|]. now apply BigInt_toString_digits.
Qed.

Lemma BigInt_toString_inj (a b : Z) : BigInt_toString a = BigInt_toString b -> a = b.
Proof.
  intros H. pose proof (StringToBigInt_toString a) as Ha.
  rewrite H, StringToBigInt_toString in Ha. congruence.
Qed.

(** A key is cut at its last bar: what stands after has none. *)
Lemma split_at_bar (a1 n1 a2 n2 : string) :
  string_forall no_bar n1 = true -> string_forall no_bar n2 = true ->
  a1 +:+ "|" +:+ n1 = a2 +:+ "|" +:+ n2 -> a1 = a2 /\ n1 = n2.
Proof.
  intros H1 H2. revert a2.
  induction a1 as [|c1 a1 IH]; intros [|c2 a2];
    change ("|" +:+ n1) with (String "|" n1); change ("|" +:+ n2) with (String "|" n2);
    rewrite ?append_empty, ?append_String.
  - intros [= ->]. now split.
  - intros [= <- ->]. rewrite string_forall_app in H1.
    simpl in H1. rewrite andb_false_r in H1. discriminate.
  - intros [= -> <-]. rewrite string_forall_app in H2.
    simpl in H2. rewrite andb_false_r in H2. discriminate.
  - intros [= -> H]. destruct (IH _ H) as [-> ->]. now split.
Qed.

(** Two entries with integer decimals have the same key exactly when they
    have the same asset and the same decimals. *)
Lemma totals_key_pair (e1 e2 : SettlementEntry) (d1 d2 : Z) :
  plain_integer (entry_decimals e1) = Some d1 ->
  plain_integer (entry_decimals e2) = Some d2 ->
  totals_key e1 = totals_key e2 <-> entry_asset e1 = entry_asset e2 /\ d1 = d2.
Proof.
  intros H1 H2. unfold totals_key.
  rewrite (Number_toString_plain _ _ H1), (Number_toString_plain _ _ H2).
  split.
  - intros H. apply split_at_bar in H as [Ha Hn]; try apply BigInt_toString_no_bar.
    split; [exact Ha|now apply BigInt_toString_inj].
  - now intros [-> ->].
Qed.

Lemma sum_amounts_ext (f g : SettlementEntry -> bool) (window : list SettlementEntry) :
  (forall entry, In entry window -> f entry = g entry) ->
  sum_amounts f window = sum_amounts g window.
Proof.
  induction window as [|e window IH]; simpl; [reflexivity|].
  intros H. rewrite (H e) by now left. rewrite IH; [reflexivity|].
  intros entry He. apply H. now right.
Qed.

Lemma first_with_key_found (key : string) (window : list SettlementEntry) (first : SettlementEntry) :
  first_with_key key window = Some first -> In first window /\ totals_key first = key.
Proof.
  induction window as [|e window IH]; simpl; [discriminate|].
  destruct (has_key key e) eqn:E.
  - intros [= <-]. split; [now left|]. now apply String.eqb_eq.
  - intros H. destruct (IH H) as [Hin Hk]. split; [now right|exact Hk].
Qed.

Lemma first_with_key_exists (window : list SettlementEntry) (entry : SettlementEntry) :
  In entry window -> exists first, first_with_key (totals_key entry) window = Some first.
Proof.
  induction window as [|e window IH]; simpl; [tauto|].
  intros Hin. destruct (has_key (totals_key entry) e) eqn:E; [now exists e|].
  destruct Hin as [->|Hin]; [|now apply IH].
  unfold has_key in E. now rewrite String.eqb_refl in E.
Qed.

(** With integer decimals all over the window, the group of an entry's key
    is the group of the entry's pair. *)
Lemma group_of_pair (window : list SettlementEntry) (entry : SettlementEntry) (d : Z) :
  Forall (fun e => is_Some (plain_integer (entry_decimals e))) window ->
  In entry window ->
  plain_integer (entry_decimals entry) = Some d ->
  exists group,
    group_of_key window (totals_key entry) = Some group /\
    total_asset group = entry_asset entry /\
    plain_integer (total_decimals group) = Some d /\
    total_amountAtomic group = sum_amounts (in_group (entry_asset entry) d) window.
Proof.
  intros Hplain Hin Hd. unfold group_of_key.
  destruct (first_with_key_exists window entry Hin) as [first Hfirst].
  rewrite Hfirst. eexists. split; [reflexivity|]. simpl.
  destruct (first_with_key_found _ _ _ Hfirst) as [Hfin Hfk].
  rewrite Forall_forall in Hplain.
  destruct (Hplain first) as [d' Hd']; [now apply list_elem_of_In|].
  destruct (proj1 (totals_key_pair first entry d' d Hd' Hd) Hfk) as [Hasset Hsame].
  subst d'.
  split; [exact Hasset|]. split; [exact Hd'|].
  apply sum_amounts_ext. intros e He.
  destruct (Hplain e) as [de Hde]; [now apply list_elem_of_In|].
  unfold has_key, in_group.
  pose proof (totals_key_pair e entry de d Hde Hd) as Hiff.
  destruct (String.eqb (totals_key e) (totals_key entry)) eqn:Ek.
  - apply String.eqb_eq in Ek. apply Hiff in Ek as [-> ->].
    rewrite String.eqb_refl, Hde. simpl. now rewrite bool_decide_eq_true_2.
  - apply String.eqb_neq in Ek.
    destruct (String.eqb (entry_asset e) (entry_asset entry)) eqn:Ea; [|reflexivity].
    apply String.eqb_eq in Ea. simpl. rewrite Hde.
    rewrite bool_decide_eq_false_2; [reflexivity|].
    intros [= ->]. apply Ek, Hiff. now split.
Qed.

Lemma prune_nothing (cutoff : Z) (window : list SettlementEntry) :
  match window with
  | [] => True
  | first :: _ => cutoff <= timestamp first
  end ->
  prune cutoff window = window.
Proof.
  destruct window as [|first rest]; simpl; [reflexivity|].
  intros H. now rewrite (proj2 (Z.ltb_ge (timestamp first) cutoff) H).
Qed.

(** C3.  After every call of [recordSettlement] the count is the number of
    entries left in the window, and the totals it returns are, group by
    group, the sums of the amounts of the entries left: a key of the map is
    the key of an entry left; the total under a key is the sum over the
    entries with that key; and on entries whose decimals are integers, two
    entries have one key exactly when they have the same asset and the same
    decimals, so the total of an entry's group is the sum over the entries of
    its pair (asset, decimals) and entries of one asset and different decimals
    are never merged.  Three entries of one pair with the amounts 100, 200 and
    300, all inside the window, give the total 600 and the count 3. *)
Theorem recordSettlement_totals
    (now : Z) (asset : string) (decimals : number) (amount : Z)
    (window : list SettlementEntry) :
  let result := recordSettlement now asset decimals amount window in
  let window' := fst result in
  let totals := fst (snd result) in
  let count := snd (snd result) in
  count = Z.of_nat (length window') /\
  (forall k, totals_get totals k = group_of_key window' k) /\
  (forall k group, totals_get totals k = Some group ->
     exists entry, In entry window' /\ totals_key entry = k) /\
  (forall e1 e2 d1 d2,
     plain_integer (entry_decimals e1) = Some d1 ->
     plain_integer (entry_decimals e2) = Some d2 ->
     (totals_key e1 = totals_key e2 <-> entry_asset e1 = entry_asset e2 /\ d1 = d2)) /\
  (Forall (fun e => is_Some (plain_integer (entry_decimals e))) window' ->
   forall entry d,
     In entry window' -> plain_integer (entry_decimals entry) = Some d ->
     exists group,
       totals_get totals (totals_key entry) = Some group /\
       total_asset group = entry_asset entry /\
       plain_integer (total_decimals group) = Some d /\
       total_amountAtomic group = sum_amounts (in_group (entry_asset entry) d) window') /\
  (forall t1 t2 t3 a x,
     t2 - MS_IN_DAY <= t1 -> t3 - MS_IN_DAY <= t1 ->
     let w1 := fst (recordSettlement t1 a x 100 []) in
     let w2 := fst (recordSettlement t2 a x 200 w1) in
     snd (recordSettlement t3 a x 300 w2) =
       ([(a +:+ "|" +:+ Number_toString x,
          {| total_asset := a; total_decimals := x; total_amountAtomic := 600 |})],
        3)).
Proof.
  intros result window' totals count.
  assert (Hgroups : forall k, totals_get totals k = group_of_key window' k)
    by (intros k; apply compute_totals_groups).
  split; [reflexivity|].
  split; [exact Hgroups|].
  split.
  { intros k group. rewrite Hgroups. unfold group_of_key.
    destruct (first_with_key k window') as [first|] eqn:Hfirst; [|discriminate].
    intros _. exists first. now apply first_with_key_found. }
  split; [apply totals_key_pair|].
  split.
  { intros Hplain entry d Hin Hd. rewrite Hgroups. now apply group_of_pair. }
  intros t1 t2 t3 a x H21 H31 w1 w2.
  assert (Hw1 : w1 = [{| timestamp := t1; entry_asset := a; entry_decimals := x;
                         amountAtomic := 100 |}])
    by (unfold w1; now rewrite recordSettlement_window_eq).
  assert (Hw2 : w2 = [{| timestamp := t1; entry_asset := a; entry_decimals := x;
                         amountAtomic := 100 |};
                      {| timestamp := t2; entry_asset := a; entry_decimals := x;
                         amountAtomic := 200 |}]).
  { unfold w2. rewrite recordSettlement_window_eq, Hw1.
    now rewrite prune_nothing. }
  pose proof (recordSettlement_window_eq t3 a x 300 w2) as Hw3.
  rewrite Hw2, prune_nothing in Hw3 by exact H31.
  unfold recordSettlement in Hw3 |- *. cbn [fst snd] in Hw3 |- *.
  rewrite Hw2, Hw3. unfold compute_totals, add_to_totals, totals_key. simpl.
  rewrite !String.eqb_refl. simpl. rewrite !String.eqb_refl. reflexivity.
Qed.

(** ** The signer registry *)

Lemma initial_state_consistent : registry_consistent initial_state.
Proof.
  split; [constructor|]. intros network promise. simpl.
  rewrite lookup_empty, lookup_nil. split; discriminate.
Qed.

(** A call of [getSigner] returns the promise the cache holds afterwards,
    keeps what the cache held, calls [createSigner] only for a network the
    cache did not hold, and leaves the window alone. *)
Lemma getSigner_step (network : string) (st : ServerState) :
  registry_consistent st ->
  let promise := fst (getSigner network st) in
  let st' := snd (getSigner network st) in
  registry_consistent st' /\
  signerCache st' !! network = Some promise /\
  (forall n p, signerCache st !! n = Some p -> signerCache st' !! n = Some p) /\
  (forall n, In n (createSigner_calls st') <-> In n (createSigner_calls st) \/ n = network) /\
  (createSigner_calls st' = createSigner_calls st \/
   signerCache st !! network = None /\
   createSigner_calls st' = createSigner_calls st ++ [network]) /\
  settlementWindow st' = settlementWindow st.
Proof.
  intros [Hnodup Hagree]. unfold getSigner.
  destruct (signerCache st !! network) as [cached|] eqn:Hcache; simpl.
  - repeat split; try assumption; try apply Hagree; auto.
    + intros [H| ->]; [exact H|]. apply Hagree in Hcache.
      apply list_elem_of_In. eapply list_elem_of_lookup_2. exact Hcache.
  - assert (Hfresh : ~ In network (createSigner_calls st)).
    { intros Hin. apply list_elem_of_In, list_elem_of_lookup in Hin as [p Hp].
      apply Hagree in Hp. congruence. }
    split; [split|].
    + apply NoDup_app. repeat split; [exact Hnodup| |apply NoDup_singleton].
      intros n Hn [= ->]%list_elem_of_singleton. apply Hfresh. now apply list_elem_of_In.
    + intros n p. cbn [signerCache createSigner_calls].
      destruct (decide (n = network)) as [->|Hne].
      * rewrite lookup_insert_eq. split.
        -- intros [= <-]. now rewrite lookup_app_r, Nat.sub_diag by lia.
        -- intros Hp. destruct (proj1 (lookup_app_Some _ _ _ _) Hp) as [Hl|[Hge Hr]].
           ++ exfalso. apply Hfresh, list_elem_of_In. eapply list_elem_of_lookup_2. exact Hl.
           ++ apply list_lookup_singleton_Some in Hr as [Hz _]. f_equal. lia.
      * rewrite lookup_insert_ne by congruence. rewrite Hagree. split.
        -- intros Hp. now apply lookup_app_l_Some.
        -- intros Hp. destruct (proj1 (lookup_app_Some _ _ _ _) Hp) as [Hl|[Hge Hr]]; [exact Hl|].
           apply list_lookup_singleton_Some in Hr as [_ Hr]. congruence.
    + split; [apply lookup_insert_eq|].
      split.
      { intros n p Hn. rewrite lookup_insert_ne; [exact Hn|]. congruence. }
      split.
      { intros n. rewrite in_app_iff. simpl. intuition. }
      split; [right; now split|reflexivity].
Qed.

(** A run of calls, from a state where cache and calls agree. *)
Lemma getSigner_calls_from (networks : list string) (st : ServerState) :
  registry_consistent st ->
  let promises := fst (getSigner_calls networks st) in
  let st' := snd (getSigner_calls networks st) in
  registry_consistent st' /\
  Forall2 (fun network promise => signerCache st' !! network = Some promise)
    networks promises /\
  (forall n p, signerCache st !! n = Some p -> signerCache st' !! n = Some p) /\
  (forall n, In n (createSigner_calls st') <-> In n (createSigner_calls st) \/ In n networks) /\
  settlementWindow st' = settlementWindow st.
Proof.
  revert st. induction networks as [|network rest IH]; intros st Hst; simpl.
  - split; [exact Hst|]. split; [constructor|]. split; [auto|].
    split; [intros n; tauto|reflexivity].
  - destruct (getSigner_step network st Hst) as (Hst1 & Hp & Hkeep1 & Hin1 & _ & Hw1).
    destruct (getSigner network st) as [promise st1]. simpl in *.
    destruct (IH st1 Hst1) as (Hst2 & Hall & Hkeep2 & Hin2 & Hw2).
    destruct (getSigner_calls rest st1) as [promises st2]. simpl in *.
    split; [exact Hst2|].
    split; [constructor; [now apply Hkeep2|exact Hall]|].
    split; [intros n p Hn; now apply Hkeep2, Hkeep1|].
    split; [|congruence].
    intros n. rewrite Hin2, Hin1. intuition.
Qed.

(** C7.  Over any sequence of calls of [getSigner] from the start of the
    process, in whatever order requests make them, [createSigner] is called
    at most once for a network, and exactly once for a network that was asked
    for; a call returns the promise the cache holds for its network, so all
    the calls for one network return the same promise, the one of the only
    [createSigner] call for it.  The promise is put in the cache in the call
    itself, which has no suspension point: two calls in a row for a network
    never seen call [createSigner] once and return one promise. *)
Theorem getSigner_creates_once (networks : list string) :
  let promises := fst (getSigner_calls networks initial_state) in
  let st := snd (getSigner_calls networks initial_state) in
  NoDup (createSigner_calls st) /\
  (forall network, (count_occ string_dec (createSigner_calls st) network <= 1)%nat) /\
  (forall network,
     In network networks -> count_occ string_dec (createSigner_calls st) network = 1%nat) /\
  (forall network, In network (createSigner_calls st) -> In network networks) /\
  Forall2
    (fun network promise =>
       signerCache st !! network = Some promise /\
       createSigner_calls st !! promise = Some network)
    networks promises /\
  (forall i j network pi pj,
     networks !! i = Some network -> networks !! j = Some network ->
     promises !! i = Some pi -> promises !! j = Some pj -> pi = pj) /\
  (forall network,
     getSigner_calls [network; network] initial_state =
       ([0%nat; 0%nat],
        {| signerCache := {[network := 0%nat]};
           createSigner_calls := [network];
           settlementWindow := [] |})).
Proof.
  intros promises st.
  destruct (getSigner_calls_from networks initial_state initial_state_consistent)
    as ([Hnodup Hagree] & Hall & _ & Hin & _).
  fold promises st in Hnodup, Hagree, Hall, Hin.
  assert (Hcount : forall network,
            (count_occ string_dec (createSigner_calls st) network <= 1)%nat)
    by now apply NoDup_count_occ, NoDup_ListNoDup.
  split; [exact Hnodup|]. split; [exact Hcount|].
  split.
  { intros network Hnet.
    assert (Hc : In network (createSigner_calls st)) by (apply Hin; now right).
    apply (count_occ_In string_dec) in Hc. specialize (Hcount network). lia. }
  split.
  { intros network Hc. apply Hin in Hc as [Hc|Hc]; [destruct Hc|exact Hc]. }
  split.
  { eapply Forall2_impl; [exact Hall|]. simpl. intros network promise Hp.
    split; [exact Hp|now apply Hagree]. }
  split.
  { intros i j network pi pj Hi Hj Hpi Hpj.
    pose proof (Forall2_lookup_lr _ _ _ _ _ _ Hall Hi Hpi) as Hci.
    pose proof (Forall2_lookup_lr _ _ _ _ _ _ Hall Hj Hpj) as Hcj.
    simpl in Hci, Hcj. congruence. }
  intros network. unfold getSigner_calls, getSigner. simpl.
  rewrite lookup_empty. simpl. rewrite lookup_insert_eq. reflexivity.
Qed.

(** ** Settlement events *)

Lemma ServerState_eta (st : ServerState) :
  {| signerCache := signerCache st;
     createSigner_calls := createSigner_calls st;
     settlementWindow := settlementWindow st |} = st.
Proof. now destruct st. Qed.

(** When the amount does not parse, the event is logged without a call of
    [recordSettlement]: the window is the one found. *)
Lemma logSettlementEvent_unparsed (paymentRequirements : PaymentRequirements)
    (transaction : JsValue) (now : Z) (window : list SettlementEntry) :
  safeParseAtomic (pr_maxAmountRequired paymentRequirements) = Normal None ->
  logSettlementEvent paymentRequirements transaction now window =
    (window,
     Normal {| log_amount := js_String (pr_maxAmountRequired paymentRequirements);
               log_volume := [];
               log_count := 0 |}).
Proof. intros Hnull. unfold logSettlementEvent. now rewrite Hnull. Qed.


(** C6.  For a settlement whose [maxAmountRequired] does not parse, the
    settlement event does not call [recordSettlement]: the window, and so the
    totals computed from it, are what they were, the event reports no volume
    and the count 0, and the receipt is the response, with status 200. *)
Theorem settlement_with_unparsed_amount
    (paymentRequirements : PaymentRequirements) (result : JsValue) (now : Z) (st : ServerState) :
  safeParseAtomic (pr_maxAmountRequired paymentRequirements) = Normal None ->
  (forall transaction window,
     logSettlementEvent paymentRequirements transaction now window =
       (window,
        Normal {| log_amount := js_String (pr_maxAmountRequired paymentRequirements);
                  log_volume := [];
                  log_count := 0 |})) /\
  settle_respond paymentRequirements result now st =
    (st, Normal {| status := 200; body := JsonResult result |}) /\
  (forall requirements payload paymentPayload signer,
     PaymentRequirementsSchema_parse requirements = Normal paymentRequirements ->
     PaymentPayloadSchema_parse payload = Normal paymentPayload ->
     pr_network paymentRequirements ∈ allowedNetworks ->
     await_signer (fst (getSigner (pr_network paymentRequirements) st)) = Normal signer ->
     isSvmSignerWallet signer = true ->
     settle signer paymentPayload paymentRequirements = Normal result ->
     let st' := fst (post_settle requirements payload now st) in
     snd (post_settle requirements payload now st) =
       {| status := 200; body := JsonResult result |} /\
     settlementWindow st' = settlementWindow st /\
     compute_totals (settlementWindow st') = compute_totals (settlementWindow st)).
Proof.
  intros Hnull.
  assert (Hrespond : forall st0,
            settle_respond paymentRequirements result now st0 =
              (st0, Normal {| status := 200; body := JsonResult result |})).
  { intros st0. unfold settle_respond.
    rewrite (logSettlementEvent_unparsed _ _ _ _ Hnull). cbn [bind].
    now rewrite ServerState_eta. }
  split; [intros transaction window; now apply logSettlementEvent_unparsed|].
  split; [apply Hrespond|].
  intros requirements payload paymentPayload signer Hreq Hpay Hnet Hsigner Hwallet Hsettle st'.
  assert (Hwindow : settlementWindow (snd (getSigner (pr_network paymentRequirements) st))
                    = settlementWindow st).
  { unfold getSigner. now destruct (signerCache st !! pr_network paymentRequirements). }
  unfold st', post_settle, settle_try, resolveNetwork.
  rewrite Hreq, Hpay, (bool_decide_eq_true_2 _ Hnet).
  destruct (getSigner (pr_network paymentRequirements) st) as [promise st1].
  cbn [fst snd] in Hsigner, Hwindow.
  rewrite Hsigner, Hwallet. cbn [negb]. rewrite Hsettle, Hrespond. cbn [fst snd].
  now rewrite Hwindow.
Qed.

(** What [formatAtomicAmount] throws is a [RangeError], from [BigInt]. *)
Lemma formatAtomicAmount_throws (amount : Z) (x : number) (e : JsError) :
  formatAtomicAmount amount x = Throw e -> e = RangeError.
Proof.
  unfold formatAtomicAmount, BigInt_of_number, BigInt_pow.
  destruct (Number_le_zero x); [discriminate|].
  destruct (number_to_Z x) as [d|]; cbn [bind]; [|congruence].
  destruct (d <? 0); cbn [bind]; [congruence|].
  destruct (BigInt_pow_fits 10 d); cbn [bind]; [discriminate|congruence].
Qed.

Lemma formatVolumeSummary_throws (totals : RollingTotals) (e : JsError) :
  formatVolumeSummary totals = Throw e -> e = RangeError.
Proof.
  induction totals as [|[k group] totals IH]; simpl; [discriminate|].
  destruct (formatAtomicAmount _ _) eqn:Hformat; cbn [bind].
  - destruct (formatVolumeSummary totals); cbn [bind]; [discriminate|].
    intros [= <-]. now apply IH.
  - intros [= <-]. now apply formatAtomicAmount_throws in Hformat.
Qed.

(** X1.  When the amount parses and the resolved decimals are a number above
    zero that is no integer (an [extra.assetDecimals] of 1.5, say), the
    settlement event throws a [RangeError] after [recordSettlement] has
    appended the entry: the handler of [POST /settle] answers status 400, not
    the receipt, although [settle] succeeded, and the entry stays in the
    window. *)
Theorem settle_fails_on_fractional_decimals
    (paymentRequirements : PaymentRequirements) (result : JsValue) (now : Z)
    (st : ServerState) (amount : Z) :
  safeParseAtomic (pr_maxAmountRequired paymentRequirements) = Normal (Some amount) ->
  Number_le_zero (decimals (resolveAssetInfo paymentRequirements)) = false ->
  number_to_Z (decimals (resolveAssetInfo paymentRequirements)) = None ->
  let info := resolveAssetInfo paymentRequirements in
  let window' :=
    fst (recordSettlement now (asset info) (decimals info) amount (settlementWindow st)) in
  settle_respond paymentRequirements result now st =
    ({| signerCache := signerCache st;
        createSigner_calls := createSigner_calls st;
        settlementWindow := window' |},
     Throw RangeError) /\
  last window' =
    Some {| timestamp := now; entry_asset := asset info; entry_decimals := decimals info;
            amountAtomic := amount |} /\
  (forall requirements payload paymentPayload signer,
     PaymentRequirementsSchema_parse requirements = Normal paymentRequirements ->
     PaymentPayloadSchema_parse payload = Normal paymentPayload ->
     pr_network paymentRequirements ∈ allowedNetworks ->
     await_signer (fst (getSigner (pr_network paymentRequirements) st)) = Normal signer ->
     isSvmSignerWallet signer = true ->
     settle signer paymentPayload paymentRequirements = Normal result ->
     snd (post_settle requirements payload now st) =
       {| status := 400; body := JsonError RangeError |}).
Proof.
  intros Hparsed Hpositive Hfraction info window'.
  assert (Hrespond : forall st0,
            settle_respond paymentRequirements result now st0 =
              ({| signerCache := signerCache st0;
                  createSigner_calls := createSigner_calls st0;
                  settlementWindow :=
                    fst (recordSettlement now (asset info) (decimals info) amount
                           (settlementWindow st0)) |},
               Throw RangeError)).
  { intros st0. unfold settle_respond, logSettlementEvent. rewrite Hparsed. fold info.
    destruct (recordSettlement now (asset info) (decimals info) amount (settlementWindow st0))
      as [w [totals count]]. cbn [fst]. f_equal.
    destruct (formatVolumeSummary totals) as [parts|e] eqn:Hvolume; cbn [bind].
    - now rewrite (formatAtomicAmount_not_integer amount (decimals info) Hpositive Hfraction).
    - now rewrite (formatVolumeSummary_throws totals e Hvolume). }
  split; [apply Hrespond|].
  split.
  { unfold window'. rewrite recordSettlement_window_eq. apply last_snoc. }
  intros requirements payload paymentPayload signer Hreq Hpay Hnet Hsigner Hwallet Hsettle.
  unfold post_settle, settle_try, resolveNetwork.
  rewrite Hreq, Hpay, (bool_decide_eq_true_2 _ Hnet).
  destruct (getSigner (pr_network paymentRequirements) st) as [promise st1].
  cbn [fst] in Hsigner.
  rewrite Hsigner, Hwallet. cbn [negb]. now rewrite Hsettle, Hrespond.
Qed.

(** ** The value of what [formatAtomicAmount] prints *)

Lemma uint_of_string_digit (c : ascii) (s : string) (u : uint) :
  is_digit c = true -> NilEmpty.uint_of_string s = Some u ->
  exists u', NilEmpty.uint_of_string (String c s) = Some u' /\
             forall acc, Z.pos (Pos.of_uint_acc u' acc)
                         = Z.pos (Pos.of_uint_acc u
                                    (Z.to_pos (10 * Z.pos acc + (Z.of_N (N_of_ascii c) - 48)))) /\
             Z.of_N (Pos.of_uint u') =
               (if Ascii.eqb c "0" then Z.of_N (Pos.of_uint u)
                else Z.pos (Pos.of_uint_acc u (Z.to_pos (Z.of_N (N_of_ascii c) - 48)))).
Proof.
  intros Hc Hu. simpl. rewrite Hu.
  destruct c as [[] [] [] [] [] [] [] []]; try discriminate Hc;
    (eexists; split; [reflexivity|]; intros acc; split; [|reflexivity]);
    simpl; try reflexivity; do 2 f_equal; lia.
Qed.

Lemma of_uint_acc_value (s : string) :
  forall u acc, NilEmpty.uint_of_string s = Some u ->
  Z.pos (Pos.of_uint_acc u acc) = digits_value (Z.pos acc) s.
Proof.
  induction s as [|c s IH]; intros u acc Hu.
  - simpl in Hu. injection Hu as <-. reflexivity.
  - pose proof (uint_of_string_digits _ _ Hu) as Hd. simpl in Hd.
    apply andb_true_iff in Hd as [Hc Hs].
    simpl in Hu. destruct (NilEmpty.uint_of_string s) as [u0|] eqn:Hu0; [|discriminate].
    destruct (uint_of_string_digit c s u0 Hc Hu0) as (u' & Hu' & Hacc).
    simpl in Hu'. rewrite Hu0 in Hu'. rewrite Hu in Hu'. injection Hu' as <-.
    destruct (Hacc acc) as [-> _]. rewrite (IH u0 _ eq_refl). simpl.
    f_equal. assert (0 <= Z.of_N (N_of_ascii c) - 48).
    { unfold is_digit in Hc. apply andb_true_iff in Hc as [Hlo _].
      apply N.leb_le in Hlo. lia. }
    rewrite Z2Pos.id by lia. reflexivity.
Qed.

(** The integer a string of digits parses to is its value. *)
Lemma of_uint_value (s : string) :
  forall u, NilEmpty.uint_of_string s = Some u -> Z.of_uint u = digits_value 0 s.
Proof.
  unfold Z.of_uint. induction s as [|c s IH]; intros u Hu.
  - simpl in Hu. injection Hu as <-. reflexivity.
  - pose proof (uint_of_string_digits _ _ Hu) as Hd. simpl in Hd.
    apply andb_true_iff in Hd as [Hc Hs].
    simpl in Hu. destruct (NilEmpty.uint_of_string s) as [u0|] eqn:Hu0; [|discriminate].
    destruct (uint_of_string_digit c s u0 Hc Hu0) as (u' & Hu' & Hacc).
    simpl in Hu'. rewrite Hu0 in Hu'. rewrite Hu in Hu'. injection Hu' as <-.
    destruct (Hacc 1%positive) as [_ ->].
    destruct (Ascii.eqb c "0") eqn:Hz.
    + apply Ascii.eqb_eq in Hz. subst c. simpl. now apply IH.
    + rewrite (of_uint_acc_value s u0 _ Hu0). simpl.
      assert (0 < Z.of_N (N_of_ascii c) - 48).
      { destruct c as [[] [] [] [] [] [] [] []]; try discriminate Hc; try discriminate Hz;
          reflexivity. }
      rewrite Z2Pos.id by lia. reflexivity.
Qed.

Lemma digits_parse (s : string) :
  string_forall is_digit s = true -> exists u, NilEmpty.uint_of_string s = Some u.
Proof.
  induction s as [|c s IH]; simpl; [now exists Nil|].
  intros [Hc Hs]%andb_true_iff. destruct (IH Hs) as [u Hu].
  destruct (uint_of_string_digit c s u Hc Hu) as (u' & Hu' & _). now exists u'.
Qed.

Lemma parse_decimal_digits_value (s : string) :
  string_forall is_digit s = true -> s <> EmptyString ->
  parse_decimal_digits s = Some (digits_value 0 s).
Proof.
  intros Hd Hne. destruct (digits_parse s Hd) as [u Hu].
  unfold parse_decimal_digits. destruct s; [congruence|].
  rewrite Hu. cbn [option_map]. f_equal. now apply of_uint_value.
Qed.

Lemma digits_value_app (a b : string) (acc : Z) :
  digits_value acc (a +:+ b) = digits_value (digits_value acc a) b.
Proof.
  revert acc. induction a as [|c a IH]; intros acc; [reflexivity|].
  rewrite append_String. simpl. apply IH.
Qed.

Lemma digits_value_zeros (n : nat) (acc : Z) :
  digits_value acc (repeat_char "0" n) = acc * 10 ^ Z.of_nat n.
Proof.
  revert acc. induction n as [|n IH]; intros acc.
  - simpl. lia.
  - cbn [repeat_char digits_value]. rewrite IH.
    change (Z.of_N (N_of_ascii "0") - 48) with 0.
    rewrite Nat2Z.inj_succ, Z.pow_succ_r by lia. lia.
Qed.

(** A string of digits is worth at least its first digits shifted left, and
    less than the next number there. *)
Lemma digits_value_bounds (s : string) (acc : Z) :
  string_forall is_digit s = true -> 0 <= acc ->
  acc * 10 ^ Z.of_nat (String.length s) <= digits_value acc s
    < (acc + 1) * 10 ^ Z.of_nat (String.length s).
Proof.
  revert acc. induction s as [|c s IH]; intros acc Hd Hacc.
  - simpl. lia.
  - simpl in Hd. apply andb_true_iff in Hd as [Hc Hs].
    assert (Hdigit : 0 <= Z.of_N (N_of_ascii c) - 48 <= 9).
    { unfold is_digit in Hc. apply andb_true_iff in Hc as [Hlo Hhi].
      apply N.leb_le in Hlo, Hhi. lia. }
    cbn [digits_value String.length].
    specialize (IH (10 * acc + (Z.of_N (N_of_ascii c) - 48)) Hs ltac:(lia)).
    rewrite Nat2Z.inj_succ, Z.pow_succ_r by lia.
    assert (0 < 10 ^ Z.of_nat (String.length s)) by (apply Z.pow_pos_nonneg; lia).
    nia.
Qed.

Lemma string_of_uint_length (u : uint) :
  String.length (NilEmpty.string_of_uint u) = nb_digits u.
Proof. induction u; simpl; congruence. Qed.

(** The numeral of a positive integer does not start with a zero. *)
Lemma to_uint_no_leading_zero (p : positive) (u : uint) : Pos.to_uint p <> D0 u.
Proof.
  intros H.
  pose proof (DecimalPos.Unsigned.to_of (Pos.to_uint p)) as Hnorm.
  rewrite DecimalPos.Unsigned.of_to in Hnorm. simpl in Hnorm.
  rewrite H in Hnorm at 2. rewrite DecimalFacts.unorm_D0 in Hnorm.
  destruct u as [| | | | | | | | | |] eqn:Eu;
    try (assert (Hn : u <> Nil) by (subst u; discriminate);
         pose proof (DecimalFacts.nb_digits_unorm u Hn) as Hlen;
         subst u; rewrite <- Hnorm, H in Hlen; simpl in Hlen; lia).
  subst u. now apply (DecimalPos.Unsigned.to_uint_nonzero p).
Qed.

(** An integer below [10^d] prints in at most [d] digits. *)
Lemma BigInt_toString_length (r d : Z) :
  0 <= r < 10 ^ d -> 0 < d ->
  Z.of_nat (String.length (BigInt_toString r)) <= d.
Proof.
  intros [Hr Hlt] Hd. destruct r as [|p|p]; [simpl; lia| |lia].
  assert (Hs : BigInt_toString (Z.pos p) = NilEmpty.string_of_uint (Pos.to_uint p)).
  { unfold BigInt_toString. simpl.
    pose proof (DecimalPos.Unsigned.to_uint_nonnil p).
    destruct (Pos.to_uint p); try reflexivity; congruence. }
  pose proof (StringToBigInt_toString (Z.pos p)) as Hparse.
  pose proof (BigInt_toString_digits (Z.pos p) Hr) as Hdigits.
  pose proof (BigInt_toString_nonempty (Z.pos p)) as Hne.
  rewrite (StringToBigInt_digits _ Hdigits Hne) in Hparse.
  rewrite (parse_decimal_digits_value _ Hdigits Hne) in Hparse.
  injection Hparse as Hvalue.
  rewrite Hs in *.
  destruct (Pos.to_uint p) as [|u|u|u|u|u|u|u|u|u|u] eqn:Eu;
    [exfalso; now apply Hne|exfalso; exact (to_uint_no_leading_zero p u Eu)|..];
    cbn [NilEmpty.string_of_uint string_forall] in Hdigits;
    apply andb_true_iff in Hdigits as [_ Hrest];
    cbn [NilEmpty.string_of_uint digits_value] in Hvalue;
    match type of Hvalue with
    | digits_value ?acc ?s = _ =>
        pose proof (digits_value_bounds s acc Hrest ltac:(simpl; lia)) as [Hlow _]
    end;
    rewrite Hvalue in Hlow; cbn [NilEmpty.string_of_uint String.length];
    assert (Hpow : 10 ^ Z.of_nat (String.length (NilEmpty.string_of_uint u)) < 10 ^ d)
      by (simpl in Hlow;
          assert (0 < 10 ^ Z.of_nat (String.length (NilEmpty.string_of_uint u)))
            by (apply Z.pow_pos_nonneg; lia); nia);
    apply Z.pow_lt_mono_r_iff in Hpow; lia.
Qed.

Lemma repeat_char_length (c : ascii) (n : nat) : String.length (repeat_char c n) = n.
Proof. induction n; simpl; congruence. Qed.

Lemma append_length (a b : string) :
  String.length (a +:+ b) = (String.length a + String.length b)%nat.
Proof. induction a as [|c a IH]; [reflexivity|]. rewrite append_String. simpl. now rewrite IH. Qed.

(** The remainder padded to [d] digits has [d] digits and the value of the
    remainder. *)
Lemma padStart_remainder (r d : Z) :
  0 <= r < 10 ^ d -> 0 < d ->
  let padded := padStart (BigInt_toString r) d in
  Z.of_nat (String.length padded) = d /\
  string_forall is_digit padded = true /\
  digits_value 0 padded = r.
Proof.
  intros Hr Hd padded. pose proof (BigInt_toString_length r d Hr Hd) as Hlen.
  pose proof (BigInt_toString_digits r (proj1 Hr)) as Hdigits.
  pose proof (BigInt_toString_nonempty r) as Hne.
  unfold padded, padStart. split; [|split].
  - rewrite append_length, repeat_char_length. lia.
  - now apply padStart_digits.
  - rewrite digits_value_app, digits_value_zeros, Z.mul_0_l.
    pose proof (StringToBigInt_toString r) as Hparse.
    rewrite (StringToBigInt_digits _ Hdigits Hne) in Hparse.
    rewrite (parse_decimal_digits_value _ Hdigits Hne) in Hparse. congruence.
Qed.

(** What [strip_trailing_zeros] drops is zeros, at the end. *)
Lemma strip_trailing_zeros_decompose (s : string) :
  s = strip_trailing_zeros s
      +:+ repeat_char "0" (String.length s - String.length (strip_trailing_zeros s)).
Proof.
  induction s as [|c s IH]; [reflexivity|].
  cbn [strip_trailing_zeros].
  destruct (strip_trailing_zeros s) as [|c' s'] eqn:E.
  - rewrite append_empty in IH.
    replace (String.length s - String.length "")%nat with (String.length s)
      in IH by (simpl; lia).
    destruct (Ascii.eqb c "0") eqn:Hc.
    + apply Ascii.eqb_eq in Hc. subst c. rewrite append_empty.
      replace (String.length (String "0" s) - String.length "")%nat
        with (S (String.length s)) by (simpl; lia).
      cbn [repeat_char]. now f_equal.
    + rewrite append_String, append_empty.
      replace (String.length (String c s) - String.length (String c ""))%nat
        with (String.length s) by (simpl; lia).
      now f_equal.
  - rewrite append_String. f_equal. exact IH.
Qed.

Lemma strip_trailing_zeros_length (s : string) :
  (String.length (strip_trailing_zeros s) <= String.length s)%nat.
Proof.
  rewrite (strip_trailing_zeros_decompose s) at 2. rewrite append_length. lia.
Qed.

Lemma strip_trailing_zeros_idempotent (s : string) :
  strip_trailing_zeros (strip_trailing_zeros s) = strip_trailing_zeros s.
Proof.
  induction s as [|c s IH]; [reflexivity|].
  cbn [strip_trailing_zeros].
  destruct (strip_trailing_zeros s) as [|c' s'] eqn:E.
  - destruct (Ascii.eqb c "0") eqn:Hc; [reflexivity|]. simpl. now rewrite Hc.
  - cbn [strip_trailing_zeros]. fold strip_trailing_zeros.
    cbn [strip_trailing_zeros] in IH. fold strip_trailing_zeros in IH. now rewrite IH.
Qed.

(** The fraction [formatAtomicAmount] prints for a remainder: at most [d]
    digits, without a zero at the end, worth the remainder once scaled back
    to [d] places. *)
Lemma printed_fraction (r d : Z) :
  0 <= r < 10 ^ d -> 0 < d ->
  let fraction := strip_trailing_zeros (padStart (BigInt_toString r) d) in
  string_forall is_digit fraction = true /\
  Z.of_nat (String.length fraction) <= d /\
  strip_trailing_zeros fraction = fraction /\
  digits_value 0 fraction * 10 ^ (d - Z.of_nat (String.length fraction)) = r.
Proof.
  intros Hr Hd fraction.
  destruct (padStart_remainder r d Hr Hd) as (Hlen & Hdigits & Hvalue).
  pose proof (strip_trailing_zeros_length (padStart (BigInt_toString r) d)) as Hle.
  fold fraction in Hle.
  split; [now apply strip_trailing_zeros_forall|].
  split; [lia|].
  split; [apply strip_trailing_zeros_idempotent|].
  rewrite (strip_trailing_zeros_decompose (padStart (BigInt_toString r) d)) in Hvalue.
  fold fraction in Hvalue.
  rewrite digits_value_app, digits_value_zeros in Hvalue.
  rewrite <- Hvalue. f_equal. f_equal. lia.
Qed.

Lemma is_digit_no_point (c : ascii) : is_digit c = true -> no_point c = true.
Proof. destruct c as [[] [] [] [] [] [] [] []]; vm_compute; congruence. Qed.

Lemma point_free (s : string) :
  string_forall no_point s = true -> before_point s = s /\ after_point s = EmptyString.
Proof.
  induction s as [|c s IH]; simpl; [now split|].
  unfold no_point at 1. intros [Hc Hs]%andb_true_iff.
  destruct (Ascii.eqb c "."); [discriminate|].
  destruct (IH Hs) as [-> ->]. now split.
Qed.

Lemma point_split (whole fraction : string) :
  string_forall no_point whole = true ->
  before_point (whole +:+ "." +:+ fraction) = whole /\
  after_point (whole +:+ "." +:+ fraction) = fraction.
Proof.
  induction whole as [|c whole IH]; [now split|].
  rewrite append_String. simpl. unfold no_point at 1. intros [Hc Hs]%andb_true_iff.
  destruct (Ascii.eqb c "."); [discriminate|].
  destruct (IH Hs) as [-> ->]. now split.
Qed.

(** On a non-empty string of digits [safeParseAtomic] gives the value. *)
Lemma safeParseAtomic_digits (s : string) :
  string_forall is_digit s = true -> s <> EmptyString ->
  safeParseAtomic (JString s) = Normal (Some (digits_value 0 s)).
Proof.
  intros Hd Hne. rewrite safeParseAtomic_string.
  rewrite trim_no_whitespace
    by (eapply string_forall_impl; [apply is_digit_not_whitespace|exact Hd]).
  rewrite (StringToBigInt_digits s Hd Hne), (parse_decimal_digits_value s Hd Hne).
  now destruct s.
Qed.

(** The magnitude [formatAtomicAmount] prints reads back. *)
Lemma read_magnitude_printed (a d : Z) :
  0 <= a -> 0 < d ->
  read_magnitude d
    (if a mod 10 ^ d =? 0 then BigInt_toString (a / 10 ^ d)
     else BigInt_toString (a / 10 ^ d) +:+ "." +:+
          strip_trailing_zeros (padStart (BigInt_toString (a mod 10 ^ d)) d))
  = Some a.
Proof.
  intros Ha Hd.
  assert (Hp : 0 < 10 ^ d) by (apply Z.pow_pos_nonneg; lia).
  assert (Hq : 0 <= a / 10 ^ d) by (apply Z.div_pos; lia).
  assert (Hr : 0 <= a mod 10 ^ d < 10 ^ d) by (apply Z.mod_pos_bound; lia).
  pose proof (Z.div_mod a (10 ^ d) ltac:(lia)) as Hdm.
  pose proof (BigInt_toString_digits _ Hq) as Hwd.
  pose proof (BigInt_toString_nonempty (a / 10 ^ d)) as Hwne.
  assert (Hwp : string_forall no_point (BigInt_toString (a / 10 ^ d)) = true)
    by (eapply string_forall_impl; [apply is_digit_no_point|exact Hwd]).
  assert (Hwv : parse_decimal_digits (BigInt_toString (a / 10 ^ d)) = Some (a / 10 ^ d)).
  { rewrite <- (StringToBigInt_digits _ Hwd Hwne). apply StringToBigInt_toString. }
  unfold read_magnitude.
  destruct (a mod 10 ^ d =? 0) eqn:Hz.
  - apply Z.eqb_eq in Hz. destruct (point_free _ Hwp) as [-> ->].
    rewrite Hwv. f_equal. lia.
  - apply Z.eqb_neq in Hz.
    destruct (point_split _ (strip_trailing_zeros
                               (padStart (BigInt_toString (a mod 10 ^ d)) d)) Hwp)
      as [-> ->].
    rewrite Hwv.
    destruct (printed_fraction (a mod 10 ^ d) d Hr Hd) as (Hfd & Hfl & _ & Hfv).
    destruct (strip_trailing_zeros (padStart (BigInt_toString (a mod 10 ^ d)) d))
      as [|c f] eqn:Ef.
    + exfalso. apply Hz. apply (padded_fraction_empty (a mod 10 ^ d) d); [lia|exact Ef].
    + rewrite (parse_decimal_digits_value _ Hfd) by discriminate.
      f_equal. rewrite Hfv. lia.
Qed.

(** ** Integer literals, by their characters *)

Lemma digit_value_hex (c : ascii) :
  digit_value 16 c = if is_hex_digit c then Some (digit_worth c) else None.
Proof. destruct c as [[] [] [] [] [] [] [] []]; reflexivity. Qed.

Lemma digit_value_octal (c : ascii) :
  digit_value 8 c = if is_octal_digit c then Some (digit_worth c) else None.
Proof. destruct c as [[] [] [] [] [] [] [] []]; reflexivity. Qed.

Lemma digit_value_binary (c : ascii) :
  digit_value 2 c = if is_binary_digit c then Some (digit_worth c) else None.
Proof. destruct c as [[] [] [] [] [] [] [] []]; reflexivity. Qed.

(** The digits of a radix are read as the number they write. *)
Lemma parse_radix_digits_written (radix : Z) (kind : ascii -> bool) :
  (forall c, digit_value radix c = if kind c then Some (digit_worth c) else None) ->
  forall s acc,
    parse_radix_digits radix acc s =
      if string_forall kind s
      then Some (acc * radix ^ Z.of_nat (String.length s) + written_number radix s)
      else None.
Proof.
  intros Hkind. induction s as [|c s IH]; intros acc.
  - simpl. f_equal. lia.
  - cbn [parse_radix_digits string_forall written_number String.length].
    rewrite Hkind. destruct (kind c); [|reflexivity]. rewrite IH. cbn [andb].
    destruct (string_forall kind s); [|reflexivity].
    f_equal. rewrite Nat2Z.inj_succ, Z.pow_succ_r by lia. ring.
Qed.

Lemma parse_radix_literal_written (radix : Z) (kind : ascii -> bool) (s : string) :
  (forall c, digit_value radix c = if kind c then Some (digit_worth c) else None) ->
  parse_radix_literal radix s =
    if some_of kind s then Some (written_number radix s) else None.
Proof.
  intros Hkind. unfold parse_radix_literal, some_of.
  destruct s as [|c s]; [reflexivity|].
  rewrite (parse_radix_digits_written radix kind Hkind). cbn [string_truthy andb].
  now destruct (string_forall kind (String c s)).
Qed.

Lemma digits_value_written (s : string) (acc : Z) :
  string_forall is_digit s = true ->
  digits_value acc s = acc * 10 ^ Z.of_nat (String.length s) + written_number 10 s.
Proof.
  revert acc. induction s as [|c s IH]; intros acc Hs.
  - simpl. lia.
  - simpl in Hs. apply andb_true_iff in Hs as [Hc Hs].
    cbn [digits_value written_number String.length]. rewrite (IH _ Hs).
    assert (Hworth : digit_worth c = Z.of_N (N_of_ascii c) - 48).
    { unfold is_digit in Hc. apply andb_true_iff in Hc as [_ Hhigh].
      apply N.leb_le in Hhigh. unfold digit_worth. cbn zeta.
      now rewrite (proj2 (Z.leb_le (Z.of_N (N_of_ascii c)) 57)) by lia. }
    rewrite Hworth, Nat2Z.inj_succ, Z.pow_succ_r by lia. ring.
Qed.

Lemma parse_decimal_digits_written (s : string) :
  parse_decimal_digits s =
    if some_of is_digit s then Some (written_number 10 s) else None.
Proof.
  unfold some_of. destruct s as [|c s]; [reflexivity|]. cbn [string_truthy andb].
  destruct (string_forall is_digit (String c s)) eqn:Hdigits.
  - rewrite (parse_decimal_digits_value _ Hdigits) by discriminate.
    now rewrite (digits_value_written _ 0 Hdigits).
  - unfold parse_decimal_digits.
    destruct (NilEmpty.uint_of_string (String c s)) as [u|] eqn:Hu; [|reflexivity].
    apply uint_of_string_digits in Hu. congruence.
Qed.

Lemma parse_negative_written (s : string) :
  option_map Z.opp (parse_decimal_digits s) =
    if some_of is_digit s then Some (- written_number 10 s) else None.
Proof. rewrite parse_decimal_digits_written. now destruct (some_of is_digit s). Qed.

(** The literals [StrIntegerLiteral] takes are the well-formed integer
    strings, and it reads each as the integer it writes. *)
Lemma StrIntegerLiteral_characters (text : string) :
  StrIntegerLiteral text =
    if is_integer_literal text then Some (integer_literal_value text) else None.
Proof.
  pose proof (fun s => parse_radix_literal_written 16 is_hex_digit s digit_value_hex) as Hhex.
  pose proof (fun s => parse_radix_literal_written 8 is_octal_digit s digit_value_octal)
    as Hoctal.
  pose proof (fun s => parse_radix_literal_written 2 is_binary_digit s digit_value_binary)
    as Hbinary.
  destruct text as [|c1 text]; [reflexivity|].
  destruct c1 as [[] [] [] [] [] [] [] []];
    try apply parse_decimal_digits_written;
    try apply parse_negative_written.
  destruct text as [|c2 text]; [reflexivity|].
  destruct c2 as [[] [] [] [] [] [] [] []];
    first [ apply Hhex | apply Hoctal | apply Hbinary
          | apply (parse_decimal_digits_written (String "0" (String _ text))) ].
Qed.

(** A string is read as the integer its trimmed text writes when that text
    is a well-formed integer string, and as null otherwise. *)
Lemma safeParseAtomic_characters (s : string) :
  safeParseAtomic (JString s) =
    Normal (if is_integer_literal (trim s)
            then Some (integer_literal_value (trim s)) else None).
Proof.
  rewrite safeParseAtomic_string. unfold StringToBigInt. rewrite trim_idempotent.
  destruct (trim s) as [|c text] eqn:Htrim; [reflexivity|].
  cbn [string_truthy]. now rewrite StrIntegerLiteral_characters.
Qed.

Lemma literal_chars_of_kind (kind : ascii -> bool) (s : string) :
  (forall c, kind c = true -> literal_char c = true) ->
  some_of kind s = true -> string_forall literal_char s = true.
Proof.
  intros Hkind [_ Hs]%andb_true_iff.
  eapply string_forall_impl; [exact Hkind|exact Hs].
Qed.

Lemma hex_literal_char (c : ascii) : is_hex_digit c = true -> literal_char c = true.
Proof. unfold literal_char. now intros ->. Qed.

Lemma octal_literal_char (c : ascii) : is_octal_digit c = true -> literal_char c = true.
Proof. destruct c as [[] [] [] [] [] [] [] []]; try discriminate; reflexivity. Qed.

Lemma binary_literal_char (c : ascii) : is_binary_digit c = true -> literal_char c = true.
Proof. destruct c as [[] [] [] [] [] [] [] []]; try discriminate; reflexivity. Qed.

Lemma digit_literal_char (c : ascii) : is_digit c = true -> literal_char c = true.
Proof. destruct c as [[] [] [] [] [] [] [] []]; try discriminate; reflexivity. Qed.

(** A well-formed integer string holds no other characters than those of
    the literals. *)
Lemma is_integer_literal_chars (text : string) :
  is_integer_literal text = true -> string_forall literal_char text = true.
Proof.
  pose proof (fun s => literal_chars_of_kind is_hex_digit s hex_literal_char) as Hhex.
  pose proof (fun s => literal_chars_of_kind is_octal_digit s octal_literal_char) as Hoctal.
  pose proof (fun s => literal_chars_of_kind is_binary_digit s binary_literal_char) as Hbinary.
  pose proof (fun s => literal_chars_of_kind is_digit s digit_literal_char) as Hdigit.
  destruct text as [|c1 text]; [reflexivity|].
  destruct c1 as [[] [] [] [] [] [] [] []];
    try (intros H; apply (Hdigit _ H));
    try (intros H; cbn [string_forall]; rewrite (Hdigit _ H); reflexivity).
  destruct text as [|c2 text]; [reflexivity|].
  destruct c2 as [[] [] [] [] [] [] [] []];
    try (intros H; apply (Hdigit _ H));
    intros H; cbn [string_forall];
    first [ rewrite (Hhex _ H) | rewrite (Hoctal _ H) | rewrite (Hbinary _ H) ];
    reflexivity.
Qed.

(** C8.  [safeParseAtomic] answers null, and does not throw, on the empty
    string, on a number that is not finite and on a malformed string: a
    string is read as the integer it writes when, once trimmed, it is a
    well-formed integer string (decimal digits, signed or not, or the
    digits of the radix after 0x, 0o or 0b), and as null when it is not, so
    on any string that holds a point or another character that no integer
    literal has, and on exponents, separators and suffixes.  It answers the
    very integer on a bigint and on what a bigint prints, and on a finite
    number the number truncated toward zero. *)
Theorem safeParseAtomic_null_or_exact :
  safeParseAtomic (JString "") = Normal None /\
  (forall x, Number_isFinite x = false -> safeParseAtomic (JNumber x) = Normal None) /\
  (forall s,
     safeParseAtomic (JString s) =
       Normal (if is_integer_literal (trim s)
               then Some (integer_literal_value (trim s)) else None)) /\
  (forall s,
     string_forall literal_char (trim s) = false ->
     safeParseAtomic (JString s) = Normal None) /\
  (forall before after,
     safeParseAtomic (JString (before +:+ "." +:+ after)) = Normal None) /\
  (forall s, StringToBigInt (trim s) = None -> safeParseAtomic (JString s) = Normal None) /\
  (safeParseAtomic (JString "12.5") = Normal None /\
   safeParseAtomic (JString "1e3") = Normal None /\
   safeParseAtomic (JString "abc") = Normal None /\
   safeParseAtomic (JString "1,000") = Normal None /\
   safeParseAtomic (JString "1_000") = Normal None /\
   safeParseAtomic (JString "12n") = Normal None /\
   safeParseAtomic (JString "1 2") = Normal None /\
   safeParseAtomic (JString "0x") = Normal None /\
   safeParseAtomic (JString "0xg") = Normal None /\
   safeParseAtomic (JString "0o8") = Normal None /\
   safeParseAtomic (JString "0b2") = Normal None /\
   safeParseAtomic (JString "-0x10") = Normal None /\
   safeParseAtomic (JString "+-1") = Normal None /\
   safeParseAtomic (JString "Infinity") = Normal None /\
   safeParseAtomic (JString "-") = Normal None) /\
  (safeParseAtomic (JString "0x10") = Normal (Some 16) /\
   safeParseAtomic (JString "0XfF") = Normal (Some 255) /\
   safeParseAtomic (JString "0o17") = Normal (Some 15) /\
   safeParseAtomic (JString "0b101") = Normal (Some 5) /\
   safeParseAtomic (JString "007") = Normal (Some 7) /\
   safeParseAtomic (JString "+7") = Normal (Some 7) /\
   safeParseAtomic (JString "-15") = Normal (Some (-15)) /\
   safeParseAtomic (JString "-0") = Normal (Some 0) /\
   safeParseAtomic (JString " 42 ") = Normal (Some 42)) /\
  (forall z, safeParseAtomic (JBigInt z) = Normal (Some z)) /\
  (forall z, safeParseAtomic (JString (BigInt_toString z)) = Normal (Some z)) /\
  (forall u, u <> Nil ->
     let digits := NilEmpty.string_of_uint u in
     safeParseAtomic (JString digits) = Normal (Some (Z.of_uint u)) /\
     safeParseAtomic (JString (String "+" digits)) = Normal (Some (Z.of_uint u)) /\
     safeParseAtomic (JString (String "-" digits)) = Normal (Some (- Z.of_uint u))) /\
  (forall s m e, exists t,
     safeParseAtomic (JNumber (S754_finite s m e)) = Normal (Some t) /\
     truncation_of s m e t) /\
  (forall s, safeParseAtomic (JNumber (S754_zero s)) = Normal (Some 0)).
Proof.
  assert (Hchars : forall s,
            string_forall literal_char (trim s) = false ->
            safeParseAtomic (JString s) = Normal None).
  { intros s Hs. rewrite safeParseAtomic_characters.
    destruct (is_integer_literal (trim s)) eqn:Hliteral; [|reflexivity].
    apply is_integer_literal_chars in Hliteral. congruence. }
  split; [reflexivity|].
  split; [intros [s|[|]| |s m e] Hx; try discriminate Hx; reflexivity|].
  split; [exact safeParseAtomic_characters|].
  split; [exact Hchars|].
  split.
  { intros before after. apply Hchars.
    destruct (string_forall literal_char (trim (before +:+ "." +:+ after))) eqn:Hall;
      [|reflexivity].
    exfalso. unfold trim in Hall.
    destruct (trimStart_decompose (before +:+ "." +:+ after)) as (ws1 & Hws1 & Hs1).
    destruct (trimEnd_decompose (trimStart (before +:+ "." +:+ after)))
      as (ws2 & Hws2 & Hs2).
    assert (Hpoint : string_forall (fun c => literal_char c || is_whitespace c)
                       (before +:+ "." +:+ after) = true).
    { rewrite Hs1, Hs2, !string_forall_app.
      rewrite (string_forall_impl is_whitespace _ ws1) by (exact Hws1 || (intros c ->; apply orb_true_r)).
      rewrite (string_forall_impl is_whitespace _ ws2) by (exact Hws2 || (intros c ->; apply orb_true_r)).
      rewrite (string_forall_impl literal_char _ _) by (exact Hall || (intros c ->; reflexivity)).
      reflexivity. }
    rewrite !string_forall_app in Hpoint.
    apply andb_true_iff in Hpoint as [_ Hpoint].
    apply andb_true_iff in Hpoint as [Hpoint _]. discriminate Hpoint. }
  split.
  { intros s Hs. rewrite safeParseAtomic_string, Hs. now destruct (string_truthy _). }
  split; [repeat split; reflexivity|].
  split; [repeat split; reflexivity|].
  split; [reflexivity|].
  split.
  { apply safeParseAtomic_toString. }
  split.
  { intros u Hu digits.
    assert (Hd : string_forall is_digit digits = true) by apply string_of_uint_digits.
    assert (Hw : string_forall not_whitespace digits = true)
      by (eapply string_forall_impl; [apply is_digit_not_whitespace|exact Hd]).
    assert (Hne : digits <> EmptyString) by now apply string_of_uint_nonempty.
    assert (Hp : parse_decimal_digits digits = Some (Z.of_uint u))
      by now apply parse_decimal_digits_of_uint.
    repeat split; rewrite safeParseAtomic_string.
    - rewrite (trim_no_whitespace digits Hw), (StringToBigInt_digits digits Hd Hne), Hp.
      now destruct digits.
    - rewrite (trim_no_whitespace (String "+" digits)) by exact Hw.
      unfold StringToBigInt. rewrite (trim_no_whitespace (String "+" digits)) by exact Hw.
      simpl. now rewrite Hp.
    - rewrite (trim_no_whitespace (String "-" digits)) by exact Hw.
      unfold StringToBigInt. rewrite (trim_no_whitespace (String "-" digits)) by exact Hw.
      simpl. now rewrite Hp. }
  split.
  { intros s m e. destruct (Math_trunc_truncates s m e) as (t & Ht & Hspec).
    exists t. split; [|exact Hspec].
    unfold safeParseAtomic. cbn [nullish as_bigint as_finite_number Number_isFinite].
    now rewrite Ht. }
  reflexivity.
Qed.

(** ** The specification's digits *)

Lemma string_snoc (s : string) :
  s <> EmptyString ->
  exists init c,
    s = init +:+ String c EmptyString /\ String.length s = S (String.length init).
Proof.
  induction s as [|a s IH]; [congruence|]. intros _.
  destruct s as [|b s].
  - exists EmptyString, a. split; reflexivity.
  - destruct IH as (init & c & Hs & Hlen); [discriminate|].
    exists (String a init), c. rewrite append_String, <- Hs. split; [reflexivity|].
    simpl in *. now rewrite Hlen.
Qed.

Lemma digit_char_digit (c : ascii) :
  is_digit c = true -> digit_char (Z.of_N (N_of_ascii c) - 48) = c.
Proof.
  intros Hc. unfold is_digit in Hc. apply andb_true_iff in Hc as [Hlow Hhigh].
  apply N.leb_le in Hlow, Hhigh. unfold digit_char.
  replace (Z.to_N (48 + (Z.of_N (N_of_ascii c) - 48))) with (N_of_ascii c) by lia.
  apply ascii_N_embedding.
Qed.

Lemma digit_char_zero (n : Z) :
  0 <= n < 10 -> Ascii.eqb (digit_char n) "0" = (n =? 0).
Proof.
  intros Hn. unfold digit_char.
  assert (Hnat : exists k, (k < 10)%nat /\ n = Z.of_nat k)
    by (exists (Z.to_nat n); lia).
  destruct Hnat as (k & Hk & ->).
  do 10 (destruct k as [|k]; [reflexivity|]). lia.
Qed.

(** A string of digits is its value written with as many digits. *)
Lemma digits_zero_padded (width : nat) (s : string) :
  String.length s = width -> string_forall is_digit s = true ->
  s = zero_padded width (digits_value 0 s).
Proof.
  revert s. induction width as [|width IH]; intros s Hlen Hdigits.
  - now destruct s.
  - destruct (string_snoc s) as (init & c & -> & Hs); [now destruct s|].
    rewrite string_forall_app in Hdigits. apply andb_true_iff in Hdigits as [Hinit Hc].
    simpl in Hc. rewrite andb_true_r in Hc.
    rewrite digits_value_app. cbn [digits_value zero_padded].
    assert (Hrange : 0 <= Z.of_N (N_of_ascii c) - 48 < 10).
    { unfold is_digit in Hc. apply andb_true_iff in Hc as [Hlow Hhigh].
      apply N.leb_le in Hlow, Hhigh. lia. }
    set (v := digits_value 0 init) in *. set (k := Z.of_N (N_of_ascii c) - 48) in *.
    assert (Hdiv : (10 * v + k) / 10 = v).
    { rewrite Z.mul_comm, Z.div_add_l by lia. rewrite (Z.div_small k 10) by lia. lia. }
    assert (Hmod : (10 * v + k) mod 10 = k).
    { rewrite Z.add_comm, Z.mul_comm, Z.mod_add by lia. now apply Z.mod_small. }
    rewrite Hdiv, Hmod. unfold k. rewrite (digit_char_digit c Hc).
    f_equal. apply IH; [lia|exact Hinit].
Qed.

(** The padding of the code is the padding of the specification. *)
Lemma padStart_zero_padded (r d : Z) :
  0 <= r < 10 ^ d -> 0 < d ->
  padStart (BigInt_toString r) d = zero_padded (Z.to_nat d) r.
Proof.
  intros Hr Hd. destruct (padStart_remainder r d Hr Hd) as (Hlen & Hdigits & Hvalue).
  rewrite (digits_zero_padded (Z.to_nat d) (padStart (BigInt_toString r) d)); [|lia|exact Hdigits].
  now rewrite Hvalue.
Qed.

Lemma strip_trailing_zeros_snoc (s : string) (c : ascii) :
  strip_trailing_zeros (s +:+ String c EmptyString) =
    if Ascii.eqb c "0" then strip_trailing_zeros s else s +:+ String c EmptyString.
Proof.
  induction s as [|a s IH].
  - rewrite append_empty. simpl. now destruct (Ascii.eqb c "0").
  - rewrite append_String. simpl. rewrite IH.
    destruct (Ascii.eqb c "0"); [reflexivity|].
    now destruct s.
Qed.

(** And so is the stripping. *)
Lemma strip_zero_padded (width : nat) (n : Z) :
  strip_trailing_zeros (zero_padded width n) = fraction_digits width n.
Proof.
  revert n. induction width as [|width IH]; intros n; [reflexivity|].
  cbn [zero_padded fraction_digits]. rewrite strip_trailing_zeros_snoc.
  rewrite digit_char_zero by (apply Z.mod_pos_bound; lia).
  destruct (n mod 10 =? 0); [apply IH|reflexivity].
Qed.

Lemma printed_fraction_digits (r d : Z) :
  0 <= r < 10 ^ d -> 0 < d ->
  strip_trailing_zeros (padStart (BigInt_toString r) d) = fraction_digits (Z.to_nat d) r.
Proof. intros Hr Hd. now rewrite padStart_zero_padded, strip_zero_padded. Qed.

(** What the code builds is what the specification describes. *)
Lemma formatAtomicAmount_result_spec (amount d : Z) :
  formatAtomicAmount_result amount d = formatAtomic_spec amount d.
Proof.
  unfold formatAtomicAmount_result, formatAtomic_spec.
  destruct (d <=? 0) eqn:Hd; [reflexivity|]. apply Z.leb_gt in Hd.
  assert (Hp : 0 < 10 ^ d) by (apply Z.pow_pos_nonneg; lia).
  assert (Hr : 0 <= Z.abs amount mod 10 ^ d < 10 ^ d) by (apply Z.mod_pos_bound; lia).
  cbn zeta. rewrite <- (printed_fraction_digits _ d Hr Hd).
  pose proof (padded_fraction_empty (Z.abs amount mod 10 ^ d) d (proj1 Hr)) as Hempty.
  destruct (Z.abs amount mod 10 ^ d =? 0) eqn:Hz.
  - apply Z.eqb_eq in Hz. now rewrite (proj2 Hempty Hz).
  - apply Z.eqb_neq in Hz.
    destruct (strip_trailing_zeros _) eqn:E; [|reflexivity].
    exfalso. apply Hz. now apply Hempty.
Qed.

(** C1.  For every amount and all integer decimals whose power of ten the
    engine holds, [formatAtomicAmount] returns the integer as it is when the
    decimals are at most zero, and otherwise the quotient of the magnitude
    by [10^decimals], then, when the remainder is not zero, a point and the
    remainder padded with zeros to [decimals] digits and stripped of its
    trailing zeros, with one minus sign before the whole when the amount is
    negative.  The fraction of the specification is empty exactly when the
    remainder is zero, has at most [decimals] digits, and is worth the
    remainder once scaled back to [decimals] places.  So 1234567 at 6
    decimals is 1.234567, 1000000 is 1, 0 is 0, -500000 is -0.5, and 1000001
    is 1.000001 and 50 is 0.00005, with the zeros of the padding.  On
    decimals above zero whose power of ten the engine does not hold, or that
    are no integer, it throws a [RangeError]. *)
Theorem formatAtomicAmount_correct :
  (forall amount d,
     (0 < d -> BigInt_pow_fits 10 d = true) ->
     formatAtomicAmount amount (number_of_Z d) = Normal (formatAtomic_spec amount d)) /\
  (forall amount d,
     0 < d -> BigInt_pow_fits 10 d = false ->
     formatAtomicAmount amount (number_of_Z d) = Throw RangeError) /\
  (forall amount x,
     Number_le_zero x = false -> number_to_Z x = None ->
     formatAtomicAmount amount x = Throw RangeError) /\
  (forall r d,
     0 < d -> 0 <= r < 10 ^ d ->
     let fraction := fraction_digits (Z.to_nat d) r in
     (fraction = EmptyString <-> r = 0) /\
     string_forall is_digit fraction = true /\
     Z.of_nat (String.length fraction) <= d /\
     digits_value 0 fraction * 10 ^ (d - Z.of_nat (String.length fraction)) = r) /\
  (formatAtomic_spec 1234567 6 = "1.234567" /\
   formatAtomic_spec 1000000 6 = "1" /\
   formatAtomic_spec 0 6 = "0" /\
   formatAtomic_spec (-500000) 6 = "-0.5" /\
   formatAtomic_spec 1000001 6 = "1.000001" /\
   formatAtomic_spec 50 6 = "0.00005" /\
   formatAtomic_spec (-7) 0 = "-7") /\
  (BigInt_pow_fits 10 6 = true ->
   formatAtomicAmount 1234567 (number_of_Z 6) = Normal "1.234567" /\
   formatAtomicAmount 1000000 (number_of_Z 6) = Normal "1" /\
   formatAtomicAmount 0 (number_of_Z 6) = Normal "0" /\
   formatAtomicAmount (-500000) (number_of_Z 6) = Normal "-0.5" /\
   formatAtomicAmount 1000001 (number_of_Z 6) = Normal "1.000001" /\
   formatAtomicAmount 50 (number_of_Z 6) = Normal "0.00005" /\
   formatAtomicAmount 1234567 (S754_finite false 6755399441055744 (-50)) = Normal "1.234567").
Proof.
  split.
  { intros amount d Hfits. rewrite <- formatAtomicAmount_result_spec.
    apply formatAtomicAmount_integer; [apply number_to_Z_of_Z|exact Hfits]. }
  split.
  { intros amount d Hd Hfits.
    exact (formatAtomicAmount_beyond amount _ d (number_to_Z_of_Z d) Hd Hfits). }
  split; [exact formatAtomicAmount_not_integer|].
  split.
  { intros r d Hd Hr fraction. unfold fraction.
    rewrite <- (printed_fraction_digits r d Hr Hd).
    destruct (printed_fraction r d Hr Hd) as (Hdigits & Hlen & _ & Hvalue).
    split; [apply padded_fraction_empty; lia|]. auto. }
  split; [repeat split; reflexivity|].
  intros Hfits.
  assert (Hsix : forall amount,
            formatAtomicAmount amount (number_of_Z 6) = Normal (formatAtomic_spec amount 6)).
  { intros amount. rewrite <- formatAtomicAmount_result_spec.
    apply formatAtomicAmount_integer; [apply number_to_Z_of_Z|intros _; exact Hfits]. }
  repeat split; try (rewrite Hsix; reflexivity).
  rewrite (formatAtomicAmount_integer 1234567 _ 6); [reflexivity|reflexivity|].
  intros _. exact Hfits.
Qed.

(** X2.  [formatAtomicAmount] is exact: for every amount and all integer
    decimals whose power of ten the engine holds, the amount is read back
    from the string it returns (the sign, the digits before the point times
    [10^decimals], the digits after it scaled to [decimals] places), so two
    amounts that print alike at the same decimals are the same amount. *)
Theorem formatAtomicAmount_lossless (d : Z) :
  (0 < d -> BigInt_pow_fits 10 d = true) ->
  (forall amount,
     exists text,
       formatAtomicAmount amount (number_of_Z d) = Normal text /\
       read_formatted d text = Some amount) /\
  (forall a b,
     formatAtomicAmount a (number_of_Z d) = formatAtomicAmount b (number_of_Z d) -> a = b).
Proof.
  intros Hfits.
  assert (Hread : forall amount,
            exists text,
              formatAtomicAmount amount (number_of_Z d) = Normal text /\
              read_formatted d text = Some amount).
  { intros amount. exists (formatAtomicAmount_result amount d).
    split; [apply formatAtomicAmount_integer; [apply number_to_Z_of_Z|exact Hfits]|].
    unfold formatAtomicAmount_result, read_formatted.
    destruct (d <=? 0) eqn:Hd; [apply StringToBigInt_toString|].
    apply Z.leb_gt in Hd.
    pose proof (read_magnitude_printed (Z.abs amount) d ltac:(lia) Hd) as Hmag.
    destruct (amount <? 0) eqn:Hneg.
    - apply Z.ltb_lt in Hneg. rewrite append_String, append_empty.
      rewrite Hmag. simpl. f_equal. lia.
    - apply Z.ltb_ge in Hneg. rewrite (Z.abs_eq amount Hneg) in *.
      assert (Hp : 0 < 10 ^ d) by (apply Z.pow_pos_nonneg; lia).
      pose proof (BigInt_toString_digits (amount / 10 ^ d) ltac:(apply Z.div_pos; lia)) as Hwd.
      pose proof (BigInt_toString_nonempty (amount / 10 ^ d)) as Hwne.
      destruct (BigInt_toString (amount / 10 ^ d)) as [|c w] eqn:Ew; [congruence|].
      simpl in Hwd. apply andb_true_iff in Hwd as [Hc _].
      assert (Hminus : Ascii.eqb c "-" = false)
        by (destruct c as [[] [] [] [] [] [] [] []]; try discriminate Hc; reflexivity).
      destruct (amount mod 10 ^ d =? 0); rewrite ?append_String in *;
        destruct c as [[] [] [] [] [] [] [] []]; try discriminate Hminus; exact Hmag. }
  split; [exact Hread|].
  intros a b Heq.
  destruct (Hread a) as (ta & Hta & Hra). destruct (Hread b) as (tb & Htb & Hrb).
  rewrite Heq, Htb in Hta. injection Hta as <-. congruence.
Qed.

(** X3.  With decimals above zero whose power of ten the engine holds and
    a remainder that is not zero, [formatAtomicAmount] prints the sign, the quotient, a point and a
    fraction of at least one and at most [decimals] digits that does not end
    in a zero; [safeParseAtomic] reads the fraction, and the quotient times
    [10^decimals] plus the fraction scaled to [decimals] places is the
    magnitude of the amount. *)
Theorem formatAtomicAmount_fraction (amount d : Z) :
  0 < d -> BigInt_pow_fits 10 d = true -> Z.abs amount mod 10 ^ d <> 0 ->
  exists fraction f,
    formatAtomicAmount amount (number_of_Z d) =
      Normal ((if amount <? 0 then "-" else "") +:+
              BigInt_toString (Z.abs amount / 10 ^ d) +:+ "." +:+ fraction) /\
    fraction <> EmptyString /\
    string_forall is_digit fraction = true /\
    Z.of_nat (String.length fraction) <= d /\
    strip_trailing_zeros fraction = fraction /\
    safeParseAtomic (JString fraction) = Normal (Some f) /\
    Z.abs amount / 10 ^ d * 10 ^ d + f * 10 ^ (d - Z.of_nat (String.length fraction))
      = Z.abs amount.
Proof.
  intros Hd Hfits Hr.
  assert (Hp : 0 < 10 ^ d) by (apply Z.pow_pos_nonneg; lia).
  assert (Hbound : 0 <= Z.abs amount mod 10 ^ d < 10 ^ d) by (apply Z.mod_pos_bound; lia).
  destruct (printed_fraction _ d Hbound Hd) as (Hfd & Hfl & Hfs & Hfv).
  set (fraction := strip_trailing_zeros
                     (padStart (BigInt_toString (Z.abs amount mod 10 ^ d)) d)) in *.
  assert (Hne : fraction <> EmptyString).
  { intros He. apply Hr. now apply (padded_fraction_empty _ d (proj1 Hbound)). }
  exists fraction, (digits_value 0 fraction).
  split.
  { rewrite (formatAtomicAmount_integer amount _ d (number_to_Z_of_Z d) (fun _ => Hfits)).
    unfold formatAtomicAmount_result. rewrite (proj2 (Z.leb_gt d 0) Hd).
    rewrite (proj2 (Z.eqb_neq _ 0) Hr). fold fraction.
    destruct (amount <? 0); [now rewrite append_String, append_empty|now rewrite append_empty]. }
  repeat (split; [assumption|]).
  split; [now apply safeParseAtomic_digits|].
  rewrite Hfv. pose proof (Z.div_mod (Z.abs amount) (10 ^ d) ltac:(lia)). lia.
Qed.

(** ** More on the window and its totals *)

Lemma prune_is_filter (cutoff : Z) (window : list SettlementEntry) :
  in_timestamp_order window ->
  prune cutoff window = List.filter (fun entry => cutoff <=? timestamp entry) window.
Proof.
  unfold in_timestamp_order.
  induction window as [|entry rest IH]; [reflexivity|].
  simpl. intros [Hlater Hrest].
  destruct (timestamp entry <? cutoff) eqn:E.
  - apply Z.ltb_lt in E. rewrite (proj2 (Z.leb_gt cutoff (timestamp entry)) E).
    now apply IH.
  - apply Z.ltb_ge in E. rewrite (proj2 (Z.leb_le cutoff (timestamp entry)) E).
    f_equal. symmetry. apply forallb_filter_id. apply forallb_forall.
    intros later Hin. apply Z.leb_le.
    rewrite Forall_map, Forall_forall in Hlater.
    specialize (Hlater later (proj2 (list_elem_of_In _ _) Hin)). simpl in Hlater. lia.
Qed.

(** X4.  On a window in timestamp order the scan of the front does what a
    scan of the whole window would: [recordSettlement] leaves exactly the
    entries that are not older than [now] less a day, in their order, and
    then the new entry; so an entry a day and more older than the call is
    gone, and no entry younger than that is lost. *)
Theorem recordSettlement_keeps_fresh
    (now : Z) (asset : string) (decimals : number) (amount : Z)
    (window : list SettlementEntry) :
  in_timestamp_order window ->
  let window' := fst (recordSettlement now asset decimals amount window) in
  window' =
    List.filter (fresh now) window ++
      [{| timestamp := now; entry_asset := asset; entry_decimals := decimals;
          amountAtomic := amount |}] /\
  (forall entry,
     In entry window -> (In entry window' <-> now - MS_IN_DAY <= timestamp entry)).
Proof.
  intros Hord window'.
  assert (Hw : window' =
            List.filter (fresh now) window ++
              [{| timestamp := now; entry_asset := asset; entry_decimals := decimals;
                  amountAtomic := amount |}]).
  { unfold window'. rewrite recordSettlement_window_eq. f_equal.
    now apply prune_is_filter. }
  split; [exact Hw|].
  intros entry Hin. rewrite Hw, in_app_iff, filter_In. unfold fresh. simpl.
  rewrite Z.leb_le. split.
  - intros [[_ H]|[<-|[]]]; [exact H|]. simpl. pose proof MS_IN_DAY_positive. lia.
  - intros H. left. now split.
Qed.

Lemma totals_get_None (totals : RollingTotals) (key : string) :
  totals_get totals key = None <-> ~ In key (map fst totals).
Proof.
  induction totals as [|[k v] totals IH]; simpl; [tauto|].
  destruct (String.eqb k key) eqn:E.
  - apply String.eqb_eq in E. split; [discriminate|]. intros H. exfalso. apply H. now left.
  - apply String.eqb_neq in E. rewrite IH. tauto.
Qed.

Lemma totals_add_keys (totals : RollingTotals) (key : string) (amount : Z) :
  map fst (totals_add totals key amount) = map fst totals.
Proof.
  induction totals as [|[k v] totals IH]; simpl; [reflexivity|].
  destruct (String.eqb k key); simpl; [reflexivity|now f_equal].
Qed.

Lemma totals_add_sum (totals : RollingTotals) (key : string) (amount : Z) :
  totals_get totals key <> None ->
  totals_sum (totals_add totals key amount) = totals_sum totals + amount.
Proof.
  induction totals as [|[k v] totals IH]; simpl; [congruence|].
  destruct (String.eqb k key); simpl; [lia|].
  intros H. specialize (IH H). unfold totals_sum in *. simpl. lia.
Qed.

Lemma totals_set_sum (totals : RollingTotals) (key : string) (value : TotalsEntry) :
  totals_sum (totals_set totals key value) = totals_sum totals + total_amountAtomic value.
Proof.
  unfold totals_set, totals_sum. induction totals as [|[k v] totals IH]; simpl; lia.
Qed.

(** The loop keeps the keys of the map distinct, its sum the sum of the
    entries seen, and its size at most their number. *)
Lemma compute_totals_invariant (window : list SettlementEntry) :
  List.NoDup (map fst (compute_totals window)) /\
  totals_sum (compute_totals window) = sum_amounts (fun _ => true) window /\
  (length (compute_totals window) <= length window)%nat.
Proof.
  unfold compute_totals.
  assert (Hgen : forall rest totals seen,
             List.NoDup (map fst totals) ->
             totals_sum totals = sum_amounts (fun _ => true) seen ->
             (length totals <= length seen)%nat ->
             List.NoDup (map fst (fold_left add_to_totals rest totals)) /\
             totals_sum (fold_left add_to_totals rest totals)
               = sum_amounts (fun _ => true) (seen ++ rest) /\
             (length (fold_left add_to_totals rest totals) <= length (seen ++ rest))%nat).
  { induction rest as [|entry rest IH]; intros totals seen Hnd Hsum Hlen; simpl.
    - rewrite app_nil_r. auto.
    - replace (seen ++ entry :: rest) with ((seen ++ [entry]) ++ rest)
        by now rewrite <- app_assoc.
      apply IH; unfold add_to_totals.
      + destruct (totals_get totals (totals_key entry)) eqn:Hget.
        * now rewrite totals_add_keys.
        * unfold totals_set. rewrite map_app. simpl.
          apply totals_get_None in Hget.
          apply NoDup_ListNoDup, NoDup_app. repeat split.
          -- now apply NoDup_ListNoDup.
          -- intros k Hk [= ->]%list_elem_of_singleton. apply Hget. now apply list_elem_of_In.
          -- apply NoDup_singleton.
      + rewrite sum_amounts_snoc.
        destruct (totals_get totals (totals_key entry)) eqn:Hget.
        * rewrite totals_add_sum by congruence. lia.
        * rewrite totals_set_sum. simpl. lia.
      + rewrite length_app. simpl.
        destruct (totals_get totals (totals_key entry)) eqn:Hget.
        * assert (length (totals_add totals (totals_key entry) (amountAtomic entry))
                  = length totals) as ->.
          { rewrite <- (length_map fst), totals_add_keys. apply length_map. }
          lia.
        * unfold totals_set. rewrite length_app. simpl. lia. }
  apply (Hgen window [] []); [constructor|reflexivity|simpl; lia].
Qed.

(** X5.  The totals [recordSettlement] returns conserve the window: no key
    stands twice in the map, the totals of all the groups add up to the
    amounts of all the entries left in the window, there are at most as many
    groups as entries, and at least one. *)
Theorem recordSettlement_conserves
    (now : Z) (asset : string) (decimals : number) (amount : Z)
    (window : list SettlementEntry) :
  let result := recordSettlement now asset decimals amount window in
  let window' := fst result in
  let totals := fst (snd result) in
  List.NoDup (map fst totals) /\
  totals_sum totals = sum_amounts (fun _ => true) window' /\
  (1 <= length totals <= length window')%nat.
Proof.
  intros result window' totals.
  destruct (compute_totals_invariant window') as (Hnd & Hsum & Hlen).
  split; [exact Hnd|]. split; [exact Hsum|]. split; [|exact Hlen].
  pose proof (recordSettlement_window_eq now asset decimals amount window) as Hw.
  fold result window' in Hw.
  pose proof (compute_totals_groups window'
                (totals_key {| timestamp := now; entry_asset := asset;
                               entry_decimals := decimals; amountAtomic := amount |}))
    as Hgroup.
  unfold group_of_key in Hgroup.
  destruct (first_with_key_exists window'
              {| timestamp := now; entry_asset := asset; entry_decimals := decimals;
                 amountAtomic := amount |}) as [first Hfirst].
  { rewrite Hw. apply in_app_iff. right. now left. }
  rewrite Hfirst in Hgroup.
  change (compute_totals window') with totals in Hgroup.
  destruct totals; [discriminate|simpl; lia].
Qed.

(** ** The answer of the settle handler *)

Lemma formatAtomicAmount_formattable (amount : Z) (x : number) :
  formattable x = true -> exists text, formatAtomicAmount amount x = Normal text.
Proof.
  unfold formattable. intros [Hle|Hint]%orb_true_iff.
  - unfold formatAtomicAmount. rewrite Hle. eauto.
  - destruct (number_to_Z x) as [d|] eqn:Hd; [|discriminate].
    rewrite (formatAtomicAmount_integer amount x d Hd (fun _ => Hint)). eauto.
Qed.

Lemma formatAtomicAmount_unformattable (amount : Z) (x : number) :
  formattable x = false -> formatAtomicAmount amount x = Throw RangeError.
Proof.
  unfold formattable. intros [Hle Hint]%orb_false_iff.
  destruct (number_to_Z x) as [d|] eqn:Hd.
  - apply (formatAtomicAmount_beyond amount x d Hd); [|exact Hint].
    rewrite (Number_le_zero_integer x d Hd) in Hle. now apply Z.leb_gt.
  - now apply formatAtomicAmount_not_integer.
Qed.

Lemma formatVolumeSummary_formattable (totals : RollingTotals) :
  Forall (fun group => formattable (total_decimals (snd group)) = true) totals ->
  exists parts, formatVolumeSummary totals = Normal parts.
Proof.
  induction totals as [|[k group] totals IH]; simpl; [eauto|].
  intros [Hgroup Hrest]%Forall_cons. cbn [snd] in Hgroup.
  destruct (formatAtomicAmount_formattable (total_amountAtomic group) _ Hgroup) as [text ->].
  destruct (IH Hrest) as [parts ->]. cbn [bind]. eauto.
Qed.

Lemma formatVolumeSummary_unformattable (totals : RollingTotals) (key : string)
    (group : TotalsEntry) :
  In (key, group) totals -> formattable (total_decimals group) = false ->
  formatVolumeSummary totals = Throw RangeError.
Proof.
  intros Hin Hbad.
  destruct (formatVolumeSummary totals) as [parts|e] eqn:Hsummary;
    [|f_equal; now apply formatVolumeSummary_throws in Hsummary].
  exfalso. revert parts Hsummary.
  induction totals as [|[k g] totals IH]; [destruct Hin|].
  intros parts. simpl.
  destruct Hin as [[= -> ->]|Hin].
  - now rewrite (formatAtomicAmount_unformattable _ _ Hbad).
  - destruct (formatAtomicAmount _ _); cbn [bind]; [|discriminate].
    destruct (formatVolumeSummary totals) as [rest|]; cbn [bind]; [|discriminate].
    intros _. now apply (IH Hin rest).
Qed.

Lemma totals_get_In (totals : RollingTotals) (key : string) (group : TotalsEntry) :
  totals_get totals key = Some group -> In (key, group) totals.
Proof.
  induction totals as [|[k g] totals IH]; simpl; [discriminate|].
  destruct (String.eqb k key) eqn:E.
  - apply String.eqb_eq in E. intros [= ->]. left. now subst.
  - intros H. right. now apply IH.
Qed.

Lemma In_totals_get (totals : RollingTotals) (key : string) (group : TotalsEntry) :
  List.NoDup (map fst totals) -> In (key, group) totals ->
  totals_get totals key = Some group.
Proof.
  induction totals as [|[k g] totals IH]; simpl; [tauto|].
  intros Hnd. inversion Hnd as [|? ? Hfresh Hrest]; subst.
  intros [[= -> ->]|Hin].
  - now rewrite String.eqb_refl.
  - destruct (String.eqb k key) eqn:E; [|now apply IH].
    apply String.eqb_eq in E. subst k. exfalso. apply Hfresh.
    change key with (fst (key, group)). now apply in_map.
Qed.

(** The decimals of every group are the decimals of an entry of the
    window. *)
Lemma compute_totals_decimals (window : list SettlementEntry) (key : string)
    (group : TotalsEntry) :
  In (key, group) (compute_totals window) ->
  exists first,
    first_with_key key window = Some first /\
    total_decimals group = entry_decimals first.
Proof.
  intros Hin.
  destruct (compute_totals_invariant window) as (Hnd & _ & _).
  pose proof (In_totals_get _ _ _ Hnd Hin) as Hget.
  rewrite compute_totals_groups in Hget. unfold group_of_key in Hget.
  destruct (first_with_key key window) as [first|]; [|discriminate].
  injection Hget as <-. now exists first.
Qed.

(** An entry that is not older than the cutoff is never pruned, wherever it
    stands. *)
Lemma prune_keeps (cutoff : Z) (window : list SettlementEntry) (entry : SettlementEntry) :
  In entry window -> cutoff <= timestamp entry -> In entry (prune cutoff window).
Proof.
  induction window as [|e window IH]; simpl; [tauto|].
  intros Hin Hfresh. destruct (timestamp e <? cutoff) eqn:E; [|exact Hin].
  apply Z.ltb_lt in E. destruct Hin as [->|Hin]; [lia|now apply IH].
Qed.

Lemma prune_In (cutoff : Z) (window : list SettlementEntry) (entry : SettlementEntry) :
  In entry (prune cutoff window) -> In entry window.
Proof.
  induction window as [|e window IH]; simpl; [tauto|].
  destruct (timestamp e <? cutoff); [|trivial].
  intros H. right. now apply IH.
Qed.

(** The first entry with a key stands in the front part of a window when
    that part holds an entry with the key. *)
Lemma first_with_key_app (key : string) (front back : list SettlementEntry)
    (entry first : SettlementEntry) :
  In entry front -> totals_key entry = key ->
  first_with_key key (front ++ back) = Some first -> In first front.
Proof.
  induction front as [|e front IH]; simpl; [tauto|].
  intros Hin Hkey. destruct (has_key key e) eqn:E.
  - intros [= <-]. now left.
  - destruct Hin as [->|Hin].
    + unfold has_key in E. rewrite Hkey, String.eqb_refl in E. discriminate.
    + intros H. right. now apply IH.
Qed.

Lemma getSigner_window (network : string) (st : ServerState) :
  settlementWindow (snd (getSigner network st)) = settlementWindow st.
Proof. unfold getSigner. now destruct (signerCache st !! network). Qed.

(** What the handler does once [settle] has returned and the amount has
    parsed. *)
Lemma post_settle_parsed (requirements payload : JsValue) (now : Z) (st : ServerState)
    (paymentRequirements : PaymentRequirements) (result : JsValue) (amount : Z) :
  settles requirements payload st paymentRequirements result ->
  safeParseAtomic (pr_maxAmountRequired paymentRequirements) = Normal (Some amount) ->
  let info := resolveAssetInfo paymentRequirements in
  let recorded :=
    recordSettlement now (asset info) (decimals info) amount (settlementWindow st) in
  settlementWindow (fst (post_settle requirements payload now st)) = fst recorded /\
  snd (post_settle requirements payload now st) =
    match
      (let* _ := formatVolumeSummary (fst (snd recorded)) in
       formatAtomicAmount amount (decimals info))
    with
    | Normal _ => {| status := 200; body := JsonResult result |}
    | Throw e => {| status := 400; body := JsonError e |}
    end.
Proof.
  intros (paymentPayload & signer & Hreq & Hpay & Hnet & Hsigner & Hwallet & Hsettle)
    Hparsed info recorded.
  pose proof (getSigner_window (pr_network paymentRequirements) st) as Hwindow.
  unfold post_settle, settle_try, resolveNetwork.
  rewrite Hreq, Hpay, (bool_decide_eq_true_2 _ Hnet).
  destruct (getSigner (pr_network paymentRequirements) st) as [promise st1].
  cbn [fst snd] in Hsigner, Hwindow.
  rewrite Hsigner, Hwallet. cbn [negb]. rewrite Hsettle.
  unfold settle_respond, logSettlementEvent. rewrite Hparsed, Hwindow.
  fold info. fold recorded.
  destruct recorded as [window' [totals count]]. cbn [fst snd].
  destruct (formatVolumeSummary totals) as [parts|e]; cbn [bind]; [|split; reflexivity].
  destruct (formatAtomicAmount amount (decimals info)); cbn [bind]; split; reflexivity.
Qed.

(** X6.  A settlement that succeeds with an amount that parses is recorded,
    and it is answered with the receipt and status 200 when the decimals of
    every entry the window then holds, the new one among them, are at most
    zero or an integer whose power of ten the engine holds. *)
Theorem post_settle_records_and_answers
    (requirements payload : JsValue) (now : Z) (st : ServerState)
    (paymentRequirements : PaymentRequirements) (result : JsValue) (amount : Z) :
  settles requirements payload st paymentRequirements result ->
  safeParseAtomic (pr_maxAmountRequired paymentRequirements) = Normal (Some amount) ->
  let info := resolveAssetInfo paymentRequirements in
  let entry :=
    {| timestamp := now; entry_asset := asset info; entry_decimals := decimals info;
       amountAtomic := amount |} in
  let run := post_settle requirements payload now st in
  settlementWindow (fst run) = pruneSettlementWindow now (settlementWindow st ++ [entry]) /\
  last (settlementWindow (fst run)) = Some entry /\
  (Forall (fun kept => formattable (entry_decimals kept) = true) (settlementWindow (fst run)) ->
   snd run = {| status := 200; body := JsonResult result |}).
Proof.
  intros Hsettles Hparsed info entry run.
  destruct (post_settle_parsed requirements payload now st paymentRequirements result amount
              Hsettles Hparsed) as [Hwindow Hanswer].
  fold info in Hwindow, Hanswer. fold run in Hwindow, Hanswer.
  split; [exact Hwindow|]. split.
  { rewrite Hwindow, recordSettlement_window_eq. apply last_snoc. }
  intros Hall. rewrite Hanswer.
  assert (Hnew : formattable (decimals info) = true).
  { rewrite Forall_forall in Hall.
    apply (Hall entry). apply list_elem_of_In.
    rewrite Hwindow, recordSettlement_window_eq. apply in_app_iff. right. now left. }
  destruct (formatVolumeSummary_formattable
              (fst (snd (recordSettlement now (asset info) (decimals info) amount
                           (settlementWindow st))))) as [parts ->].
  { apply Forall_forall. intros [key group] Hin%list_elem_of_In. cbn [snd].
    apply compute_totals_decimals in Hin as (first & Hfirst & ->).
    apply first_with_key_found in Hfirst as [Hin _].
    rewrite Forall_forall in Hall. apply Hall. rewrite Hwindow. now apply list_elem_of_In. }
  cbn [bind].
  now destruct (formatAtomicAmount_formattable amount _ Hnew) as [text ->].
Qed.

(** X7.  One entry with decimals on which [formatAtomicAmount] throws
    (above zero and no integer, or with a power of ten the engine does not
    hold) spoils the answers for as long as it stays: when the window holds an entry not older than
    [now] less a day whose key no entry with other decimals shares, every
    settlement that succeeds with an amount that parses is answered with
    status 400 and a [RangeError], whatever its own decimals; the
    settlement is recorded all the same, and the entry is still there. *)
Theorem post_settle_spoiled_window
    (requirements payload : JsValue) (now : Z) (st : ServerState)
    (paymentRequirements : PaymentRequirements) (result : JsValue) (amount : Z)
    (spoiled : SettlementEntry) :
  settles requirements payload st paymentRequirements result ->
  safeParseAtomic (pr_maxAmountRequired paymentRequirements) = Normal (Some amount) ->
  In spoiled (settlementWindow st) ->
  now - MS_IN_DAY <= timestamp spoiled ->
  (forall entry,
     In entry (settlementWindow st) -> totals_key entry = totals_key spoiled ->
     formattable (entry_decimals entry) = false) ->
  let info := resolveAssetInfo paymentRequirements in
  let run := post_settle requirements payload now st in
  snd run = {| status := 400; body := JsonError RangeError |} /\
  In spoiled (settlementWindow (fst run)) /\
  last (settlementWindow (fst run)) =
    Some {| timestamp := now; entry_asset := asset info; entry_decimals := decimals info;
            amountAtomic := amount |}.
Proof.
  intros Hsettles Hparsed Hin Hfresh Hkey info run.
  destruct (post_settle_parsed requirements payload now st paymentRequirements result amount
              Hsettles Hparsed) as [Hwindow Hanswer].
  fold info in Hwindow, Hanswer. fold run in Hwindow, Hanswer.
  rewrite recordSettlement_window_eq in Hwindow.
  assert (Hkept : In spoiled (prune (now - MS_IN_DAY) (settlementWindow st)))
    by now apply prune_keeps.
  split; [|split].
  - rewrite Hanswer.
    set (recorded := recordSettlement now (asset info) (decimals info) amount
                       (settlementWindow st)) in *.
    assert (Hfst : fst recorded =
              prune (now - MS_IN_DAY) (settlementWindow st) ++
                [{| timestamp := now; entry_asset := asset info;
                    entry_decimals := decimals info; amountAtomic := amount |}])
      by apply recordSettlement_window_eq.
    assert (Htotals : fst (snd recorded) = compute_totals (fst recorded)) by reflexivity.
    destruct (first_with_key_exists (fst recorded) spoiled) as [first Hfirst].
    { rewrite Hfst. apply in_app_iff. now left. }
    pose proof (compute_totals_groups (fst recorded) (totals_key spoiled)) as Hgroup.
    unfold group_of_key in Hgroup. rewrite Hfirst in Hgroup.
    apply totals_get_In in Hgroup.
    rewrite Htotals.
    rewrite (formatVolumeSummary_unformattable _ _ _ Hgroup); [reflexivity|].
    cbn [total_decimals].
    pose proof Hfirst as Hfound. apply first_with_key_found in Hfound as [_ Hsame].
    rewrite Hfst in Hfirst.
    apply (first_with_key_app _ _ _ spoiled first Hkept eq_refl) in Hfirst.
    apply Hkey; [now apply prune_In in Hfirst|exact Hsame].
  - rewrite Hwindow. apply in_app_iff. now left.
  - rewrite Hwindow. apply last_snoc.
Qed.

(** ** The window after a run of calls *)

Lemma filter_filter_implied {A : Type} (p q : A -> bool) (l : list A) :
  (forall x, In x l -> p x = true -> q x = true) ->
  List.filter p (List.filter q l) = List.filter p l.
Proof.
  induction l as [|x l IH]; simpl; [reflexivity|].
  intros H.
  assert (IH' : List.filter p (List.filter q l) = List.filter p l)
    by (apply IH; intros y Hy; apply H; now right).
  destruct (q x) eqn:Hq; simpl.
  - now rewrite IH'.
  - destruct (p x) eqn:Hp; [|exact IH'].
    rewrite (H x (or_introl eq_refl) Hp) in Hq. discriminate.
Qed.

Lemma last_now_snoc (calls : list call) (c : call) : last_now (calls ++ [c]) = call_now c.
Proof. unfold last_now. now rewrite last_snoc. Qed.

Lemma last_now_In (calls : list call) :
  calls = [] \/ In (last_now calls) (map call_now calls).
Proof.
  destruct calls as [|c calls] using rev_ind; [now left|].
  right. rewrite last_now_snoc, map_app. apply in_app_iff. right. now left.
Qed.

(** X8.  When the clock never goes back, the window is the last day of
    settlements, no more and no less: after any run of calls of
    [recordSettlement] from the empty window it holds the entries of exactly
    the calls made not earlier than a day before the last one, in the order
    of the calls, so the count returned is their number. *)
Theorem record_all_last_day (calls : list call) :
  nondecreasing (map call_now calls) ->
  record_all calls [] = List.filter (fresh (last_now calls)) (map entry_of calls).
Proof.
  induction calls as [|c calls IH] using rev_ind; [reflexivity|].
  rewrite map_app. simpl. intros [Hnd Hle]%nondecreasing_snoc.
  specialize (IH Hnd).
  destruct (record_all_ordered calls Hnd) as [Hord _].
  rewrite record_all_snoc, last_now_snoc, map_app, List.filter_app.
  destruct c as [[[now asset] decimals] amount].
  change (call_now (now, asset, decimals, amount)) with now in *.
  unfold record_call. rewrite recordSettlement_window_eq.
  rewrite (prune_is_filter _ _ Hord).
  change (fun entry : SettlementEntry => now - MS_IN_DAY <=? timestamp entry)
    with (fresh now).
  f_equal.
  - rewrite IH. destruct (last_now_In calls) as [->|Hin]; [reflexivity|].
    apply filter_filter_implied.
    intros entry _. unfold fresh. rewrite !Z.leb_le.
    rewrite Forall_forall in Hle.
    specialize (Hle _ (proj2 (list_elem_of_In _ _) Hin)). lia.
  - simpl. unfold fresh. simpl.
    pose proof MS_IN_DAY_positive.
    now rewrite (proj2 (Z.leb_le (now - MS_IN_DAY) now)) by lia.
Qed.

(** ** The registry under the handlers *)

Lemma getSigner_cached (network : string) (st : ServerState) :
  signerCache (snd (getSigner network st)) !! network = Some (fst (getSigner network st)).
Proof.
  unfold getSigner. destruct (signerCache st !! network) eqn:Hcache; simpl.
  - exact Hcache.
  - apply lookup_insert_eq.
Qed.

Lemma getSigner_keeps (network : string) (st : ServerState) (n : string) (p : nat) :
  signerCache st !! n = Some p -> signerCache (snd (getSigner network st)) !! n = Some p.
Proof.
  unfold getSigner. destruct (signerCache st !! network) eqn:Hcache; simpl; [trivial|].
  intros Hn. rewrite lookup_insert_ne; [exact Hn|congruence].
Qed.

Lemma getSigner_hit (network : string) (st : ServerState) (promise : nat) :
  signerCache st !! network = Some promise -> getSigner network st = (promise, st).
Proof. intros Hcache. unfold getSigner. now rewrite Hcache. Qed.

Lemma getSigner_enabled (network : string) (st : ServerState) :
  network ∈ allowedNetworks -> registry_enabled st ->
  registry_enabled (snd (getSigner network st)).
Proof.
  intros Hnet [Hconsistent Henabled].
  destruct (getSigner_step network st Hconsistent) as (Hconsistent' & _ & _ & Hin & _).
  split; [exact Hconsistent'|].
  intros n [Hn| ->]%Hin; [now apply Henabled|exact Hnet].
Qed.

Lemma registry_enabled_window (st : ServerState) (window : list SettlementEntry) :
  registry_enabled st ->
  registry_enabled
    {| signerCache := signerCache st;
       createSigner_calls := createSigner_calls st;
       settlementWindow := window |}.
Proof. intros H. exact H. Qed.

(** The state a settle request leaves: the one found, or the one after the
    call of [getSigner] for an enabled network, up to the window. *)
Lemma post_settle_registry (requirements payload : JsValue) (now : Z) (st : ServerState) :
  let st' := fst (post_settle requirements payload now st) in
  st' = st \/
  exists network,
    network ∈ allowedNetworks /\
    signerCache st' = signerCache (snd (getSigner network st)) /\
    createSigner_calls st' = createSigner_calls (snd (getSigner network st)).
Proof.
  unfold post_settle, settle_try, resolveNetwork.
  destruct (PaymentRequirementsSchema_parse requirements) as [paymentRequirements|];
    [|now left].
  destruct (PaymentPayloadSchema_parse payload) as [paymentPayload|]; [|now left].
  destruct (bool_decide (pr_network paymentRequirements ∈ allowedNetworks)) eqn:Hnet;
    [|now left].
  apply bool_decide_eq_true in Hnet.
  right. exists (pr_network paymentRequirements). split; [exact Hnet|].
  destruct (getSigner (pr_network paymentRequirements) st) as [promise st1].
  destruct (await_signer promise) as [signer|]; [|now split].
  destruct (isSvmSignerWallet signer); cbn [negb]; [|now split].
  destruct (settle signer paymentPayload paymentRequirements) as [result|]; [|now split].
  unfold settle_respond.
  destruct (logSettlementEvent paymentRequirements _ now (settlementWindow st1))
    as [window' [logged|]]; cbn [bind fst snd]; now split.
Qed.

Lemma post_verify_state (requirements payload : JsValue) (st : ServerState) :
  let st' := fst (post_verify requirements payload st) in
  st' = st \/
  exists network, network ∈ allowedNetworks /\ st' = snd (getSigner network st).
Proof.
  unfold post_verify, verify_try, resolveNetwork.
  destruct (PaymentRequirementsSchema_parse requirements) as [paymentRequirements|];
    [|now left].
  destruct (PaymentPayloadSchema_parse payload) as [paymentPayload|]; [|now left].
  destruct (bool_decide (pr_network paymentRequirements ∈ allowedNetworks)) eqn:Hnet;
    [|now left].
  apply bool_decide_eq_true in Hnet.
  right. exists (pr_network paymentRequirements). split; [exact Hnet|].
  destruct (getSigner (pr_network paymentRequirements) st) as [promise st1].
  destruct (await_signer promise) as [signer|]; [|reflexivity].
  destruct (verify signer paymentPayload paymentRequirements) as [result|]; [|reflexivity].
  cbn [fst snd]. now destruct (logVerificationEvent paymentRequirements).
Qed.

(** The loop of the supported kinds: what the cache held it still holds,
    and the window is left alone. *)
Lemma supported_kinds_keeps (networks : list string) (st : ServerState) :
  let st' := fst (supported_kinds networks st) in
  (forall n p, signerCache st !! n = Some p -> signerCache st' !! n = Some p) /\
  settlementWindow st' = settlementWindow st.
Proof.
  revert st. induction networks as [|network rest IH]; intros st; simpl.
  - auto.
  - pose proof (getSigner_keeps network st) as Hkeep.
    pose proof (getSigner_window network st) as Hwindow.
    destruct (getSigner network st) as [promise st1]. cbn [snd] in *.
    destruct (await_signer promise) as [signer|]; cbn [fst].
    + specialize (IH st1). destruct (supported_kinds rest st1) as [st2 kinds].
      cbn [fst] in *. destruct IH as (Hkeep2 & Hwindow2).
      split; [intros n p Hn; now apply Hkeep2, Hkeep|congruence].
    + split; [exact Hkeep|exact Hwindow].
Qed.

(** Over enabled networks it keeps the registry as it should be. *)
Lemma supported_kinds_enabled (networks : list string) (st : ServerState) :
  (forall n, In n networks -> n ∈ allowedNetworks) ->
  registry_enabled st -> registry_enabled (fst (supported_kinds networks st)).
Proof.
  revert st. induction networks as [|network rest IH]; intros st Hall Hst; simpl.
  - exact Hst.
  - pose proof (getSigner_enabled network st (Hall network (or_introl eq_refl)) Hst)
      as Henabled.
    destruct (getSigner network st) as [promise st1]. cbn [snd] in *.
    destruct (await_signer promise) as [signer|]; cbn [fst]; [|exact Henabled].
    specialize (IH st1 (fun n Hn => Hall n (or_intror Hn)) Henabled).
    now destruct (supported_kinds rest st1) as [st2 kinds].
Qed.

Lemma get_supported_state (networks : list string) (st : ServerState) :
  fst (get_supported networks st) = fst (supported_kinds networks st).
Proof.
  unfold get_supported. now destruct (supported_kinds networks st) as [st' [kinds|e]].
Qed.

(** Every handler keeps what the cache holds, and over enabled networks
    keeps the registry as it should be. *)
Lemma handle_registry (networks : list string) (st : ServerState) (request : Request) :
  (forall n p, signerCache st !! n = Some p ->
               signerCache (handle networks st request) !! n = Some p) /\
  ((forall n, In n networks -> n ∈ allowedNetworks) ->
   registry_enabled st -> registry_enabled (handle networks st request)).
Proof.
  destruct request as [requirements payload|requirements payload now|]; simpl.
  - destruct (post_verify_state requirements payload st) as [->|(network & Hnet & ->)];
      [auto|].
    split; [intros n p; apply getSigner_keeps|].
    intros _. now apply getSigner_enabled.
  - destruct (post_settle_registry requirements payload now st)
      as [->|(network & Hnet & Hcache & Hcalls)]; [auto|].
    split; [intros n p Hn; rewrite Hcache; now apply getSigner_keeps|].
    intros _ Hst. pose proof (getSigner_enabled network st Hnet Hst) as Hst1.
    unfold registry_enabled, registry_consistent in *. now rewrite Hcache, Hcalls.
  - rewrite get_supported_state.
    split; [apply supported_kinds_keeps|]. apply supported_kinds_enabled.
Qed.

Lemma serve_registry (networks : list string) (requests : list Request) (st : ServerState) :
  (forall n p, signerCache st !! n = Some p ->
               signerCache (serve networks requests st) !! n = Some p) /\
  ((forall n, In n networks -> n ∈ allowedNetworks) ->
   registry_enabled st -> registry_enabled (serve networks requests st)).
Proof.
  revert st. unfold serve.
  induction requests as [|request requests IH]; intros st; simpl; [auto|].
  destruct (handle_registry networks st request) as [Hkeep Henabled].
  destruct (IH (handle networks st request)) as [Hkeep' Henabled'].
  split; [intros n p Hn; now apply Hkeep', Hkeep|].
  intros Hall Hst. now apply Henabled', Henabled.
Qed.

(** X9.  Whatever requests are served, one after another, since the start
    of the process, [createSigner] has been called for enabled networks
    only and at most once for each, and the cache holds for a network the
    promise of that call and nothing else. *)
Theorem signers_of_enabled_networks_only (networks : list string) (requests : list Request) :
  (forall network, In network networks -> network ∈ allowedNetworks) ->
  let st := serve networks requests initial_state in
  List.NoDup (createSigner_calls st) /\
  (forall network, In network (createSigner_calls st) -> network ∈ allowedNetworks) /\
  (forall network promise,
     signerCache st !! network = Some promise <->
     createSigner_calls st !! promise = Some network) /\
  (forall network, is_Some (signerCache st !! network) -> network ∈ allowedNetworks).
Proof.
  intros Hall st.
  destruct (serve_registry networks requests initial_state) as [_ Henabled].
  destruct (Henabled Hall) as [[Hnodup Hagree] Hcalls].
  { split; [apply initial_state_consistent|]. simpl. tauto. }
  fold st in Hnodup, Hagree, Hcalls.
  split; [now apply NoDup_ListNoDup|]. split; [exact Hcalls|]. split; [exact Hagree|].
  intros network [promise Hpromise]. apply Hcalls, list_elem_of_In.
  apply Hagree in Hpromise. eapply list_elem_of_lookup_2. exact Hpromise.
Qed.

Lemma supported_kinds_rejected (networks : list string) (st : ServerState)
    (network : string) (promise : nat) (e : JsError) :
  In network networks -> signerCache st !! network = Some promise ->
  await_signer promise = Throw e ->
  exists e', snd (supported_kinds networks st) = Throw e'.
Proof.
  revert st. induction networks as [|n rest IH]; intros st; simpl; [tauto|].
  intros Hin Hcache Hrejected.
  destruct (decide (n = network)) as [->|Hne].
  - rewrite (getSigner_hit network st promise Hcache), Hrejected. eauto.
  - destruct Hin as [Heq|Hin]; [congruence|].
    pose proof (getSigner_keeps n st network promise Hcache) as Hcache1.
    destruct (getSigner n st) as [p st1]. cbn [snd] in Hcache1.
    destruct (await_signer p) as [signer|e1]; [|eauto].
    destruct (IH st1 Hin Hcache1 Hrejected) as [e' He'].
    destruct (supported_kinds rest st1) as [st2 kinds]. cbn [snd] in *.
    rewrite He'. eauto.
Qed.

(** X10.  A signer that could not be created is never created again: once
    the cache holds for a network a promise that rejects, it holds it after
    any requests, and from then on every settle and every verify request
    for that network is answered with status 400 and the error of the
    promise, the state being left as it is, and the list of supported kinds
    with status 500. *)
Theorem rejected_signer_is_kept
    (networks : list string) (requests : list Request) (st : ServerState)
    (network : string) (promise : nat) (e : JsError) :
  signerCache st !! network = Some promise ->
  await_signer promise = Throw e ->
  let st' := serve networks requests st in
  signerCache st' !! network = Some promise /\
  (forall requirements payload paymentRequirements paymentPayload,
     PaymentRequirementsSchema_parse requirements = Normal paymentRequirements ->
     PaymentPayloadSchema_parse payload = Normal paymentPayload ->
     pr_network paymentRequirements = network ->
     network ∈ allowedNetworks ->
     (forall now,
        post_settle requirements payload now st' =
          (st', {| status := 400; body := JsonError e |})) /\
     post_verify requirements payload st' =
       (st', {| status := 400; body := JsonError e |})) /\
  (In network networks -> fst (snd (get_supported networks st')) = 500).
Proof.
  intros Hcache Hrejected st'.
  assert (Hcache' : signerCache st' !! network = Some promise)
    by exact (proj1 (serve_registry networks requests st) network promise Hcache).
  split; [exact Hcache'|]. split.
  - intros requirements payload paymentRequirements paymentPayload Hreq Hpay Hnetwork Hnet.
    subst network.
    unfold post_settle, settle_try, post_verify, verify_try, resolveNetwork.
    rewrite Hreq, Hpay, (bool_decide_eq_true_2 _ Hnet).
    rewrite (getSigner_hit _ st' promise Hcache'), Hrejected. now split.
  - intros Hin.
    destruct (supported_kinds_rejected networks st' network promise e Hin Hcache' Hrejected)
      as [e' He'].
    unfold get_supported. destruct (supported_kinds networks st') as [st2 outcome].
    cbn [snd] in He'. now rewrite He'.
Qed.

(** ** Verification and the supported kinds *)

Lemma logVerificationEvent_outcome (paymentRequirements : PaymentRequirements) :
  match safeParseAtomic (pr_maxAmountRequired paymentRequirements) with
  | Normal (Some _) =>
      if formattable (decimals (resolveAssetInfo paymentRequirements))
      then returns (logVerificationEvent paymentRequirements)
      else logVerificationEvent paymentRequirements = Throw RangeError
  | _ => returns (logVerificationEvent paymentRequirements)
  end.
Proof.
  unfold logVerificationEvent.
  destruct (safeParseAtomic_returns (pr_maxAmountRequired paymentRequirements))
    as [[amount|] ->]; cbn [bind]; [|eexists; reflexivity].
  destruct (formattable (decimals (resolveAssetInfo paymentRequirements))) eqn:Hdecimals.
  - destruct (formatAtomicAmount_formattable amount _ Hdecimals) as [text ->].
    eexists. reflexivity.
  - now rewrite (formatAtomicAmount_unformattable amount _ Hdecimals).
Qed.

(** X11.  A verify request never touches the settlement window.  When
    [verify] returns a result, the answer is that result with status 200,
    unless the amount parses and the resolved decimals are a number above
    zero that is no integer or whose power of ten the engine does not hold:
    then the event throws and the answer is status 400 with a [RangeError],
    although the verification succeeded.  And an
    answer with status 200 is never anything but the result [verify]
    returned for the request. *)
Theorem post_verify_answer (requirements payload : JsValue) (st : ServerState) :
  let run := post_verify requirements payload st in
  settlementWindow (fst run) = settlementWindow st /\
  (forall paymentRequirements result,
     verifies requirements payload st paymentRequirements result ->
     snd run =
       match safeParseAtomic (pr_maxAmountRequired paymentRequirements) with
       | Normal (Some _) =>
           if formattable (decimals (resolveAssetInfo paymentRequirements))
           then {| status := 200; body := JsonResult result |}
           else {| status := 400; body := JsonError RangeError |}
       | _ => {| status := 200; body := JsonResult result |}
       end) /\
  (forall result,
     snd run = {| status := 200; body := JsonResult result |} ->
     exists paymentRequirements, verifies requirements payload st paymentRequirements result).
Proof.
  intros run. split; [|split].
  - destruct (post_verify_state requirements payload st) as [Hst|(network & _ & Hst)];
      unfold run; rewrite Hst; [reflexivity|apply getSigner_window].
  - intros paymentRequirements result
      (paymentPayload & signer & Hreq & Hpay & Hnet & Hsigner & Hverify).
    unfold run, post_verify, verify_try, resolveNetwork.
    rewrite Hreq, Hpay, (bool_decide_eq_true_2 _ Hnet).
    destruct (getSigner (pr_network paymentRequirements) st) as [promise st1].
    cbn [fst] in Hsigner. rewrite Hsigner, Hverify. cbn [snd].
    pose proof (logVerificationEvent_outcome paymentRequirements) as Hlog.
    destruct (safeParseAtomic (pr_maxAmountRequired paymentRequirements)) as [[amount|]|e'].
    + destruct (formattable (decimals (resolveAssetInfo paymentRequirements)));
        [destruct Hlog as [logged ->]|rewrite Hlog]; reflexivity.
    + now destruct Hlog as [logged ->].
    + now destruct Hlog as [logged ->].
  - intros result. unfold run, post_verify, verify_try, resolveNetwork, verifies.
    destruct (PaymentRequirementsSchema_parse requirements) as [paymentRequirements|];
      [|discriminate].
    destruct (PaymentPayloadSchema_parse payload) as [paymentPayload|]; [|discriminate].
    destruct (bool_decide (pr_network paymentRequirements ∈ allowedNetworks)) eqn:Hnet;
      [|discriminate].
    apply bool_decide_eq_true in Hnet.
    destruct (getSigner (pr_network paymentRequirements) st) as [promise st1] eqn:Hget.
    destruct (await_signer promise) as [signer|] eqn:Hsigner; [|discriminate].
    destruct (verify signer paymentPayload paymentRequirements) as [verified|] eqn:Hverify;
      [|discriminate].
    destruct (logVerificationEvent paymentRequirements); cbn [bind snd]; [|discriminate].
    intros [= <-]. exists paymentRequirements, paymentPayload, signer.
    rewrite Hget. auto.
Qed.

(** The loop, when it ends well: every network has its kind, made of the
    signer the cache now holds for it. *)
Lemma supported_kinds_made (networks : list string) (st st' : ServerState)
    (kinds : list SupportedPaymentKind) :
  supported_kinds networks st = (st', Normal kinds) ->
  Forall2 (kind_for st') networks kinds.
Proof.
  revert st st' kinds. induction networks as [|network rest IH]; intros st st' kinds; simpl.
  - intros [= <- <-]. constructor.
  - pose proof (getSigner_cached network st) as Hcached.
    destruct (getSigner network st) as [promise st1]. cbn [fst snd] in Hcached.
    destruct (await_signer promise) as [signer|] eqn:Hsigner; [|discriminate].
    pose proof (supported_kinds_keeps rest st1) as (Hkeep & _).
    specialize (IH st1).
    destruct (supported_kinds rest st1) as [st2 [made|]]; cbn [bind fst] in *;
      [|discriminate].
    intros [= <- <-]. constructor; [|now apply IH].
    exists promise, signer. auto.
Qed.

(** When the cache holds a signer that resolves for every network, the loop
    makes the kinds of those signers and changes nothing. *)
Lemma supported_kinds_again (networks : list string) (st : ServerState)
    (kinds : list SupportedPaymentKind) :
  Forall2 (kind_for st) networks kinds ->
  supported_kinds networks st = (st, Normal kinds).
Proof.
  induction 1 as [|network kind rest made (promise & signer & Hcache & Hsigner & ->) _ IH];
    simpl; [reflexivity|].
  now rewrite (getSigner_hit network st promise Hcache), Hsigner, IH.
Qed.

Lemma supported_kinds_fails (networks : list string) (st st' : ServerState) (e : JsError) :
  supported_kinds networks st = (st', Throw e) ->
  exists network promise,
    In network networks /\
    signerCache st' !! network = Some promise /\
    await_signer promise = Throw e.
Proof.
  revert st st'. induction networks as [|network rest IH]; intros st st'; simpl;
    [discriminate|].
  pose proof (getSigner_cached network st) as Hcached.
  destruct (getSigner network st) as [promise st1]. cbn [fst snd] in Hcached.
  destruct (await_signer promise) as [signer|e1] eqn:Hsigner.
  - specialize (IH st1).
    destruct (supported_kinds rest st1) as [st2 [made|e2]]; cbn [bind]; [discriminate|].
    intros [= <- <-]. destruct (IH st2 eq_refl) as (n & p & Hin & Hcache & Hrejected).
    exists n, p. auto.
  - intros [= <- <-]. exists network, promise. auto.
Qed.

Lemma supported_kinds_resolved (networks : list string) (st : ServerState) :
  (forall promise, returns (await_signer promise)) ->
  returns (snd (supported_kinds networks st)).
Proof.
  intros Hresolved. revert st.
  induction networks as [|network rest IH]; intros st; simpl; [eexists; reflexivity|].
  destruct (getSigner network st) as [promise st1].
  destruct (Hresolved promise) as [signer ->].
  specialize (IH st1). destruct (supported_kinds rest st1) as [st2 made]. cbn [snd] in *.
  destruct IH as [kinds ->]. eexists. reflexivity.
Qed.

(** X12.  The list of supported kinds: the window is left alone; when the
    answer has status 200 it holds one kind for each enabled network, in the
    order of the set, each of version 1 and scheme [exact], made of the
    signer the cache then holds for the network, with a fee payer exactly
    when that signer is a wallet with an address that is not empty, and the
    address is the fee payer; asked again, the handler gives the same answer
    and changes nothing.  When every signer resolves the answer has status
    200; an answer with status 500 carries the error of the promise the
    cache holds for one of the networks. *)
Theorem get_supported_kinds (networks : list string) (st : ServerState) :
  let run := get_supported networks st in
  settlementWindow (fst run) = settlementWindow st /\
  (forall kinds,
     snd run = (200, Kinds kinds) ->
     map kind_network kinds = networks /\
     Forall (fun kind => x402Version kind = 1 /\ scheme kind = "exact") kinds /\
     Forall
       (fun kind =>
          exists promise signer,
            signerCache (fst run) !! kind_network kind = Some promise /\
            await_signer promise = Normal signer /\
            extra_feePayer kind =
              if isSvmSignerWallet signer && string_truthy (signer_address signer)
              then Some (signer_address signer) else None)
       kinds /\
     get_supported networks (fst run) = run) /\
  ((forall promise, returns (await_signer promise)) ->
   exists kinds, snd run = (200, Kinds kinds)) /\
  (forall status body,
     snd run = (status, body) -> status <> 200 ->
     exists network promise e,
       status = 500 /\ body = SupportedError e /\
       In network networks /\
       signerCache (fst run) !! network = Some promise /\
       await_signer promise = Throw e).
Proof.
  intros run. split; [|split; [|split]].
  - unfold run. rewrite get_supported_state. apply supported_kinds_keeps.
  - intros kinds. unfold run, get_supported.
    destruct (supported_kinds networks st) as [st' [made|e]] eqn:Hloop; cbn [fst snd];
      [|discriminate].
    intros [= <-]. apply supported_kinds_made in Hloop.
    split; [|split; [|split]].
    + induction Hloop as [|network kind rest made' (p & s & _ & _ & ->) _ IH];
        simpl; [reflexivity|now f_equal].
    + induction Hloop as [|network kind rest made' (p & s & _ & _ & ->) _ IH];
        constructor; [now split|exact IH].
    + induction Hloop as [|network kind rest made' (p & s & Hcache & Hsigner & ->) _ IH];
        constructor; [|exact IH].
      exists p, s. split; [exact Hcache|]. split; [exact Hsigner|].
      unfold kind_of. cbn [extra_feePayer].
      now destruct (isSvmSignerWallet s), (string_truthy (signer_address s)).
    + now rewrite (supported_kinds_again networks st' made Hloop).
  - intros Hresolved. unfold run, get_supported.
    destruct (supported_kinds_resolved networks st Hresolved) as [kinds Hkinds].
    destruct (supported_kinds networks st) as [st' outcome]. cbn [snd] in *.
    rewrite Hkinds. eauto.
  - intros status0 body0. unfold run, get_supported.
    destruct (supported_kinds networks st) as [st' [made|e]] eqn:Hloop; cbn [fst snd].
    + intros [= <- <-] Hstatus. now contradict Hstatus.
    + intros [= <- <-] _.
      destruct (supported_kinds_fails networks st st' e Hloop)
        as (network & promise & Hin & Hcache & Hrejected).
      exists network, promise, e. auto.
Qed.

(** ** What the events change *)

Lemma logSettlementEvent_throws (paymentRequirements : PaymentRequirements)
    (transaction : JsValue) (now : Z) (window : list SettlementEntry) (e : JsError) :
  snd (logSettlementEvent paymentRequirements transaction now window) = Throw e ->
  e = RangeError.
Proof.
  unfold logSettlementEvent.
  destruct (safeParseAtomic_returns (pr_maxAmountRequired paymentRequirements))
    as [[amount|] ->]; [|discriminate].
  destruct (recordSettlement now _ _ amount window) as [window' [totals count]]. cbn [snd].
  destruct (formatVolumeSummary totals) as [parts|e1] eqn:Hvolume; cbn [bind].
  - destruct (formatAtomicAmount amount _) eqn:Hformat; cbn [bind]; [discriminate|].
    intros [= <-]. now apply formatAtomicAmount_throws in Hformat.
  - intros [= <-]. now apply formatVolumeSummary_throws in Hvolume.
Qed.

Lemma logVerificationEvent_throws (paymentRequirements : PaymentRequirements) (e : JsError) :
  logVerificationEvent paymentRequirements = Throw e -> e = RangeError.
Proof.
  unfold logVerificationEvent.
  destruct (safeParseAtomic_returns (pr_maxAmountRequired paymentRequirements))
    as [[amount|] ->]; cbn [bind]; [|discriminate].
  destruct (formatAtomicAmount amount _) eqn:Hformat; cbn [bind]; [discriminate|].
  intros [= <-]. now apply formatAtomicAmount_throws in Hformat.
Qed.


(** X17.  The handlers that log events and the ones of [src/server.ts] that
    do not, on the same request and state: they leave the same cache and the
    same calls of [createSigner]; the ones without events leave the window
    alone; and the answers are the same, but for one case, where the
    handler without events answers status 200 and the one with events
    status 400 with a [RangeError]. *)
Theorem events_change_errors_only
    (requirements payload : JsValue) (now : Z) (st : ServerState) :
  let settled := post_settle requirements payload now st in
  let settled_unlogged := post_settle_unlogged requirements payload st in
  let verified := post_verify requirements payload st in
  let verified_unlogged := post_verify_unlogged requirements payload st in
  (signerCache (fst settled) = signerCache (fst settled_unlogged) /\
   createSigner_calls (fst settled) = createSigner_calls (fst settled_unlogged) /\
   settlementWindow (fst settled_unlogged) = settlementWindow st /\
   (snd settled = snd settled_unlogged \/
    status (snd settled_unlogged) = 200 /\
    snd settled = {| status := 400; body := JsonError RangeError |})) /\
  (fst verified = fst verified_unlogged /\
   settlementWindow (fst verified_unlogged) = settlementWindow st /\
   (snd verified = snd verified_unlogged \/
    status (snd verified_unlogged) = 200 /\
    snd verified = {| status := 400; body := JsonError RangeError |})).
Proof.
  intros settled settled_unlogged verified verified_unlogged.
  unfold settled, settled_unlogged, verified, verified_unlogged.
  unfold post_settle, settle_try, post_settle_unlogged, post_verify, verify_try,
    post_verify_unlogged, resolveNetwork.
  destruct (PaymentRequirementsSchema_parse requirements) as [paymentRequirements|];
    [|repeat split; auto].
  destruct (PaymentPayloadSchema_parse payload) as [paymentPayload|];
    [|repeat split; auto].
  destruct (bool_decide (pr_network paymentRequirements ∈ allowedNetworks));
    [|repeat split; auto].
  pose proof (getSigner_window (pr_network paymentRequirements) st) as Hwindow.
  destruct (getSigner (pr_network paymentRequirements) st) as [promise st1].
  cbn [snd] in Hwindow.
  destruct (await_signer promise) as [signer|]; [|repeat split; auto].
  split.
  - destruct (isSvmSignerWallet signer); cbn [negb]; [|repeat split; auto].
    destruct (settle signer paymentPayload paymentRequirements) as [result|];
      [|repeat split; auto].
    unfold settle_respond.
    pose proof (logSettlementEvent_throws paymentRequirements
                  (nullish_coalesce (get_property result "transaction") JNull) now
                  (settlementWindow st1)) as Hthrows.
    destruct (logSettlementEvent paymentRequirements _ now (settlementWindow st1))
      as [window' [logged|e]]; cbn [bind fst snd] in *.
    + repeat split; auto.
    + rewrite (Hthrows e eq_refl). repeat split; auto.
  - destruct (verify signer paymentPayload paymentRequirements) as [result|];
      [|repeat split; auto].
    pose proof (logVerificationEvent_throws paymentRequirements) as Hthrows.
    destruct (logVerificationEvent paymentRequirements) as [logged|e]; cbn [bind fst snd].
    + repeat split; auto.
    + rewrite (Hthrows e eq_refl). repeat split; auto.
Qed.

End Server.

(** ** The lists of the configuration *)

Lemma append_nil_r (s : string) : s +:+ "" = s.
Proof. induction s as [|c s IH]; [reflexivity|]. rewrite append_String. now f_equal. Qed.

Lemma split_comma_head (s : string) : exists piece pieces, split_comma s = piece :: pieces.
Proof.
  induction s as [|c s (piece & pieces & IH)]; simpl; [eauto|].
  destruct (Ascii.eqb c ","); [eauto|]. rewrite IH. eauto.
Qed.

(** A text without a comma before a string joins the first piece. *)
Lemma split_comma_app (p s : string) :
  string_forall no_comma p = true ->
  exists piece pieces,
    split_comma s = piece :: pieces /\ split_comma (p +:+ s) = (p +:+ piece) :: pieces.
Proof.
  intros Hp. destruct (split_comma_head s) as (piece & pieces & Hs).
  exists piece, pieces. split; [exact Hs|].
  induction p as [|c p IH]; [exact Hs|].
  simpl in Hp. apply andb_true_iff in Hp as [Hc Hp].
  rewrite append_String. simpl.
  unfold no_comma in Hc. apply negb_true_iff in Hc. rewrite Hc.
  now rewrite (IH Hp).
Qed.

(** A text without a comma after a string joins the last piece. *)
Lemma split_comma_app_r (s ws : string) :
  string_forall no_comma ws = true ->
  exists pieces piece,
    split_comma s = pieces ++ [piece] /\ split_comma (s +:+ ws) = pieces ++ [piece +:+ ws].
Proof.
  intros Hws. induction s as [|c s (pieces & piece & Hs & Hsw)].
  - exists [], EmptyString. split; [reflexivity|].
    change (split_comma ws = [ws]).
    destruct (split_comma_app ws EmptyString Hws) as (q & qs & Hq & Happ).
    injection Hq as <- <-. now rewrite !append_nil_r in Happ.
  - rewrite append_String. simpl. destruct (Ascii.eqb c ",").
    + exists (EmptyString :: pieces), piece. now rewrite Hs, Hsw.
    + rewrite Hs, Hsw. destruct pieces as [|first pieces]; simpl.
      * exists [], (String c piece). split; reflexivity.
      * exists (String c first :: pieces), piece. split; reflexivity.
Qed.

Lemma split_comma_concat (pieces : list string) :
  pieces <> [] ->
  Forall (fun piece => string_forall no_comma piece = true) pieces ->
  split_comma (String.concat "," pieces) = pieces.
Proof.
  induction pieces as [|p pieces IH]; [congruence|]. intros _ [Hp Hrest]%Forall_cons.
  destruct pieces as [|p' pieces].
  - simpl. destruct (split_comma_app p EmptyString Hp) as (q & qs & Hq & Happ).
    injection Hq as <- <-. now rewrite !append_nil_r in Happ.
  - change (String.concat "," (p :: p' :: pieces))
      with (p +:+ String "," (String.concat "," (p' :: pieces))).
    destruct (split_comma_app p (String "," (String.concat "," (p' :: pieces))) Hp)
      as (q & qs & Hq & Happ).
    rewrite Happ. simpl in Hq. injection Hq as <- <-.
    rewrite append_nil_r. f_equal. now apply IH.
Qed.

Lemma split_comma_join (s : string) :
  String.concat "," (split_comma s) = s /\
  Forall (fun piece => string_forall no_comma piece = true) (split_comma s).
Proof.
  induction s as [|c s [IHjoin IHfree]]; simpl.
  - split; [reflexivity|]. now constructor.
  - destruct (split_comma_head s) as (piece & pieces & Hs). rewrite Hs in *.
    destruct (Ascii.eqb c ",") eqn:Hc.
    + apply Ascii.eqb_eq in Hc. subst c. split; [|constructor; [reflexivity|exact IHfree]].
      change (String.concat "," (EmptyString :: piece :: pieces))
        with (String "," (String.concat "," (piece :: pieces))).
      now rewrite IHjoin.
    + apply Forall_cons in IHfree as [Hpiece Hpieces]. split.
      * rewrite <- IHjoin. now destruct pieces.
      * constructor; [|exact Hpieces]. simpl. unfold no_comma at 1. now rewrite Hc.
Qed.

(** ** Trimming and the pieces *)

Lemma trim_whitespace_before (ws s : string) :
  string_forall is_whitespace ws = true -> trim (ws +:+ s) = trim s.
Proof. intros Hws. unfold trim. now rewrite trimStart_whitespace. Qed.

Lemma trim_whitespace_after (s ws : string) :
  string_forall is_whitespace ws = true -> trim (s +:+ ws) = trim s.
Proof.
  intros Hws. unfold trim. induction s as [|c s IH].
  - rewrite append_empty. now rewrite (trimStart_whitespace_only ws Hws).
  - rewrite append_String. simpl. destruct (is_whitespace c); [exact IH|].
    rewrite <- append_String. now apply trimEnd_whitespace.
Qed.

Lemma whitespace_no_comma (c : ascii) : is_whitespace c = true -> no_comma c = true.
Proof.
  unfold no_comma. destruct (Ascii.eqb c ",") eqn:Hc; [|reflexivity].
  apply Ascii.eqb_eq in Hc. subst c. discriminate.
Qed.

Lemma trim_empty (s : string) :
  trim s = EmptyString <-> string_forall is_whitespace s = true.
Proof.
  split.
  - intros Htrim. unfold trim in Htrim.
    destruct (trimStart_decompose s) as (before & Hbefore & Hs).
    destruct (trimEnd_decompose (trimStart s)) as (after & Hafter & Hrest).
    rewrite Htrim, append_empty in Hrest.
    rewrite Hs, Hrest, string_forall_app, Hbefore, Hafter. reflexivity.
  - intros Hws. unfold trim. now rewrite (trimStart_whitespace_only s Hws).
Qed.

Lemma trim_forall (test : ascii -> bool) (s : string) :
  string_forall test s = true -> string_forall test (trim s) = true.
Proof.
  intros Hs. unfold trim.
  destruct (trimStart_decompose s) as (before & _ & Hbefore).
  destruct (trimEnd_decompose (trimStart s)) as (after & _ & Hafter).
  rewrite Hbefore, Hafter, !string_forall_app in Hs.
  apply andb_true_iff in Hs as [_ Hs]. now apply andb_true_iff in Hs as [Hs _].
Qed.

Lemma map_trim_trimStart (s : string) :
  map trim (split_comma (trimStart s)) = map trim (split_comma s).
Proof.
  destruct (trimStart_decompose s) as (ws & Hws & Hs).
  assert (Hfree : string_forall no_comma ws = true).
  { eapply string_forall_impl; [|exact Hws]. apply whitespace_no_comma. }
  destruct (split_comma_app ws (trimStart s) Hfree) as (piece & pieces & Hsplit & Happ).
  rewrite Hs at 2. rewrite Happ, Hsplit. simpl. f_equal.
  symmetry. now apply trim_whitespace_before.
Qed.

Lemma map_trim_trimEnd (s : string) :
  map trim (split_comma (trimEnd s)) = map trim (split_comma s).
Proof.
  destruct (trimEnd_decompose s) as (ws & Hws & Hs).
  assert (Hfree : string_forall no_comma ws = true).
  { eapply string_forall_impl; [|exact Hws]. apply whitespace_no_comma. }
  destruct (split_comma_app_r (trimEnd s) ws Hfree) as (pieces & piece & Hsplit & Happ).
  rewrite Hs at 2. rewrite Happ, Hsplit, !map_app. simpl. do 2 f_equal.
  symmetry. now apply trim_whitespace_after.
Qed.

Lemma parse_list_trim (s : string) : parse_list (trim s) = parse_list s.
Proof. unfold parse_list, trim. now rewrite map_trim_trimEnd, map_trim_trimStart. Qed.

Lemma split_comma_whitespace (s : string) :
  Forall (fun piece => string_forall is_whitespace piece = true) (split_comma s) <->
  string_forall separator s = true.
Proof.
  induction s as [|c s IH]; simpl.
  - split; [reflexivity|]. intros _. now constructor.
  - destruct (split_comma_head s) as (piece & pieces & Hs). rewrite Hs in *.
    unfold separator at 1. destruct (Ascii.eqb c ",") eqn:Hc.
    + rewrite orb_true_r. simpl. rewrite <- IH, Forall_cons. simpl. tauto.
    + rewrite orb_false_r, andb_true_iff, <- IH, !Forall_cons. simpl.
      rewrite andb_true_iff. tauto.
Qed.

Lemma filter_truthy_nil (l : list string) :
  List.filter string_truthy l = [] <-> Forall (fun s => s = EmptyString) l.
Proof.
  induction l as [|s l IH]; simpl.
  - split; [constructor|reflexivity].
  - rewrite Forall_cons. destruct s as [|c s]; simpl; [rewrite IH; tauto|].
    split; [discriminate|]. intros [H _]. discriminate.
Qed.

Lemma parse_list_empty (s : string) :
  parse_list s = [] <-> string_forall separator s = true.
Proof.
  unfold parse_list. rewrite filter_truthy_nil, Forall_map, <- split_comma_whitespace.
  apply Forall_iff. intros piece. apply trim_empty.
Qed.

Lemma parse_list_clean (s : string) : Forall clean (parse_list s).
Proof.
  unfold parse_list. apply Forall_forall. intros entry Hin%list_elem_of_In.
  apply filter_In in Hin as [Hin Htruthy].
  apply in_map_iff in Hin as (piece & <- & Hin).
  split; [now destruct (trim piece)|]. split; [apply trim_idempotent|].
  apply trim_forall. destruct (split_comma_join s) as [_ Hfree].
  rewrite Forall_forall in Hfree. now apply Hfree, list_elem_of_In.
Qed.

Lemma parse_list_pieces (pieces : list string) :
  pieces <> [] ->
  Forall (fun piece => string_forall no_comma piece = true) pieces ->
  parse_list (String.concat "," pieces) = List.filter string_truthy (map trim pieces).
Proof. intros Hne Hfree. unfold parse_list. now rewrite split_comma_concat. Qed.

(** X13.  The lists of the configuration ([FACILITATOR_NETWORKS],
    [ALLOWED_ORIGINS]) are read piece by piece: the entries read are never
    empty, hold no comma and no white space at either end; pieces without a
    comma joined by commas are read as the pieces trimmed, the empty ones
    left out; so a list of such entries joined by commas is read back as it
    is. *)
Theorem parse_list_round_trip :
  (forall value, Forall clean (parse_list value)) /\
  (forall pieces,
     pieces <> [] ->
     Forall (fun piece => string_forall no_comma piece = true) pieces ->
     parse_list (String.concat "," pieces) = List.filter string_truthy (map trim pieces)) /\
  (forall entries,
     Forall clean entries -> parse_list (String.concat "," entries) = entries).
Proof.
  split; [exact parse_list_clean|]. split; [exact parse_list_pieces|].
  intros entries Hclean. destruct entries as [|entry entries]; [reflexivity|].
  rewrite parse_list_pieces; [|discriminate|].
  - induction Hclean as [|e l (Hne & Htrim & _) _ IH]; simpl; [reflexivity|].
    rewrite Htrim. destruct e; [congruence|]. simpl. now f_equal.
  - eapply Forall_impl; [exact Hclean|]. now intros e (_ & _ & He).
Qed.

(** X14.  What the server takes from the two variables depends on their
    pieces only.  [FACILITATOR_NETWORKS] is [solana] alone when the variable
    is not set; when it is set, the trim of the whole value changes nothing
    and the list is the one of its pieces, which is empty exactly when the
    value holds nothing but commas and white space (there is no default
    then).  [cors] is installed exactly when [ALLOWED_ORIGINS] is set and
    has an entry, with the list of its pieces. *)
Theorem configuration_lists :
  FACILITATOR_NETWORKS None = ["solana"] /\
  cors_origins None = None /\
  forall value,
    FACILITATOR_NETWORKS (Some value) = parse_list value /\
    cors_origins (Some value) =
      match parse_list value with
      | [] => None
      | origins => Some origins
      end /\
    (parse_list value = [] <-> string_forall separator value = true).
Proof.
  split; [reflexivity|]. split; [reflexivity|].
  intros value. split; [apply parse_list_trim|]. split; [|apply parse_list_empty].
  unfold cors_origins. cbn zeta. rewrite parse_list_trim.
  destruct (trim value) eqn:Htrim; [|reflexivity].
  simpl. rewrite <- (parse_list_trim value), Htrim. reflexivity.
Qed.

(** ** The enabled networks *)

Lemma existsb_eqb_In (network : string) (l : list string) :
  existsb (String.eqb network) l = true <-> In network l.
Proof.
  rewrite existsb_exists. split.
  - intros (n & Hin & Heq). apply String.eqb_eq in Heq. now subst.
  - intros Hin. exists network. split; [exact Hin|apply String.eqb_refl].
Qed.

(** The check goes through the configured networks in their order and
    stops at the first that is not supported. *)
Lemma check_networks_outcome (SupportedSVMNetworks configured : list string) :
  match check_networks SupportedSVMNetworks configured with
  | Normal checked =>
      checked = configured /\
      Forall (fun network => In network SupportedSVMNetworks) configured
  | Throw e =>
      exists before network after,
        configured = before ++ network :: after /\
        Forall (fun n => In n SupportedSVMNetworks) before /\
        ~ In network SupportedSVMNetworks /\
        e = HostError ("Unsupported network configured: " +:+ network)
  end.
Proof.
  induction configured as [|network rest IH]; simpl.
  - split; [reflexivity|constructor].
  - destruct (existsb (String.eqb network) SupportedSVMNetworks) eqn:Hsupported.
    + apply existsb_eqb_In in Hsupported.
      destruct (check_networks SupportedSVMNetworks rest) as [checked|e]; cbn [bind].
      * destruct IH as [-> Hrest]. split; [reflexivity|now constructor].
      * destruct IH as (before & n & after & -> & Hbefore & Hn & ->).
        exists (network :: before), n, after. split; [reflexivity|].
        split; [now constructor|]. now split.
    + exists [], network, rest. split; [reflexivity|]. split; [constructor|].
      split; [|reflexivity].
      intros Hin%existsb_eqb_In. congruence.
Qed.

(** The set made of an array: its values, each once, and the array itself
    when no value stands twice in it. *)
Lemma Set_of_array_values (array : list string) :
  List.NoDup (Set_of_array array) /\
  (forall value, In value (Set_of_array array) <-> In value array) /\
  (List.NoDup array -> Set_of_array array = array).
Proof.
  unfold Set_of_array.
  assert (Hgen : forall rest values,
             List.NoDup values ->
             let result :=
               fold_left
                 (fun values value =>
                    if existsb (String.eqb value) values then values else values ++ [value])
                 rest values in
             List.NoDup result /\
             (forall value, In value result <-> In value values \/ In value rest) /\
             (List.NoDup (values ++ rest) -> result = values ++ rest)).
  { induction rest as [|value rest IH]; intros values Hnd; simpl.
    - split; [exact Hnd|]. split; [intros value; tauto|]. intros _. now rewrite app_nil_r.
    - destruct (existsb (String.eqb value) values) eqn:Hseen.
      + apply existsb_eqb_In in Hseen.
        destruct (IH values Hnd) as (Hnd' & Hin' & _).
        split; [exact Hnd'|]. split.
        * intros v. rewrite Hin'. split; [tauto|].
          intros [H|[<-|H]]; tauto.
        * intros Hall. exfalso.
          apply NoDup_ListNoDup, NoDup_app in Hall as (_ & Hdisjoint & _).
          apply (Hdisjoint value); [now apply list_elem_of_In|]. now left.
      + assert (Hnew : ~ In value values).
        { intros Hin%existsb_eqb_In. congruence. }
        destruct (IH (values ++ [value])) as (Hnd' & Hin' & Heq').
        { apply NoDup_ListNoDup, NoDup_app. repeat split.
          - now apply NoDup_ListNoDup.
          - intros v Hv [= ->]%list_elem_of_singleton. apply Hnew. now apply list_elem_of_In.
          - apply NoDup_singleton. }
        split; [exact Hnd'|]. split.
        * intros v. rewrite Hin', in_app_iff. simpl. tauto.
        * intros Hall. rewrite <- app_assoc in Heq'. now apply Heq'. }
  destruct (Hgen array []) as (Hnd & Hin & Heq); [constructor|].
  split; [exact Hnd|]. split; [|exact Heq].
  intros value. rewrite Hin. simpl. tauto.
Qed.

(** X15.  The start of the process checks the configured networks in their
    order.  It goes on exactly when all of them are supported; the enabled
    networks then are the configured ones, each once (the list itself when
    it names no network twice), and [resolveNetwork] takes a network
    exactly when it is configured and throws for any other, naming it.  It
    stops at the first network that is not supported, with an error that
    names that network.  An empty list is not refused: every network is
    then rejected. *)
Theorem enabled_networks_start (SupportedSVMNetworks configured : list string) :
  match enabled_networks SupportedSVMNetworks configured with
  | Normal enabled =>
      Forall (fun network => In network SupportedSVMNetworks) configured /\
      List.NoDup enabled /\
      (forall network, In network enabled <-> In network configured) /\
      (List.NoDup configured -> enabled = configured) /\
      (forall network,
         (In network configured ->
          resolveNetwork (list_to_set enabled) network = Normal network) /\
         (~ In network configured ->
          resolveNetwork (list_to_set enabled) network =
            Throw (HostError
                     ("Network " +:+ network +:+ " is not enabled for this facilitator"))))
  | Throw e =>
      exists before network after,
        configured = before ++ network :: after /\
        Forall (fun n => In n SupportedSVMNetworks) before /\
        ~ In network SupportedSVMNetworks /\
        e = HostError ("Unsupported network configured: " +:+ network)
  end.
Proof.
  unfold enabled_networks.
  pose proof (check_networks_outcome SupportedSVMNetworks configured) as Hcheck.
  destruct (check_networks SupportedSVMNetworks configured) as [checked|e]; cbn [bind];
    [|exact Hcheck].
  destruct Hcheck as [-> Hall].
  destruct (Set_of_array_values configured) as (Hnd & Hin & Heq).
  split; [exact Hall|]. split; [exact Hnd|]. split; [exact Hin|]. split; [exact Heq|].
  intros network. unfold resolveNetwork. split.
  - intros Hconfigured. rewrite bool_decide_eq_true_2; [reflexivity|].
    apply elem_of_list_to_set, list_elem_of_In. now apply Hin.
  - intros Hother. rewrite bool_decide_eq_false_2; [reflexivity|].
    intros Hset%elem_of_list_to_set%list_elem_of_In. now apply Hother, Hin.
Qed.

(** ** The theorems at concrete inputs *)

(** The round trip as stated fails at 1234567 with 6 decimals: the amount
    prints as 1.234567, which [safeParseAtomic] does not read. *)
Lemma roundtrip_as_stated_fails :
  formatAtomicAmount small_powers 1234567 six = Normal "1.234567" /\
  safeParseAtomic no_rest (JString "1.234567") = Normal None /\
  ~ (exists rest fits, roundtrip_as_stated rest fits 1234567 6).
Proof.
  split; [reflexivity|]. split; [reflexivity|].
  intros (rest & fits & text & parsed & Hformat & Hparse & _).
  vm_compute in Hformat.
  destruct (fits 10 6); [injection Hformat as <-|discriminate Hformat].
  vm_compute in Hparse. discriminate Hparse.
Qed.

(** 1234567 at 6 decimals prints with a fraction and does not read back;
    the engine holds the sixth power of ten. *)
Lemma format_then_parse_witness :
  exists text,
    formatAtomicAmount small_powers 1234567 (number_of_Z 6) = Normal text /\
    safeParseAtomic no_rest (JString text) =
      Normal (if 1234567 mod 10 ^ 6 =? 0 then Some (1234567 / 10 ^ 6) else None) /\
    (1234567 mod 10 ^ 6 = 0 -> 1234567 / 10 ^ 6 * 10 ^ 6 = 1234567) /\
    (1234567 mod 10 ^ 6 <> 0 ->
     exists fraction,
       text = BigInt_toString (1234567 / 10 ^ 6) +:+ "." +:+ fraction /\
       fraction <> EmptyString /\
       string_forall is_digit fraction = true).
Proof.
  apply (format_then_parse no_rest small_powers 1234567 6); [lia|lia|reflexivity].
Defined.

(** A third entry, of decimals 6, joins the group of decimals 6 only. *)
Lemma recordSettlement_totals_witness :
  let result := recordSettlement no_rest 3000 "A" six 200 mixed_window in
  (exists group,
     totals_get (fst (snd result)) (totals_key no_rest new_entry) = Some group /\
     total_asset group = entry_asset new_entry /\
     plain_integer (total_decimals group) = Some 6 /\
     total_amountAtomic group = sum_amounts (in_group (entry_asset new_entry) 6) (fst result)) /\
  snd result =
    ([("A|6", {| total_asset := "A"; total_decimals := six; total_amountAtomic := 300 |});
      ("A|9", {| total_asset := "A"; total_decimals := number_of_Z 9;
                 total_amountAtomic := 7 |})],
     3).
Proof.
  intros result. split; [|vm_compute; reflexivity].
  pose proof (recordSettlement_totals no_rest 3000 "A" six 200 mixed_window)
    as (_ & _ & _ & _ & Hpair & _).
  assert (Hwindow : fst result = mixed_window ++ [new_entry]) by reflexivity.
  apply Hpair.
  - fold result. rewrite Hwindow.
    repeat (apply List.Forall_cons; [eexists; reflexivity|]). apply List.Forall_nil.
  - fold result. rewrite Hwindow. simpl. tauto.
  - reflexivity.
Defined.

(** The invariant as stated fails when the times go back: after calls at
    day 10, at time 0 and at day 10.5, the entry of time 0 is still in the
    window, a day and more older than the last call, and counted. *)
Lemma stale_entry_retained :
  let now := 907200000 in
  let window := record_all no_rest [(864000000, "A", six, 1); (0, "A", six, 2)] [] in
  let result := recordSettlement no_rest now "A" six 3 window in
  In {| timestamp := 0; entry_asset := "A"; entry_decimals := six; amountAtomic := 2 |}
     (fst result) /\
  ~ Forall (fun kept => now - MS_IN_DAY <= timestamp kept) (fst result) /\
  snd result =
    ([("A|6", {| total_asset := "A"; total_decimals := six; total_amountAtomic := 6 |})], 3).
Proof.
  intros now window result.
  assert (Hwindow : fst result =
            [{| timestamp := 864000000; entry_asset := "A"; entry_decimals := six;
                amountAtomic := 1 |};
             {| timestamp := 0; entry_asset := "A"; entry_decimals := six;
                amountAtomic := 2 |};
             {| timestamp := now; entry_asset := "A"; entry_decimals := six;
                amountAtomic := 3 |}]) by reflexivity.
  split; [rewrite Hwindow; simpl; tauto|]. split; [|reflexivity].
  rewrite Hwindow. intros H.
  apply Forall_cons in H as [_ H]. apply Forall_cons in H as [H _].
  simpl in H. unfold now, MS_IN_DAY in H. lia.
Qed.

(** In a window in timestamp order the entry older than a day leaves. *)
Lemma recordSettlement_prefix_trimmed_witness :
  let window' := fst (recordSettlement no_rest 86400010 "A" six 3 ordered_window) in
  Forall (fun kept => 86400010 - MS_IN_DAY <= timestamp kept) window' /\
  in_timestamp_order window' /\
  Forall (fun kept => timestamp kept <= 86400010) window'.
Proof.
  pose proof (recordSettlement_prefix_trimmed no_rest 86400010 "A" six 3 ordered_window)
    as (_ & _ & _ & Hordered & _).
  apply Hordered.
  - unfold in_timestamp_order, ordered_window. simpl.
    repeat split; repeat (apply List.Forall_cons; [lia|]); apply List.Forall_nil.
  - unfold ordered_window.
    repeat (apply List.Forall_cons; [simpl; lia|]). apply List.Forall_nil.
Defined.

(** The precedence as stated fails on a string of white space, which is not
    taken for an address, and on an address field that is null, which is not
    stringified. *)
Lemma resolveAsset_as_stated_fails :
  asset (resolveAssetInfo no_rest (requirements_of (JString "  "))) = "unknown" /\
  asset (resolveAsset_as_stated no_rest (requirements_of (JString "  "))) = "  " /\
  asset (resolveAssetInfo no_rest (requirements_of (JObject {["address" := JNull]})))
    = "unknown" /\
  asset (resolveAsset_as_stated no_rest (requirements_of (JObject {["address" := JNull]})))
    = "null" /\
  ~ (forall paymentRequirements,
       resolveAssetInfo no_rest paymentRequirements =
       resolveAsset_as_stated no_rest paymentRequirements).
Proof.
  split; [vm_compute; reflexivity|]. split; [vm_compute; reflexivity|].
  split; [vm_compute; reflexivity|]. split; [vm_compute; reflexivity|].
  intros H. specialize (H (requirements_of (JString "  "))).
  vm_compute in H. discriminate H.
Qed.

(** A string with white space around an address is kept as it is. *)
Lemma resolveAssetInfo_precedence_witness :
  resolveAssetInfo no_rest (requirements_of (JString " So11 ")) =
    {| asset := " So11 "; decimals := DEFAULT_DECIMALS |}.
Proof.
  pose proof (resolveAssetInfo_precedence no_rest (requirements_of (JString " So11 ")))
    as (_ & Hstring & _).
  apply (Hstring " So11 "); [reflexivity|discriminate].
Defined.

(** The amount 12.5 does not parse: the receipt is returned, nothing is
    recorded. *)
Lemma settlement_with_unparsed_amount_witness :
  let run :=
    post_settle no_rest small_powers {["solana"]}
      (fun _ => Normal (requirements_of (JString "So11")))
      (fun payload => Normal payload)
      unit (fun _ => Normal tt) (fun _ => true)
      (fun _ _ _ => Normal receipt)
      JNull JNull 1700000000000 initial_state in
  snd run = {| status := 200; body := JsonResult receipt |} /\
  settlementWindow (fst run) = [] /\
  compute_totals no_rest (settlementWindow (fst run)) = [].
Proof.
  pose proof (settlement_with_unparsed_amount no_rest small_powers {["solana"]}
                (fun _ => Normal (requirements_of (JString "So11")))
                (fun payload => Normal payload)
                unit (fun _ => Normal tt) (fun _ => true)
                (fun _ _ _ => Normal receipt)
                (requirements_of (JString "So11")) receipt 1700000000000 initial_state
                eq_refl)
    as (_ & _ & Hsettle).
  apply (Hsettle JNull JNull JNull tt);
    first [reflexivity | now apply elem_of_singleton].
Defined.

(** An override of 1.5 decimals: the settlement succeeds and the answer is
    an error. *)
Lemma settle_fails_on_fractional_decimals_witness :
  let requirements :=
    {| pr_network := "solana";
       pr_asset := JString "So11";
       pr_maxAmountRequired := JString "1000";
       pr_resource := None;
       pr_description := None;
       pr_extra := JObject {["assetDecimals" := JNumber (S754_finite false 3 (-1))]} |} in
  snd (post_settle no_rest small_powers {["solana"]}
         (fun _ => Normal requirements) (fun payload => Normal payload)
         unit (fun _ => Normal tt) (fun _ => true) (fun _ _ _ => Normal receipt)
         JNull JNull 1700000000000 initial_state) =
    {| status := 400; body := JsonError RangeError |}.
Proof.
  intros requirements.
  pose proof (settle_fails_on_fractional_decimals no_rest small_powers {["solana"]}
                (fun _ => Normal requirements) (fun payload => Normal payload)
                unit (fun _ => Normal tt) (fun _ => true) (fun _ _ _ => Normal receipt)
                requirements receipt 1700000000000 initial_state 1000
                eq_refl eq_refl eq_refl)
    as (_ & _ & Hsettle).
  apply (Hsettle JNull JNull JNull tt);
    first [reflexivity | now apply elem_of_singleton].
Defined.

(** 1234567 at 6 decimals: the quotient 1 and the fraction 234567. *)
Lemma formatAtomicAmount_fraction_witness :
  exists fraction f,
    formatAtomicAmount small_powers 1234567 (number_of_Z 6) =
      Normal ((if 1234567 <? 0 then "-" else "") +:+
              BigInt_toString (Z.abs 1234567 / 10 ^ 6) +:+ "." +:+ fraction) /\
    fraction <> EmptyString /\
    string_forall is_digit fraction = true /\
    Z.of_nat (String.length fraction) <= 6 /\
    strip_trailing_zeros fraction = fraction /\
    safeParseAtomic no_rest (JString fraction) = Normal (Some f) /\
    Z.abs 1234567 / 10 ^ 6 * 10 ^ 6 + f * 10 ^ (6 - Z.of_nat (String.length fraction))
      = Z.abs 1234567.
Proof.
  apply (formatAtomicAmount_fraction no_rest small_powers 1234567 6); [lia|reflexivity|].
  change (Z.abs 1234567 mod 10 ^ 6) with 234567. lia.
Defined.

(** A call a day and ten milliseconds after the first entry: that entry
    leaves, the second one stays. *)
Lemma recordSettlement_keeps_fresh_witness :
  let window' := fst (recordSettlement no_rest 86400010 "A" six 3 ordered_window) in
  window' =
    List.filter (fresh 86400010) ordered_window ++
      [{| timestamp := 86400010; entry_asset := "A"; entry_decimals := six;
          amountAtomic := 3 |}] /\
  (forall entry,
     In entry ordered_window ->
     (In entry window' <-> 86400010 - MS_IN_DAY <= timestamp entry)).
Proof.
  apply (recordSettlement_keeps_fresh no_rest 86400010 "A" six 3 ordered_window).
  unfold in_timestamp_order, ordered_window. simpl.
  repeat split; repeat (apply List.Forall_cons; [lia|]); apply List.Forall_nil.
Defined.

(** A settlement of 1000 units at 6 decimals in an empty window: recorded,
    and answered with the receipt. *)
Lemma post_settle_records_and_answers_witness :
  let info := resolveAssetInfo no_rest (requirements_with six) in
  let entry :=
    {| timestamp := 1700000000000; entry_asset := asset info;
       entry_decimals := decimals info; amountAtomic := 1000 |} in
  let run :=
    post_settle no_rest small_powers {["solana"]}
      (fun _ => Normal (requirements_with six)) (fun payload => Normal payload)
      unit (fun _ => Normal tt) (fun _ => true) (fun _ _ _ => Normal receipt)
      JNull JNull 1700000000000 initial_state in
  settlementWindow (fst run) =
    pruneSettlementWindow 1700000000000 (settlementWindow initial_state ++ [entry]) /\
  last (settlementWindow (fst run)) = Some entry /\
  (Forall (fun kept => formattable small_powers (entry_decimals kept) = true) (settlementWindow (fst run)) ->
   snd run = {| status := 200; body := JsonResult receipt |}).
Proof.
  apply (post_settle_records_and_answers no_rest small_powers {["solana"]}
           (fun _ => Normal (requirements_with six)) (fun payload => Normal payload)
           unit (fun _ => Normal tt) (fun _ => true) (fun _ _ _ => Normal receipt)
           JNull JNull 1700000000000 initial_state (requirements_with six) receipt 1000).
  - exists JNull, tt. repeat split; first [reflexivity | now apply elem_of_singleton].
  - reflexivity.
Defined.

(** The same settlement a second after one recorded with 1.5 decimals: the
    answer is an error. *)
Lemma post_settle_spoiled_window_witness :
  let st :=
    {| signerCache := ∅; createSigner_calls := []; settlementWindow := [spoiled_entry] |} in
  let info := resolveAssetInfo no_rest (requirements_with six) in
  let run :=
    post_settle no_rest small_powers {["solana"]}
      (fun _ => Normal (requirements_with six)) (fun payload => Normal payload)
      unit (fun _ => Normal tt) (fun _ => true) (fun _ _ _ => Normal receipt)
      JNull JNull 1700000000000 st in
  snd run = {| status := 400; body := JsonError RangeError |} /\
  In spoiled_entry (settlementWindow (fst run)) /\
  last (settlementWindow (fst run)) =
    Some {| timestamp := 1700000000000; entry_asset := asset info;
            entry_decimals := decimals info; amountAtomic := 1000 |}.
Proof.
  intros st.
  apply (post_settle_spoiled_window no_rest small_powers {["solana"]}
           (fun _ => Normal (requirements_with six)) (fun payload => Normal payload)
           unit (fun _ => Normal tt) (fun _ => true) (fun _ _ _ => Normal receipt)
           JNull JNull 1700000000000 st (requirements_with six) receipt 1000 spoiled_entry).
  - exists JNull, tt. repeat split; first [reflexivity | now apply elem_of_singleton].
  - reflexivity.
  - now left.
  - unfold MS_IN_DAY, spoiled_entry. simpl. lia.
  - intros entry [<-|[]] _. reflexivity.
Defined.

(** Three calls with times that do not go back: the first is older than a
    day at the third. *)
Lemma record_all_last_day_witness :
  record_all no_rest three_calls [] =
    List.filter (fresh (last_now three_calls)) (map entry_of three_calls).
Proof.
  apply (record_all_last_day no_rest three_calls).
  unfold three_calls. simpl.
  repeat split; repeat (apply List.Forall_cons; [unfold call_now; simpl; lia|]);
    apply List.Forall_nil.
Defined.

(** The three routes, one after another, with one network enabled. *)
Lemma signers_of_enabled_networks_only_witness :
  let st :=
    serve no_rest small_powers {["solana"]}
      (fun _ => Normal (requirements_with six)) (fun payload => Normal payload)
      unit (fun _ => Normal tt) (fun _ => true) (fun _ _ _ => Normal receipt)
      (fun _ _ _ => Normal receipt) (fun _ => "payer")
      ["solana"]
      [GetSupported; PostSettle JNull JNull 1700000000000; PostVerify JNull JNull]
      initial_state in
  List.NoDup (createSigner_calls st) /\
  (forall network, In network (createSigner_calls st) -> network ∈ ({["solana"]} : gset string)) /\
  (forall network promise,
     signerCache st !! network = Some promise <->
     createSigner_calls st !! promise = Some network) /\
  (forall network, is_Some (signerCache st !! network) -> network ∈ ({["solana"]} : gset string)).
Proof.
  apply (signers_of_enabled_networks_only no_rest small_powers {["solana"]}
           (fun _ => Normal (requirements_with six)) (fun payload => Normal payload)
           unit (fun _ => Normal tt) (fun _ => true) (fun _ _ _ => Normal receipt)
           (fun _ _ _ => Normal receipt) (fun _ => "payer")
           ["solana"]
           [GetSupported; PostSettle JNull JNull 1700000000000; PostVerify JNull JNull]).
  intros network [<-|[]]. now apply elem_of_singleton.
Defined.

(** A key that could not be read: the promise of the signer rejects, and
    stays. *)
Lemma rejected_signer_is_kept_witness :
  let st :=
    {| signerCache := {["solana" := 0%nat]}; createSigner_calls := ["solana"];
       settlementWindow := [] |} in
  let st' :=
    serve no_rest small_powers {["solana"]}
      (fun _ => Normal (requirements_with six)) (fun payload => Normal payload)
      unit (fun _ => Throw (HostError "bad secret key")) (fun _ => true)
      (fun _ _ _ => Normal receipt) (fun _ _ _ => Normal receipt) (fun _ => "payer")
      ["solana"] [GetSupported] st in
  signerCache st' !! "solana" = Some 0%nat /\
  (forall requirements payload paymentRequirements paymentPayload,
     Normal (requirements_with six) = Normal paymentRequirements ->
     Normal payload = Normal paymentPayload ->
     pr_network paymentRequirements = "solana" ->
     "solana" ∈ ({["solana"]} : gset string) ->
     (forall now,
        post_settle no_rest small_powers {["solana"]}
          (fun _ => Normal (requirements_with six)) (fun payload => Normal payload)
          unit (fun _ => Throw (HostError "bad secret key")) (fun _ => true)
          (fun _ _ _ => Normal receipt) requirements payload now st' =
          (st', {| status := 400; body := JsonError (HostError "bad secret key") |})) /\
     post_verify no_rest small_powers {["solana"]}
       (fun _ => Normal (requirements_with six)) (fun payload => Normal payload)
       unit (fun _ => Throw (HostError "bad secret key"))
       (fun _ _ _ => Normal receipt) requirements payload st' =
       (st', {| status := 400; body := JsonError (HostError "bad secret key") |})) /\
  (In "solana" ["solana"] ->
   fst (snd (get_supported unit
               (fun _ => Throw (HostError "bad secret key")) (fun _ => true)
               (fun _ => "payer") ["solana"] st')) = 500).
Proof.
  intros st.
  apply (rejected_signer_is_kept no_rest small_powers {["solana"]}
           (fun _ => Normal (requirements_with six)) (fun payload => Normal payload)
           unit (fun _ => Throw (HostError "bad secret key")) (fun _ => true)
           (fun _ _ _ => Normal receipt) (fun _ _ _ => Normal receipt) (fun _ => "payer")
           ["solana"] [GetSupported] st "solana" 0%nat (HostError "bad secret key")).
  - apply lookup_singleton_eq.
  - reflexivity.
Defined.

(** A verification that succeeds for requirements with 10^10 decimals, a
    power of ten the engine does not hold, is answered with an error. *)
Lemma post_verify_beyond_bound :
  snd (post_verify no_rest small_powers {["solana"]}
         (fun _ => Normal (requirements_with (number_of_Z 10000000000)))
         (fun payload => Normal payload)
         unit (fun _ => Normal tt) (fun _ _ _ => Normal receipt)
         JNull JNull initial_state) =
    {| status := 400; body := JsonError RangeError |}.
Proof. reflexivity. Qed.

(** A verification that succeeds for requirements with 1.5 decimals is
    answered with an error. *)
Lemma post_verify_answer_witness :
  snd (post_verify no_rest small_powers {["solana"]}
         (fun _ => Normal (requirements_with one_and_a_half)) (fun payload => Normal payload)
         unit (fun _ => Normal tt) (fun _ _ _ => Normal receipt)
         JNull JNull initial_state) =
    {| status := 400; body := JsonError RangeError |}.
Proof.
  pose proof (post_verify_answer no_rest small_powers {["solana"]}
                (fun _ => Normal (requirements_with one_and_a_half))
                (fun payload => Normal payload)
                unit (fun _ => Normal tt) (fun _ _ _ => Normal receipt)
                JNull JNull initial_state) as (_ & Hanswer & _).
  apply (Hanswer (requirements_with one_and_a_half) receipt).
  exists JNull, tt. repeat split; first [reflexivity | now apply elem_of_singleton].
Defined.

(** One network with a wallet signer: the kind names its address as the fee
    payer, and a second request gives the same answer. *)
Lemma get_supported_kinds_witness :
  let run :=
    get_supported unit (fun _ => Normal tt) (fun _ => true) (fun _ => "payer")
      ["solana"] initial_state in
  map kind_network
    [{| x402Version := 1; scheme := "exact"; kind_network := "solana";
        extra_feePayer := Some "payer" |}] = ["solana"] /\
  get_supported unit (fun _ => Normal tt) (fun _ => true) (fun _ => "payer")
    ["solana"] (fst run) = run.
Proof.
  intros run.
  pose proof (get_supported_kinds unit (fun _ => Normal tt) (fun _ => true)
                (fun _ => "payer") ["solana"] initial_state) as (_ & Hkinds & _).
  destruct (Hkinds [{| x402Version := 1; scheme := "exact"; kind_network := "solana";
                       extra_feePayer := Some "payer" |}] eq_refl)
    as (Hnetworks & _ & _ & Hagain).
  split; [exact Hnetworks|exact Hagain].
Defined.

(** A list with padding, an empty piece and a network named twice: the two
    networks are enabled, each once. *)
Lemma enabled_networks_start_witness :
  enabled_networks ["solana-devnet"; "solana"]
    (FACILITATOR_NETWORKS (Some " solana ,solana-devnet,,solana")) =
    Normal ["solana"; "solana-devnet"] /\
  resolveNetwork (list_to_set ["solana"; "solana-devnet"]) "solana-devnet" =
    Normal "solana-devnet".
Proof.
  assert (Hrun : enabled_networks ["solana-devnet"; "solana"]
                   (FACILITATOR_NETWORKS (Some " solana ,solana-devnet,,solana")) =
                 Normal ["solana"; "solana-devnet"]) by reflexivity.
  split; [exact Hrun|].
  pose proof (enabled_networks_start ["solana-devnet"; "solana"]
                (FACILITATOR_NETWORKS (Some " solana ,solana-devnet,,solana"))) as Hstart.
  rewrite Hrun in Hstart. destruct Hstart as (_ & _ & _ & _ & Hresolve).
  apply Hresolve. right. left. reflexivity.
Defined.

(** The claim on [formatAtomic] as stated, for every decimals, fails: at
    10^10 decimals the engine does not hold the power of ten and
    [formatAtomicAmount] throws; at 1.5 decimals it throws whatever the
    engine holds. *)
Lemma formatAtomic_as_stated_fails :
  formatAtomicAmount small_powers 1 (number_of_Z 10000000000) = Throw RangeError /\
  ~ formatAtomic_as_stated small_powers /\
  ~ (exists fits, returns (formatAtomicAmount fits 1 one_and_a_half)).
Proof.
  assert (Hthrow : formatAtomicAmount small_powers 1 (number_of_Z 10000000000)
                   = Throw RangeError) by reflexivity.
  split; [exact Hthrow|]. split.
  - intros Hstated. specialize (Hstated 1 10000000000).
    rewrite Hthrow in Hstated. discriminate Hstated.
  - intros (fits & text & Htext). discriminate Htext.
Qed.

(** With an engine that holds the sixth power of ten: the examples of the
    specification, and two that need the zeros of the padding. *)
Lemma formatAtomicAmount_correct_witness :
  formatAtomicAmount small_powers 1234567 (number_of_Z 6) = Normal "1.234567" /\
  formatAtomicAmount small_powers 1000000 (number_of_Z 6) = Normal "1" /\
  formatAtomicAmount small_powers 0 (number_of_Z 6) = Normal "0" /\
  formatAtomicAmount small_powers (-500000) (number_of_Z 6) = Normal "-0.5" /\
  formatAtomicAmount small_powers 1000001 (number_of_Z 6) = Normal "1.000001" /\
  formatAtomicAmount small_powers 50 (number_of_Z 6) = Normal "0.00005" /\
  formatAtomicAmount small_powers 1234567 (S754_finite false 6755399441055744 (-50))
    = Normal "1.234567".
Proof.
  pose proof (formatAtomicAmount_correct small_powers) as (_ & _ & _ & _ & _ & Hexamples).
  apply Hexamples. reflexivity.
Defined.

(** At 6 decimals, with an engine that holds the sixth power of ten. *)
Lemma formatAtomicAmount_lossless_witness :
  (forall amount,
     exists text,
       formatAtomicAmount small_powers amount (number_of_Z 6) = Normal text /\
       read_formatted 6 text = Some amount) /\
  (forall a b,
     formatAtomicAmount small_powers a (number_of_Z 6) =
       formatAtomicAmount small_powers b (number_of_Z 6) -> a = b).
Proof.
  apply (formatAtomicAmount_lossless small_powers 6). reflexivity.
Defined.

(** A settlement that succeeds for requirements with 10^10 decimals is
    answered with an error too, and recorded. *)
Lemma post_settle_beyond_bound :
  let run :=
    post_settle no_rest small_powers {["solana"]}
      (fun _ => Normal (requirements_with (number_of_Z 10000000000)))
      (fun payload => Normal payload)
      unit (fun _ => Normal tt) (fun _ => true) (fun _ _ _ => Normal receipt)
      JNull JNull 1700000000000 initial_state in
  snd run = {| status := 400; body := JsonError RangeError |} /\
  length (settlementWindow (fst run)) = 1%nat.
Proof. split; reflexivity. Qed.
